(** * BrickGenius: the voxel layout engine

    A shallow embedding of the layout core of the BrickGenius application
    (a React / TypeScript block-building toy) together with the properties
    its specification states about it:

    - [src/utils/brickUtils.ts]   the voxel packer [optimizeBricks];
    - [src/hooks/useHistory.ts]   the undo / redo history hook;
    - [App.tsx]                   connectivity ([getLiftableBricks]),
                                  lifting, dropping, rotating, adding;
    - [components/Scene.tsx]      the pointer handlers that issue placement
                                  requests;
    - [constants.ts]              the brick catalog and the board size.

    Conventions of the embedding.  A JavaScript [number] that holds a grid
    coordinate or a footprint size is an integer of [Z] (the packer prints
    and re-parses them in decimal, which is modelled on strings).  An
    optional field [f?: T] is an [option T]; [undefined] is [None].  React
    state is passed explicitly: every handler is a function from the state
    it closes over to the state after the re-render.  [uuidv4()] is an
    oracle [uuid : nat -> string], the [k]-th call returning [uuid k]. *)

From Stdlib Require Import String Ascii.
From Stdlib Require Import ZArith List Bool Arith Lia.
From Stdlib Require Import DecimalString DecimalZ Decimal.
From Stdlib Require Import Permutation Sorted Relations.
Import ListNotations.

Local Open Scope Z_scope.

(* ===================================================================== *)
(** * JavaScript values used by the program *)
(* ===================================================================== *)

Module JS.

(** [v || d] on an optional number: [undefined] and [0] are falsy. *)
Definition orElse (v : option Z) (d : Z) : Z :=
  match v with
  | Some n => if n =? 0 then d else n
  | None => d
  end.

(** The template literal [`${n}`] of an integer.  The code's numbers are
    doubles: the literal prints an integer in plain decimal as long as its
    magnitude is below [10^21] and in exponent form from there on, and
    only integers up to [2^53] in magnitude are all represented.  This
    definition prints plain decimal throughout: it is the code's literal
    on the integers up to [2^53] in magnitude, and what is proved of
    printed numerals is stated for such numbers. *)
Definition numStr (n : Z) : string :=
  NilZero.string_of_int (Z.to_int n).

(** [Number(s)] and [parseInt(s)] on the plain decimal numerals the
    program itself printed, where the two agree; any other string is
    [NaN], here [None].  On a numeral in exponent form [parseInt] stops at
    the first character that is no digit; such numerals are outside the
    range this definition stands for. *)
Definition parseNum (s : string) : option Z :=
  option_map Z.of_int (NilZero.int_of_string s).

(** [s.split(',')]. *)
Fixpoint split (s : string) : list string :=
  match s with
  | EmptyString => [EmptyString]
  | String c r =>
      if Ascii.eqb c "," then EmptyString :: split r
      else match split r with
           | h :: t => String c h :: t
           | [] => [String c EmptyString]
           end
  end.

(** [for (let i = 0; i < n; i++)]: the values [i] takes. *)
Definition upto (n : Z) : list Z :=
  map Z.of_nat (seq 0 (Z.to_nat n)).

(** A [Set<string>]: its elements in insertion order, without repeats. *)
Abbreviation StrSet := (list string).

Definition has (s : StrSet) (k : string) : bool :=
  existsb (String.eqb k) s.

Definition add (s : StrSet) (k : string) : StrSet :=
  if has s k then s else (s ++ [k])%list.

(** A [Map<string, Set<string>>]: its entries in insertion order. *)
Abbreviation StrMap := (list (string * StrSet)).

Definition mhas (m : StrMap) (k : string) : bool :=
  existsb (fun e => String.eqb k (fst e)) m.

(** [m.set(k, v)] for a key that is not yet present appends the entry. *)
Definition mset (m : StrMap) (k : string) (v : StrSet) : StrMap :=
  if mhas m k
  then map (fun e => if String.eqb k (fst e) then (k, v) else e) m
  else (m ++ [(k, v)])%list.

(** [m.get(k)?.add(x)]: the set stored under [k] is updated in place. *)
Definition madd (m : StrMap) (k x : string) : StrMap :=
  map (fun e => if String.eqb k (fst e) then (fst e, add (snd e) x) else e) m.

(** [Array.prototype.sort(cmp)], a stable sort: insertion from the right
    keeps equal elements in their original order. *)
Section Sort.
Context {A : Type} (cmp : A -> A -> Z).

Fixpoint insert (a : A) (l : list A) : list A :=
  match l with
  | [] => [a]
  | b :: r => if cmp a b <=? 0 then a :: l else b :: insert a r
  end.

Definition sort (l : list A) : list A :=
  fold_right insert [] l.
End Sort.

End JS.

(* ===================================================================== *)
(** * Data model ([types.ts], [constants.ts]) *)
(* ===================================================================== *)

Inductive SpecialType := AXLE | TIRE.

Record BrickData := mkBrick {
  id : string;
  x : Z;
  y : Z;
  z : Z;
  color : string;
  sizeX : option Z;
  sizeZ : option Z;
  rotation : option Z;
  specialType : option SpecialType;
  offsetX : option Z;
  offsetY : option Z;
  offsetZ : option Z
}.

Record BrickType := mkType {
  label : string;
  tSizeX : Z;
  tSizeZ : Z;
  tSpecialType : option SpecialType
}.

Record RawBrick := mkRaw {
  rx : Z;
  ry : Z;
  rz : Z;
  rcolor : string
}.

Definition BRICK_TYPES : list BrickType :=
  [ mkType "1x1" 1 1 None;
    mkType "1x2" 1 2 None;
    mkType "1x3" 1 3 None;
    mkType "1x4" 1 4 None;
    mkType "2x2" 2 2 None;
    mkType "2x3" 2 3 None;
    mkType "2x4" 2 4 None;
    mkType "2x2 Axle" 2 2 (Some AXLE);
    mkType "Wheel" 1 1 (Some TIRE) ].

Definition MAX_BOARD_SIZE : Z := 20.

Definition RED : string := "#EF4444".

(** A board snapshot. *)
Definition Board := list BrickData.

(* ===================================================================== *)
(** * History hook ([hooks/useHistory.ts]) *)
(* ===================================================================== *)

Module UseHistory.

Record State := mkState {
  bricks : Board;
  history : list Board;
  currentHistoryIndex : nat
}.

(** [useHistory(initialBricks)]: the state of the first render. *)
Definition init (initialBricks : Board) : State :=
  mkState initialBricks [initialBricks] 0.

(** [saveToHistory] is a [useCallback] closure over [currentHistoryIndex]:
    [captured] is the index of the render that created the closure that is
    called.  [prev.slice(0, currentHistoryIndex + 1)] cuts the history at
    the captured index, then [push(newBricks)]; the index is incremented
    by a functional update, hence from its live value, and the live board
    is replaced. *)
Definition saveToHistory (captured : nat) (s : State) (newBricks : Board)
  : State :=
  mkState newBricks
          (firstn (captured + 1) (history s) ++ [newBricks])
          (currentHistoryIndex s + 1).

(** A commit by the closure of the current render: the captured index is
    the live one. *)
Definition commit (s : State) (newBricks : Board) : State :=
  saveToHistory (currentHistoryIndex s) s newBricks.

(** [history[newIndex]] is [undefined] out of range; a board, even an
    empty one, is truthy. *)
Definition undo (s : State) : State :=
  if (0 <? currentHistoryIndex s)%nat then
    let newIndex := (currentHistoryIndex s - 1)%nat in
    match nth_error (history s) newIndex with
    | Some h => mkState h (history s) newIndex
    | None => mkState (bricks s) (history s) newIndex
    end
  else s.

Definition redo (s : State) : State :=
  if (currentHistoryIndex s <? length (history s) - 1)%nat then
    let newIndex := (currentHistoryIndex s + 1)%nat in
    match nth_error (history s) newIndex with
    | Some h => mkState h (history s) newIndex
    | None => mkState (bricks s) (history s) newIndex
    end
  else s.

Definition canUndo (s : State) : bool := (0 <? currentHistoryIndex s)%nat.
Definition canRedo (s : State) : bool :=
  (currentHistoryIndex s <? length (history s) - 1)%nat.

(** [n] consecutive calls of a handler. *)
Fixpoint times (n : nat) (f : State -> State) (s : State) : State :=
  match n with
  | O => s
  | S k => times k f (f s)
  end.

(** A sequence of commits, oldest first, each by the closure of the
    render it happens in. *)
Definition commits (s : State) (bs : list Board) : State :=
  fold_left commit bs s.

(** The index is within the bounds of the history. *)
Definition wf (s : State) : Prop :=
  (currentHistoryIndex s < length (history s))%nat.

(** The live board is the snapshot under the index. *)
Definition synced (s : State) : Prop :=
  nth_error (history s) (currentHistoryIndex s) = Some (bricks s).

End UseHistory.

(* ===================================================================== *)
(** * Voxel packer ([utils/brickUtils.ts]) *)
(* ===================================================================== *)

Module Packer.

Import JS.

(** [`${b.y},${b.color}`] and [`${x},${z}`]. *)
Definition groupKey (y : Z) (c : string) : string :=
  (numStr y ++ "," ++ c)%string.

Definition coordKey (x z : Z) : string :=
  (numStr x ++ "," ++ numStr z)%string.

(** A numeral read back, by [parseInt] for the layer and by [Number] for
    the coordinates.  The packer only reads numerals it printed, so the
    [NaN] case ([None], given the value [0] here) does not arise; the
    numeral is read back as the number printed for integers up to [2^53]
    in magnitude (see [JS.numStr]). *)
Definition toNum (s : string) : Z :=
  match parseNum s with
  | Some n => n
  | None => 0
  end.

(** The body of [rawBricks.forEach]: file the voxel under its
    layer-and-color key. *)
Definition groupVoxel (m : StrMap) (b : RawBrick) : StrMap :=
  let key := groupKey (ry b) (rcolor b) in
  let m1 := if mhas m key then m else mset m key [] in
  madd m1 key (coordKey (rx b) (rz b)).

Definition bricksByLayerColor (rawBricks : list RawBrick) : StrMap :=
  fold_left groupVoxel rawBricks [].

(** [BRICK_TYPES.filter(t => !t.specialType).sort(...)], by descending
    area. *)
Definition standardTypes : list BrickType :=
  sort (fun a b => tSizeX b * tSizeZ b - tSizeX a * tSizeZ a)
       (filter (fun t => match tSpecialType t with
                         | None => true
                         | Some _ => false
                         end) BRICK_TYPES).

(** The two nested [for] loops that test a [w] by [d] rectangle at
    [(x, z)]: every cell is in the group and not yet processed. *)
Definition fits (coordsSet processed : StrSet) (x z w d : Z) : bool :=
  forallb (fun i =>
    forallb (fun j =>
      has coordsSet (coordKey (x + i) (z + j))
      && negb (has processed (coordKey (x + i) (z + j))))
    (upto d))
  (upto w).

(** The [for (const brickType of standardTypes)] loop with its two
    [break]s: the first type that fits, and in which orientation. *)
Fixpoint bestFit (coordsSet processed : StrSet) (x z : Z)
         (types : list BrickType) : option (BrickType * bool) :=
  match types with
  | [] => None
  | t :: rest =>
      if fits coordsSet processed x z (tSizeX t) (tSizeZ t)
      then Some (t, false)
      else if negb (tSizeX t =? tSizeZ t)
              && fits coordsSet processed x z (tSizeZ t) (tSizeX t)
      then Some (t, true)
      else bestFit coordsSet processed x z rest
  end.

(** The loops that mark a [w] by [d] rectangle as processed. *)
Definition mark (processed : StrSet) (x z w d : Z) : StrSet :=
  fold_left (fun p i =>
    fold_left (fun p' j => add p' (coordKey (x + i) (z + j))) (upto d) p)
  (upto w) processed.

Section WithIds.

(** [uuid] is the id oracle and [first] the number of ids drawn before
    the packer runs; it draws one id per brick it pushes. *)
Variable uuid : nat -> string.
Variable first : nat.

(** The body of [coords.forEach], on the state [(processed, optimized)]. *)
Definition place (y : Z) (color : string) (coordsSet : StrSet)
           (st : StrSet * list BrickData) (c : Z * Z)
  : StrSet * list BrickData :=
  let '(processed, optimized) := st in
  let '(x, z) := c in
  if has processed (coordKey x z) then st
  else
    let fresh := uuid (first + length optimized) in
    match bestFit coordsSet processed x z standardTypes with
    | Some (t, rotated) =>
        let width := if rotated then tSizeZ t else tSizeX t in
        let depth := if rotated then tSizeX t else tSizeZ t in
        (mark processed x z width depth,
         optimized ++
           [mkBrick fresh x y z color (Some width) (Some depth)
                    (Some (if rotated then 90 else 0))
                    None None None None])
    | None =>
        if has processed (coordKey x z) then st
        else (add processed (coordKey x z),
              optimized ++
                [mkBrick fresh x y z color (Some 1) (Some 1)
                         None None None None None])
    end.

(** [Array.from(coordsSet).map(c => c.split(',').map(Number))]. *)
Definition parseCoord (c : string) : Z * Z :=
  let parts := split c in
  (toNum (nth 0 parts ""%string), toNum (nth 1 parts ""%string)).

(** The comparator of the coordinate sort: ascending [z], then [x]. *)
Definition cmpCoord (a b : Z * Z) : Z :=
  if negb (snd a =? snd b) then snd a - snd b else fst a - fst b.

(** The body of [bricksByLayerColor.forEach], on [optimized]. *)
Definition packGroup (optimized : list BrickData) (e : string * StrSet)
  : list BrickData :=
  let '(key, coordsSet) := e in
  let parts := split key in
  let yStr := nth 0 parts ""%string in
  let color := nth 1 parts ""%string in
  let y := toNum yStr in
  let coords := sort cmpCoord (map parseCoord coordsSet) in
  snd (fold_left (place y color coordsSet) coords ([], optimized)).

Definition optimizeBricks (rawBricks : list RawBrick) : list BrickData :=
  fold_left packGroup (bricksByLayerColor rawBricks) [].

End WithIds.

End Packer.

(* ===================================================================== *)
(** * The application ([App.tsx]) *)
(* ===================================================================== *)

Inductive ToolMode := VIEW | BUILD | DELETE | MOVE.

Record LiftedGroup := mkGroup {
  members : list BrickData;
  anchorId : string
}.

Module App.

Import JS.

(** The React state of [App] that the layout engine reads and writes,
    with [uuidCalls], the number of ids drawn from [uuidv4] so far. *)
Record State := mkState {
  bricks : Board;
  history : list Board;
  currentHistoryIndex : nat;
  toolMode : ToolMode;
  selectedColor : string;
  selectedBrickType : BrickType;
  rotated : bool;
  liftedGroup : option LiftedGroup;
  uuidCalls : nat
}.

Definition init : State :=
  mkState [] [[]] 0 VIEW RED
          (nth 0 BRICK_TYPES (mkType "1x1" 1 1 None))
          false None 0.

Definition setBoard (s : State) (b : Board) (h : list Board) (i : nat)
  : State :=
  mkState b h i (toolMode s) (selectedColor s) (selectedBrickType s)
          (rotated s) (liftedGroup s) (uuidCalls s).

Definition setLiftedGroup (s : State) (g : option LiftedGroup) : State :=
  mkState (bricks s) (history s) (currentHistoryIndex s) (toolMode s)
          (selectedColor s) (selectedBrickType s) (rotated s) g
          (uuidCalls s).

Definition setRotated (s : State) (r : bool) : State :=
  mkState (bricks s) (history s) (currentHistoryIndex s) (toolMode s)
          (selectedColor s) (selectedBrickType s) r (liftedGroup s)
          (uuidCalls s).

Definition setToolMode (s : State) (m : ToolMode) : State :=
  mkState (bricks s) (history s) (currentHistoryIndex s) m
          (selectedColor s) (selectedBrickType s) (rotated s)
          (liftedGroup s) (uuidCalls s).

Definition setSelectedColor (s : State) (c : string) : State :=
  mkState (bricks s) (history s) (currentHistoryIndex s) (toolMode s)
          c (selectedBrickType s) (rotated s) (liftedGroup s)
          (uuidCalls s).

Definition setSelectedBrickType (s : State) (t : BrickType) : State :=
  mkState (bricks s) (history s) (currentHistoryIndex s) (toolMode s)
          (selectedColor s) t (rotated s) (liftedGroup s) (uuidCalls s).

Definition drawIds (s : State) (n : nat) : State :=
  mkState (bricks s) (history s) (currentHistoryIndex s) (toolMode s)
          (selectedColor s) (selectedBrickType s) (rotated s)
          (liftedGroup s) (uuidCalls s + n).

(** ** History logic *)

(** [saveToHistory] as closed over the index [captured]: the slice uses
    the captured index, the increment the current one. *)
Definition saveToHistoryFrom (captured : nat) (s : State)
           (newBricks : Board) : State :=
  setBoard s newBricks
           (firstn (captured + 1) (history s) ++ [newBricks])
           (currentHistoryIndex s + 1).

Definition saveToHistory (s : State) (newBricks : Board) : State :=
  saveToHistoryFrom (currentHistoryIndex s) s newBricks.

Definition undo (s : State) : State :=
  if (0 <? currentHistoryIndex s)%nat then
    let newIndex := (currentHistoryIndex s - 1)%nat in
    match nth_error (history s) newIndex with
    | Some h => setLiftedGroup (setBoard s h (history s) newIndex) None
    | None => setBoard s (bricks s) (history s) newIndex
    end
  else s.

Definition redo (s : State) : State :=
  if (currentHistoryIndex s <? length (history s) - 1)%nat then
    let newIndex := (currentHistoryIndex s + 1)%nat in
    match nth_error (history s) newIndex with
    | Some h => setLiftedGroup (setBoard s h (history s) newIndex) None
    | None => setBoard s (bricks s) (history s) newIndex
    end
  else s.

(** ** Connectivity: the upward-support traversal *)

Definition isOverlapping (b1 b2 : BrickData) : bool :=
  let b1W := orElse (sizeX b1) 1 in
  let b1D := orElse (sizeZ b1) 1 in
  let b2W := orElse (sizeX b2) 1 in
  let b2D := orElse (sizeZ b2) 1 in
  let xOverlap := Z.max (x b1) (x b2) <? Z.min (x b1 + b1W) (x b2 + b2W) in
  let zOverlap := Z.max (z b1) (z b2) <? Z.min (z b1 + b1D) (z b2 + b2D) in
  xOverlap && zOverlap.

(** The bricks immediately on top of [current] not yet collected. *)
Definition supported (allBricks : Board) (resultIds : StrSet)
           (current : BrickData) : list BrickData :=
  filter (fun b => negb (has resultIds (id b))
                   && (y b =? y current + 1)
                   && isOverlapping current b) allBricks.

(** The [while (queue.length > 0)] loop; [fuel] bounds its iterations,
    [None] is a loop that has not finished within the bound. *)
Fixpoint traverse (fuel : nat) (allBricks : Board)
         (queue : list BrickData) (resultIds : StrSet)
  : option StrSet :=
  match queue with
  | [] => Some resultIds
  | current :: rest =>
      match fuel with
      | O => None
      | S fuel' =>
          let sup := supported allBricks resultIds current in
          traverse fuel' allBricks (rest ++ sup)
                   (fold_left (fun r b => add r (id b)) sup resultIds)
      end
  end.

Definition getLiftableBricks (startBrickId : string) (allBricks : Board)
  : option (list string) :=
  match find (fun b => String.eqb (id b) startBrickId) allBricks with
  | None => Some []
  | Some startBrick =>
      traverse (S (length allBricks)) allBricks [startBrick] [startBrickId]
  end.

(** ** Rotating the held group *)

Definition rotateBrick (b : BrickData) : BrickData :=
  mkBrick (id b) (x b) (y b) (z b) (color b)
          (sizeZ b) (sizeX b)
          (Some (match rotation b with
                 | Some 0 => 90
                 | _ => 0
                 end))
          (specialType b)
          (offsetZ b)
          (offsetY b)
          (option_map (fun ox => - ox - orElse (sizeX b) 1) (offsetX b)).

Definition rotateLiftedGroup (s : State) : State :=
  match liftedGroup s with
  | None => setRotated s (negb (rotated s))
  | Some prev =>
      setLiftedGroup s
        (Some (mkGroup (map rotateBrick (members prev)) (anchorId prev)))
  end.

(** ** Placement, lifting and dropping *)

Section WithIds.

Variable uuid : nat -> string.

Definition addBrick (s : State) (x y z : Z) : State :=
  let t := selectedBrickType s in
  let sizeX := if rotated s then tSizeZ t else tSizeX t in
  let sizeZ := if rotated s then tSizeX t else tSizeZ t in
  let newBrick :=
    mkBrick (uuid (uuidCalls s)) x y z (selectedColor s)
            (Some sizeX) (Some sizeZ)
            (Some (if rotated s then 90 else 0))
            (tSpecialType t) None None None in
  saveToHistory (drawIds s 1) (bricks s ++ [newBrick]).

Definition withOffsets (anchorBrick b : BrickData) : BrickData :=
  mkBrick (id b) (x b) (y b) (z b) (color b) (sizeX b) (sizeZ b)
          (rotation b) (specialType b)
          (Some (x b - x anchorBrick))
          (Some (y b - y anchorBrick))
          (Some (z b - z anchorBrick)).

Definition includes (ids : list string) (i : string) : bool :=
  existsb (String.eqb i) ids.

(** A traversal that has not finished (see [traverse]) leaves the
    state as it is. *)
Definition handleLiftBrick (s : State) (brickId : string) : State :=
  match getLiftableBricks brickId (bricks s) with
  | None => s
  | Some liftableIds =>
      let group := filter (fun b => includes liftableIds (id b)) (bricks s) in
      match find (fun b => String.eqb (id b) brickId) group with
      | None => s
      | Some anchorBrick =>
          let groupWithOffsets := map (withOffsets anchorBrick) group in
          let remainingBricks :=
            filter (fun b => negb (includes liftableIds (id b))) (bricks s) in
          setLiftedGroup (saveToHistory s remainingBricks)
                         (Some (mkGroup groupWithOffsets brickId))
      end
  end.

Definition proposed (anchorX anchorY anchorZ : Z) (b : BrickData)
  : BrickData :=
  mkBrick (id b)
          (anchorX + orElse (offsetX b) 0)
          (anchorY + orElse (offsetY b) 0)
          (anchorZ + orElse (offsetZ b) 0)
          (color b) (sizeX b) (sizeZ b) (rotation b) (specialType b)
          None None None.

Definition collides (pb eb : BrickData) : bool :=
  let xOverlap :=
    Z.max (x pb) (x eb)
    <? Z.min (x pb + orElse (sizeX pb) 1) (x eb + orElse (sizeX eb) 1) in
  let zOverlap :=
    Z.max (z pb) (z eb)
    <? Z.min (z pb + orElse (sizeZ pb) 1) (z eb + orElse (sizeZ eb) 1) in
  let yOverlap := y pb =? y eb in
  xOverlap && zOverlap && yOverlap.

Definition hasCollision (proposedBricks existing : list BrickData) : bool :=
  existsb (fun pb => existsb (fun eb => collides pb eb) existing)
          proposedBricks.

Definition handleDropGroup (s : State) (anchorX anchorY anchorZ : Z)
  : State :=
  match liftedGroup s with
  | None => s
  | Some g =>
      let proposedBricks :=
        map (proposed anchorX anchorY anchorZ) (members g) in
      if negb (hasCollision proposedBricks (bricks s))
      then setLiftedGroup
             (saveToHistory s (bricks s ++ proposedBricks)) None
      else s
  end.

Definition removeBrick (s : State) (i : string) : State :=
  saveToHistory s (filter (fun b => negb (String.eqb (id b) i)) (bricks s)).

Definition clearBricks (s : State) : State :=
  setLiftedGroup (saveToHistory s []) None.

(** ** Generation.  [handleGenerate] is asynchronous: it clears the held
    group and suspends; when the service answers it packs the voxels
    and commits them through the [saveToHistory] it captured when it
    started, hence with the index of that render. *)
Definition generateStart (s : State) : State :=
  setLiftedGroup (setToolMode s VIEW) None.

Definition generateDone (captured : nat) (s : State)
           (result : list RawBrick) : State :=
  let rawBricks :=
    map (fun b => mkRaw (rx b) (ry b) (rz b)
                        (if String.eqb (rcolor b) "" then RED
                         else rcolor b)) result in
  let optimizedBricks :=
    sort (fun a b => y a - y b)
         (Packer.optimizeBricks uuid (uuidCalls s) rawBricks) in
  saveToHistoryFrom captured (drawIds s (length optimizedBricks))
                    optimizedBricks.

End WithIds.

End App.

(* ===================================================================== *)
(** * Pointer handlers ([components/Scene.tsx]) *)
(* ===================================================================== *)

Module Scene.

(** What a pointer event on a brick carries, after the rounding the
    handlers apply: [Math.round(e.point.x)], [Math.round(e.point.z)] and,
    when the face is known, whether [normal.y > 0.5] and the rounded
    components of the normal. *)
Record Normal := mkNormal {
  up : bool;
  nx : Z;
  ny : Z;
  nz : Z
}.

Record BrickEvent := mkEvent {
  pointX : Z;
  pointZ : Z;
  face : option Normal
}.

(** The props handed down by [App] and the hover position. *)
Record State := mkState {
  app : App.State;
  hoverPos : option (Z * Z * Z)
}.

Definition init : State := mkState App.init None.

Definition isBuildOrMove (m : ToolMode) : bool :=
  match m with
  | BUILD | MOVE => true
  | _ => false
  end.

(** [handlePointerMove(point)] from the ground plane, on the snapped
    coordinates [x = Math.round(point.x)], [z = Math.round(point.z)];
    [existingY] has its default [0]. *)
Definition handlePointerMove (s : State) (x z : Z) : State :=
  if negb (isBuildOrMove (App.toolMode (app s))) then mkState (app s) None
  else if (x <? - MAX_BOARD_SIZE / 2) || (x >? MAX_BOARD_SIZE / 2)
          || (z <? - MAX_BOARD_SIZE / 2) || (z >? MAX_BOARD_SIZE / 2)
  then mkState (app s) None
  else mkState (app s) (Some (x, 0, z)).

Section WithIds.

Variable uuid : nat -> string.

(** The target cell of a click or hover on a face of [brick]. *)
Definition target (e : BrickEvent) (n : Normal) (brick : BrickData)
  : Z * Z * Z :=
  if up n then (pointX e, y brick + 1, pointZ e)
  else (pointX e + nx n, y brick + ny n, pointZ e + nz n).

(** [handleClick], the click on the ground plane. *)
Definition handleClick (s : State) : State :=
  match App.toolMode (app s), hoverPos s with
  | BUILD, Some (hx, hy, hz) =>
      mkState (App.addBrick uuid (app s) hx hy hz) (hoverPos s)
  | MOVE, Some (hx, hy, hz) =>
      match App.liftedGroup (app s) with
      | Some _ => mkState (App.handleDropGroup (app s) hx hy hz) (hoverPos s)
      | None => s
      end
  | _, _ => s
  end.

Definition onBrickClick (s : State) (e : BrickEvent) (brick : BrickData)
  : State :=
  match App.toolMode (app s) with
  | DELETE => mkState (App.removeBrick (app s) (id brick)) (hoverPos s)
  | MOVE =>
      match App.liftedGroup (app s) with
      | None => mkState (App.handleLiftBrick (app s) (id brick)) (hoverPos s)
      | Some _ =>
          match face e with
          | Some n =>
              let '(tx, ty, tz) := target e n brick in
              mkState (App.handleDropGroup (app s) tx ty tz) (hoverPos s)
          | None => s
          end
      end
  | BUILD =>
      match face e with
      | Some n =>
          let '(tx, ty, tz) := target e n brick in
          mkState (App.addBrick uuid (app s) tx ty tz) (hoverPos s)
      | None => s
      end
  | VIEW => s
  end.

Definition onBrickHover (s : State) (e : BrickEvent) (brick : BrickData)
  : State :=
  match App.toolMode (app s), App.liftedGroup (app s), face e with
  | MOVE, Some _, Some n => mkState (app s) (Some (target e n brick))
  | MOVE, Some _, None => s
  | BUILD, _, Some n => mkState (app s) (Some (target e n brick))
  | _, _, _ => s
  end.

End WithIds.

End Scene.


(* ===================================================================== *)
(** * The application as a state machine *)
(* ===================================================================== *)

(** What can happen to [App]: a call of one of its handlers, or a state
    setter called by the controls.  [GenerateDone] is the completion of a
    [handleGenerate] that was started when the history index was
    [captured]. *)
Inductive Event :=
| AddBrick (x y z : Z)
| LiftBrick (brickId : string)
| DropGroup (anchorX anchorY anchorZ : Z)
| Rotate
| RemoveBrick (brickId : string)
| ClearBricks
| Undo
| Redo
| GenerateStart
| GenerateDone (captured : nat) (result : list RawBrick)
| SetToolMode (m : ToolMode)
| SetSelectedColor (c : string)
| SetSelectedBrickType (t : BrickType).

Section Machine.

Variable uuid : nat -> string.

Definition step (s : App.State) (e : Event) : App.State :=
  match e with
  | AddBrick x y z => App.addBrick uuid s x y z
  | LiftBrick i => App.handleLiftBrick s i
  | DropGroup ax ay az => App.handleDropGroup s ax ay az
  | Rotate => App.rotateLiftedGroup s
  | RemoveBrick i => App.removeBrick s i
  | ClearBricks => App.clearBricks s
  | Undo => App.undo s
  | Redo => App.redo s
  | GenerateStart => App.generateStart s
  | GenerateDone captured result => App.generateDone uuid captured s result
  | SetToolMode m => App.setToolMode s m
  | SetSelectedColor c => App.setSelectedColor s c
  | SetSelectedBrickType t => App.setSelectedBrickType s t
  end.

(** The state after a sequence of events, oldest first. *)
Definition run (es : list Event) : App.State :=
  fold_left step es App.init.

(** How many times the held group has been rotated since it was lifted:
    a lift of a brick of the board starts a new count. *)
Definition turns (s : App.State) (k : nat) (e : Event) : nat :=
  match e with
  | Rotate => S k
  | LiftBrick i => if JS.has (map id (App.bricks s)) i then O else k
  | _ => k
  end.

Definition track (sk : App.State * nat) (e : Event) : App.State * nat :=
  (step (fst sk) e, turns (fst sk) (snd sk) e).

Definition runTracked (es : list Event) : App.State * nat :=
  fold_left track es (App.init, O).

End Machine.

(* ===================================================================== *)
(** * Full-adjacency traversal (an earlier revision of [App.tsx]) *)
(* ===================================================================== *)

Module Adjacency.

Import JS.





End Adjacency.

(* ===================================================================== *)
(** * Vocabulary of the specification *)
(* ===================================================================== *)

(** The footprint of a brick: the cells [[x, x+sizeX) x [z, z+sizeZ)], a
    missing size counting as [1]. *)
Definition footprint (b : BrickData) (cx cz : Z) : Prop :=
  x b <= cx < x b + JS.orElse (sizeX b) 1
  /\ z b <= cz < z b + JS.orElse (sizeZ b) 1.

(** [overlapsXZ]: the two footprints share a cell. *)
Definition overlapsXZ (a b : BrickData) : Prop :=
  exists cx cz, footprint a cx cz /\ footprint b cx cz.

(** [b] rests on [a]: exactly one layer up, footprints overlapping. *)
Definition restsOn (a b : BrickData) : Prop :=
  y b = y a + 1 /\ overlapsXZ a b.

(** The bricks collected from [start]: [start] itself, and every brick
    of the board resting on a collected brick. *)
Inductive collected (board : Board) (start : BrickData) : BrickData -> Prop :=
| collected_start : collected board start start
| collected_step (a b : BrickData) :
    collected board start a -> In b board -> restsOn a b ->
    collected board start b.

(** Two bricks collide: same layer, overlapping footprints. *)
Definition collide (a b : BrickData) : Prop :=
  y a = y b /\ overlapsXZ a b.

(** A brick of the committed board: it carries no offsets. *)
Definition placed (b : BrickData) : Prop :=
  offsetX b = None /\ offsetY b = None /\ offsetZ b = None.

(** Bricks of the board whose id is not yet collected. *)
Definition unvisited (board : Board) (r : JS.StrSet) : nat :=
  length (filter (fun b => negb (JS.has r (id b))) board).

(** The loop invariant of the traversal from [start]: [q] is the queue and
    [r] the ids collected so far. *)
Record inv (board : Board) (start : BrickData)
       (q : list BrickData) (r : JS.StrSet) : Prop := {
  inv_sound : forall i, In i r ->
      exists b, In b board /\ id b = i /\ collected board start b;
  inv_queue : forall b, In b q ->
      collected board start b /\ In (id b) r;
  inv_start : In (id start) r;
  inv_closed : forall a b,
      In a board -> In (id a) r -> ~ In a q ->
      In b board -> restsOn a b -> In (id b) r;
  inv_nodup : NoDup r
}.

(** A string without a comma. *)
Fixpoint noComma (s : string) : bool :=
  match s with
  | EmptyString => true
  | String c r => negb (Ascii.eqb c ",") && noComma r
  end.

(** A brick up to its id. *)
Definition eraseId (b : BrickData) : BrickData :=
  mkBrick "" (x b) (y b) (z b) (color b) (sizeX b) (sizeZ b) (rotation b)
          (specialType b) (offsetX b) (offsetY b) (offsetZ b).

(** The brick covers the cell [(cx, cz)] of layer [cy] with color [col]. *)
Definition covers (cx cy cz : Z) (col : string) (b : BrickData) : bool :=
  (y b =? cy) && String.eqb (color b) col
  && (x b <=? cx) && (cx <? x b + JS.orElse (sizeX b) 1)
  && (z b <=? cz) && (cz <? z b + JS.orElse (sizeZ b) 1).

(** How many bricks of [bs] cover the cell. *)
Definition coverCount (bs : list BrickData) (cx cy cz : Z) (col : string)
  : nat :=
  length (filter (covers cx cy cz col) bs).

(** The cell is one of the input voxels. *)
Definition isVoxel (raw : list RawBrick) (cx cy cz : Z) (col : string)
  : bool :=
  existsb (fun v => (rx v =? cx) && (ry v =? cy) && (rz v =? cz)
                    && String.eqb (rcolor v) col) raw.

(** A key lies in the [w] by [d] rectangle of cells at [(cx, cz)]. *)
Definition inRect (cx cz w d : Z) (k : string) : Prop :=
  exists i j, 0 <= i < w /\ 0 <= j < d
              /\ k = Packer.coordKey (cx + i) (cz + j).


(** [1] for [true], [0] for [false]. *)
Definition ind (b : bool) : nat := if b then 1%nat else 0%nat.

(** The cell [(qx, qz)] of layer [qy] and color [qc] belongs to the group
    of layer [cy] and color [col] and its key is in the set [p]. *)
Definition inGroup (cy : Z) (col : string) (p : JS.StrSet)
           (qx qy qz : Z) (qc : string) : bool :=
  (cy =? qy) && String.eqb col qc && JS.has p (Packer.coordKey qx qz).

(** The map [m] files the coordinate key [c] under the group key [k]. *)
Definition holds (m : JS.StrMap) (k c : string) : Prop :=
  exists cs, In (k, cs) m /\ In c cs.

Definition holdsb (m : JS.StrMap) (k c : string) : bool :=
  existsb (fun e => String.eqb (fst e) k && JS.has (snd e) c) m.

(** The entries of a map the packer builds: distinct keys, and sets
    without repeats. *)
Definition wfMap (m : JS.StrMap) : Prop :=
  NoDup (map fst m) /\ forall k cs, In (k, cs) m -> NoDup cs.

(** The order the coordinate sort puts cells in: by [z], then by [x]. *)
Definition cellLe (a b : Z * Z) : Prop :=
  snd a < snd b \/ (snd a = snd b /\ fst a <= fst b).

(** A coordinate key the packer printed. *)
Definition isCoordKey (c : string) : Prop :=
  exists cx cz, c = Packer.coordKey cx cz.

(** A group key whose color reads back whole: the color has no comma. *)
Definition plainKey (k : string) : Prop :=
  exists cy col, k = Packer.groupKey cy col /\ noComma col = true.

(** The bricks a group contributes, up to their ids: what the packer
    pushes for the entry when it starts from nothing. *)
Definition groupShapes (e : string * JS.StrSet) : list BrickData :=
  map eraseId (Packer.packGroup (fun _ => ""%string) 0 [] e).

(** The set stored under a key, or the empty set. *)
Definition lookup (m : JS.StrMap) (k : string) : JS.StrSet :=
  match find (fun e => String.eqb (fst e) k) m with
  | Some e => snd e
  | None => []
  end.

(** The members of the held group, if any. *)
Definition held (s : App.State) : list BrickData :=
  match App.liftedGroup s with
  | Some g => members g
  | None => []
  end.

(** An id drawn among the first [n] calls of the oracle. *)
Definition issued (uuid : nat -> string) (n : nat) (i : string) : Prop :=
  exists j, (j < n)%nat /\ i = uuid j.

(** A list of bricks with distinct ids, all of them drawn already. *)
Definition boardOK (uuid : nat -> string) (n : nat) (b : Board) : Prop :=
  NoDup (map id b) /\ forall i, In i (map id b) -> issued uuid n i.

(** The shape of a held group after [k] rotations: the anchor is a
    member; a member with the anchor's id sits at height offset [0], and at
    offset [(0, 0, 0)] while the group is unrotated; every other member
    sits higher. *)
Definition groupShape (g : LiftedGroup) (k : nat) : Prop :=
  (exists a, In a (members g) /\ id a = anchorId g)
  /\ forall m, In m (members g) ->
       (id m = anchorId g ->
        offsetY m = Some 0
        /\ (k = O -> offsetX m = Some 0 /\ offsetZ m = Some 0))
       /\ (id m <> anchorId g ->
           exists oy, offsetY m = Some oy /\ 0 < oy).

(** The invariant of the state machine. *)
Record machineInv (uuid : nat -> string) (s : App.State) (k : nat)
  : Prop := {
  mi_ids : boardOK uuid (App.uuidCalls s) (App.bricks s ++ held s);
  mi_history : Forall (boardOK uuid (App.uuidCalls s)) (App.history s);
  mi_placed : Forall placed (App.bricks s);
  mi_history_placed : Forall (Forall placed) (App.history s);
  mi_shape : forall g, App.liftedGroup s = Some g -> groupShape g k
}.

(** The history state inside the state of [App]. *)
Definition historyOf (s : App.State) : UseHistory.State :=
  UseHistory.mkState (App.bricks s) (App.history s)
                     (App.currentHistoryIndex s).


(* ===================================================================== *)
(** * Further vocabulary *)
(* ===================================================================== *)

(** The operations of the history hook, and a run of them.  A commit
    comes with the index its closure captured. *)
Inductive HistoryOp :=
| Commit (captured : nat) (b : Board)
| UndoOp
| RedoOp.

Definition applyOp (s : UseHistory.State) (o : HistoryOp) : UseHistory.State :=
  match o with
  | Commit captured b => UseHistory.saveToHistory captured s b
  | UndoOp => UseHistory.undo s
  | RedoOp => UseHistory.redo s
  end.

Definition runOps (ops : list HistoryOp) (s : UseHistory.State)
  : UseHistory.State :=
  fold_left applyOp ops s.

(** The operation is not a commit by the closure of another render than
    the current one. *)
Definition timelyOp (s : UseHistory.State) (o : HistoryOp) : Prop :=
  match o with
  | Commit captured _ => captured = UseHistory.currentHistoryIndex s
  | _ => True
  end.

(** Every operation of the run is timely in the state it happens in. *)
Fixpoint timelyOps (s : UseHistory.State) (ops : list HistoryOp) : Prop :=
  match ops with
  | [] => True
  | o :: rest => timelyOp s o /\ timelyOps (applyOp s o) rest
  end.







(** Bricks in layers from the bottom up. *)
Definition byLayer (a b : BrickData) : Prop := y a <= y b.

(** The number of coordinate keys a map holds. *)
Definition keyCount (m : JS.StrMap) : nat :=
  fold_right (fun e n => (length (snd e) + n)%nat) O m.

(** An undo from [t] gives back the board and the index of [s], with no
    group held. *)
Definition undoGives (s t : App.State) : Prop :=
  App.bricks (App.undo t) = App.bricks s
  /\ App.currentHistoryIndex (App.undo t) = App.currentHistoryIndex s
  /\ App.liftedGroup (App.undo t) = None.



(** A brick of the packer's catalog: a type of [BRICK_TYPES] that is not
    special, as listed ([turned = false], rotation 0) or turned by a
    quarter ([turned = true], rotation 90, sizes swapped), with no
    offsets. *)
Definition catalogBrick (b : BrickData) : Prop :=
  exists (t : BrickType) (turned : bool),
    In t BRICK_TYPES /\ tSpecialType t = None
    /\ (turned = true -> tSizeX t <> tSizeZ t)
    /\ sizeX b = Some (if turned then tSizeZ t else tSizeX t)
    /\ sizeZ b = Some (if turned then tSizeX t else tSizeZ t)
    /\ rotation b = Some (if turned then 90 else 0)
    /\ specialType b = None
    /\ placed b.

(** The voxel with the default color put in for an empty one. *)
Definition defaultColor (b : RawBrick) : RawBrick :=
  mkRaw (rx b) (ry b) (rz b)
        (if String.eqb (rcolor b) "" then RED else rcolor b).

(** The event is not a generation that completes with the history index
    of another render than the current one. *)
Definition timely (s : App.State) (e : Event) : Prop :=
  match e with
  | GenerateDone captured _ => captured = App.currentHistoryIndex s
  | _ => True
  end.

(** Every event of the sequence is timely in the state it happens in. *)
Fixpoint timelyFrom (uuid : nat -> string) (s : App.State)
         (es : list Event) : Prop :=
  match es with
  | [] => True
  | e :: rest => timely s e /\ timelyFrom uuid (step uuid s e) rest
  end.

(** The cell is on the board: both coordinates within half the board
    size of the origin. *)
Definition onBoard (cx cz : Z) : Prop :=
  - MAX_BOARD_SIZE / 2 <= cx <= MAX_BOARD_SIZE / 2
  /\ - MAX_BOARD_SIZE / 2 <= cz <= MAX_BOARD_SIZE / 2.

(** The coordinates on which the embedding of the packer is exact.  The
    code's numbers are doubles: an integer up to [2^53] in magnitude is
    represented exactly, printed by a template literal in plain decimal
    and read back by [Number] and [parseInt] as itself, and sums and
    differences of such integers within that range are exact.  With
    coordinates up to [2^52] in magnitude every number the packer forms,
    a coordinate plus an offset below the largest brick size or the
    difference of two coordinates, stays within the range. *)
Definition MAX_COORD : Z := 2 ^ 52.

Definition inRange (v : RawBrick) : Prop :=
  Z.abs (rx v) <= MAX_COORD
  /\ Z.abs (ry v) <= MAX_COORD
  /\ Z.abs (rz v) <= MAX_COORD.

(** The group keys of an input in the order in which they are first met. *)
Definition keyOrder (raw : list RawBrick) : list string :=
  fold_left (fun ks v => JS.add ks (Packer.groupKey (ry v) (rcolor v)))
            raw [].

(** The voxels of an input that are filed under the group key [k], in
    their order. *)
Definition groupOf (k : string) (raw : list RawBrick) : list RawBrick :=
  filter (fun v => String.eqb (Packer.groupKey (ry v) (rcolor v)) k) raw.
(* ===================================================================== *)
(** * Properties of the history hook *)
(* ===================================================================== *)

Section HistoryFacts.

Import UseHistory.

Lemma save_fields (s : State) (b : Board) :
  bricks (commit s b) = b
  /\ history (commit s b)
     = firstn (currentHistoryIndex s + 1) (history s) ++ [b]
  /\ currentHistoryIndex (commit s b)
     = (currentHistoryIndex s + 1)%nat.
Proof. repeat split. Qed.

Lemma save_length (s : State) (b : Board) :
  wf s ->
  length (history (commit s b)) = (currentHistoryIndex s + 2)%nat.
Proof.
  unfold wf. intros Hwf. simpl.
  rewrite length_app, length_firstn. simpl. lia.
Qed.

Lemma save_wf (s : State) (b : Board) :
  wf s -> wf (commit s b).
Proof.
  intros Hwf. unfold wf. rewrite save_length by assumption. simpl. lia.
Qed.

Lemma save_synced (s : State) (b : Board) :
  wf s -> synced (commit s b).
Proof.
  unfold wf, synced. intros Hwf. simpl.
  rewrite nth_error_app2; rewrite length_firstn.
  - replace (currentHistoryIndex s + 1
             - Nat.min (currentHistoryIndex s + 1) (length (history s)))%nat
      with 0%nat by lia.
    reflexivity.
  - lia.
Qed.

Lemma save_last_index (s : State) (b : Board) :
  wf s ->
  S (currentHistoryIndex (commit s b))
  = length (history (commit s b)).
Proof.
  intros Hwf. rewrite save_length by assumption. simpl. lia.
Qed.

(** After a non-empty run of commits the index is the last position, it
    has advanced by the number of commits, and the board is in step. *)
Lemma commits_shape (bs : list Board) :
  forall s, wf s ->
    wf (commits s bs)
    /\ currentHistoryIndex (commits s bs)
       = (currentHistoryIndex s + length bs)%nat
    /\ (bs <> [] ->
        synced (commits s bs)
        /\ S (currentHistoryIndex (commits s bs))
           = length (history (commits s bs))).
Proof.
  induction bs as [|b bs IH]; intros s Hwf.
  - simpl. repeat split; try lia; try assumption; congruence.
  - destruct (IH (commit s b) (save_wf s b Hwf)) as (W & I & L).
    change (commits s (b :: bs)) with (commits (commit s b) bs).
    split; [exact W|]. split.
    + rewrite I. simpl. lia.
    + intros _. destruct bs as [|b' bs'].
      * simpl. split; [apply save_synced | apply save_last_index];
          assumption.
      * apply L. discriminate.
Qed.

Lemma undo_step (s : State) :
  wf s -> (0 < currentHistoryIndex s)%nat ->
  history (undo s) = history s
  /\ currentHistoryIndex (undo s) = (currentHistoryIndex s - 1)%nat
  /\ synced (undo s).
Proof.
  unfold wf, undo, synced. intros Hwf Hpos.
  destruct (Nat.ltb_spec 0 (currentHistoryIndex s)); [|lia].
  destruct (nth_error (history s) (currentHistoryIndex s - 1)) eqn:E.
  - simpl. auto.
  - apply nth_error_None in E. lia.
Qed.

Lemma redo_step (s : State) :
  (S (currentHistoryIndex s) < length (history s))%nat ->
  history (redo s) = history s
  /\ currentHistoryIndex (redo s) = (currentHistoryIndex s + 1)%nat
  /\ synced (redo s).
Proof.
  unfold redo, synced. intros Hlt.
  destruct (Nat.ltb_spec (currentHistoryIndex s) (length (history s) - 1));
    [|lia].
  destruct (nth_error (history s) (currentHistoryIndex s + 1)) eqn:E.
  - simpl. auto.
  - apply nth_error_None in E. lia.
Qed.

Lemma undo_times (n : nat) :
  forall s, wf s -> synced s -> (n <= currentHistoryIndex s)%nat ->
    history (times n undo s) = history s
    /\ currentHistoryIndex (times n undo s)
       = (currentHistoryIndex s - n)%nat
    /\ synced (times n undo s).
Proof.
  induction n as [|n IH]; intros s Hwf Hs Hn; simpl.
  - repeat split; auto. lia.
  - destruct (undo_step s Hwf ltac:(lia)) as (H1 & H2 & H3).
    destruct (IH (undo s)) as (K1 & K2 & K3).
    + unfold wf in *. rewrite H1, H2. lia.
    + exact H3.
    + lia.
    + rewrite K1, K2, H1, H2. repeat split; auto. lia.
Qed.

Lemma redo_times (n : nat) :
  forall s, synced s ->
    (currentHistoryIndex s + n < length (history s))%nat ->
    history (times n redo s) = history s
    /\ currentHistoryIndex (times n redo s)
       = (currentHistoryIndex s + n)%nat
    /\ synced (times n redo s).
Proof.
  induction n as [|n IH]; intros s Hs Hn; simpl.
  - repeat split; auto.
  - destruct (redo_step s ltac:(lia)) as (H1 & H2 & H3).
    destruct (IH (redo s)) as (K1 & K2 & K3).
    + exact H3.
    + rewrite H1, H2. lia.
    + rewrite K1, K2, H1, H2. repeat split; auto. lia.
Qed.

Lemma synced_eq (s t : State) :
  synced s -> synced t ->
  history s = history t ->
  currentHistoryIndex s = currentHistoryIndex t ->
  s = t.
Proof.
  destruct s as [b h i], t as [b' h' i']. unfold synced. simpl.
  intros Hs Ht -> ->. rewrite Hs in Ht. congruence.
Qed.

Lemma redo_after_save (s : State) (b : Board) :
  redo (commit s b) = commit s b.
Proof.
  unfold redo.
  destruct (Nat.ltb_spec (currentHistoryIndex (commit s b))
              (length (history (commit s b)) - 1)) as [H|H];
    [|reflexivity].
  exfalso. simpl in H. rewrite length_app, length_firstn in H.
  simpl in H. lia.
Qed.

Lemma times_fixpoint (f : State -> State) (s : State) (m : nat) :
  f s = s -> times m f s = s.
Proof.
  intros Hf. induction m as [|m IH]; simpl; [reflexivity|].
  rewrite Hf. exact IH.
Qed.

End HistoryFacts.

(** [App.tsx] carries its own copy of the history logic; on the board,
    the history and the index it does what the hook does. *)
Lemma app_saveToHistory_agrees (s : App.State) (b : Board) :
  historyOf (App.saveToHistory s b)
  = UseHistory.commit (historyOf s) b.
Proof. reflexivity. Qed.

Lemma app_undo_agrees (s : App.State) :
  historyOf (App.undo s) = UseHistory.undo (historyOf s).
Proof.
  unfold App.undo, UseHistory.undo, historyOf. simpl.
  destruct (0 <? App.currentHistoryIndex s)%nat; [|reflexivity].
  destruct (nth_error (App.history s) (App.currentHistoryIndex s - 1));
    reflexivity.
Qed.

Lemma app_redo_agrees (s : App.State) :
  historyOf (App.redo s) = UseHistory.redo (historyOf s).
Proof.
  unfold App.redo, UseHistory.redo, historyOf. simpl.
  destruct (App.currentHistoryIndex s <? length (App.history s) - 1)%nat;
    [|reflexivity].
  destruct (nth_error (App.history s) (App.currentHistoryIndex s + 1));
    reflexivity.
Qed.

(** From a state whose index is within bounds the round trip gives back
    the whole state: history, index and board. *)
Lemma history_round_trip_state (s : UseHistory.State) (bs : list Board)
      (N : nat) :
  UseHistory.wf s ->
  (N <= length bs)%nat ->
  UseHistory.times N UseHistory.redo
    (UseHistory.times N UseHistory.undo (UseHistory.commits s bs))
  = UseHistory.commits s bs.
Proof.
  intros Hwf HN. destruct bs as [|b bs].
  - simpl in HN. assert (N = 0)%nat as -> by lia. reflexivity.
  - set (after := UseHistory.commits s (b :: bs)).
    destruct (commits_shape (b :: bs) s Hwf) as (W & I & L).
    destruct L as (Sy & Last); [discriminate|].
    fold after in W, I, Sy, Last.
    destruct (undo_times N after W Sy) as (U1 & U2 & U3).
    { rewrite I. lia. }
    destruct (redo_times N (UseHistory.times N UseHistory.undo after) U3)
      as (R1 & R2 & R3).
    { rewrite U1, U2. rewrite I in *. lia. }
    apply synced_eq; auto.
    + rewrite R1, U1. reflexivity.
    + rewrite R2, U2. rewrite I. lia.
Qed.

(** ** The round trip from any state *)

(** The board is what the history shows under the index, or [d] when the
    index points past the end. *)
Lemma undo_view (d : Board) (t : UseHistory.State) :
  UseHistory.bricks t
  = nth (UseHistory.currentHistoryIndex t) (UseHistory.history t) d ->
  UseHistory.history (UseHistory.undo t) = UseHistory.history t
  /\ UseHistory.currentHistoryIndex (UseHistory.undo t)
     = (UseHistory.currentHistoryIndex t - 1)%nat
  /\ UseHistory.bricks (UseHistory.undo t)
     = nth (UseHistory.currentHistoryIndex (UseHistory.undo t))
           (UseHistory.history (UseHistory.undo t)) d.
Proof.
  intros Hv. unfold UseHistory.undo.
  destruct (Nat.ltb_spec 0 (UseHistory.currentHistoryIndex t)) as [Hpos | H0].
  - destruct (nth_error (UseHistory.history t)
                        (UseHistory.currentHistoryIndex t - 1)) eqn:E; simpl.
    + repeat split. symmetry. now apply nth_error_nth.
    + repeat split. apply nth_error_None in E.
      rewrite Hv, !nth_overflow by lia. reflexivity.
  - repeat split; [lia|]. exact Hv.
Qed.

Lemma redo_view (d : Board) (t : UseHistory.State) :
  UseHistory.bricks t
  = nth (UseHistory.currentHistoryIndex t) (UseHistory.history t) d ->
  UseHistory.history (UseHistory.redo t) = UseHistory.history t
  /\ UseHistory.currentHistoryIndex (UseHistory.redo t)
     = (if (UseHistory.currentHistoryIndex t
            <? length (UseHistory.history t) - 1)%nat
        then S (UseHistory.currentHistoryIndex t)
        else UseHistory.currentHistoryIndex t)
  /\ UseHistory.bricks (UseHistory.redo t)
     = nth (UseHistory.currentHistoryIndex (UseHistory.redo t))
           (UseHistory.history (UseHistory.redo t)) d.
Proof.
  intros Hv. unfold UseHistory.redo.
  destruct (Nat.ltb_spec (UseHistory.currentHistoryIndex t)
              (length (UseHistory.history t) - 1)) as [Hlt | Hge]; [|auto].
  destruct (nth_error (UseHistory.history t)
                      (UseHistory.currentHistoryIndex t + 1)) eqn:E; simpl.
  - repeat split; [lia|]. symmetry. now apply nth_error_nth.
  - apply nth_error_None in E. lia.
Qed.

Lemma undo_times_view (d : Board) (n : nat) :
  forall t,
    UseHistory.bricks t
    = nth (UseHistory.currentHistoryIndex t) (UseHistory.history t) d ->
    let t' := UseHistory.times n UseHistory.undo t in
    UseHistory.history t' = UseHistory.history t
    /\ UseHistory.currentHistoryIndex t'
       = (UseHistory.currentHistoryIndex t - n)%nat
    /\ UseHistory.bricks t'
       = nth (UseHistory.currentHistoryIndex t') (UseHistory.history t') d.
Proof.
  induction n as [|n IH]; intros t Hv; simpl.
  - repeat split; [lia | exact Hv].
  - destruct (undo_view d t Hv) as (H1 & H2 & H3).
    destruct (IH (UseHistory.undo t) H3) as (K1 & K2 & K3).
    rewrite K1, K2, H1, H2. repeat split; [lia|].
    rewrite K3, K1, K2, H1, H2. reflexivity.
Qed.

Lemma redo_times_view (d : Board) (n : nat) :
  forall t,
    UseHistory.bricks t
    = nth (UseHistory.currentHistoryIndex t) (UseHistory.history t) d ->
    (length (UseHistory.history t) - 1
     <= UseHistory.currentHistoryIndex t + n)%nat ->
    let t' := UseHistory.times n UseHistory.redo t in
    UseHistory.history t' = UseHistory.history t
    /\ (length (UseHistory.history t) - 1
        <= UseHistory.currentHistoryIndex t')%nat
    /\ UseHistory.bricks t'
       = nth (UseHistory.currentHistoryIndex t') (UseHistory.history t') d.
Proof.
  induction n as [|n IH]; intros t Hv Hn; simpl.
  - repeat split; [lia | exact Hv].
  - destruct (redo_view d t Hv) as (H1 & H2 & H3).
    destruct (IH (UseHistory.redo t) H3) as (K1 & K2 & K3).
    + rewrite H1, H2.
      destruct (Nat.ltb_spec (UseHistory.currentHistoryIndex t)
                  (length (UseHistory.history t) - 1)); lia.
    + rewrite H1 in K1, K2. repeat split; auto.
Qed.

(** After a non-empty run of commits, from any state: the board is the
    last snapshot committed, the history ends with it, and the index is at
    least the last position and at least the number of commits. *)
Lemma commits_end (bs : list Board) (b : Board) (s : UseHistory.State) :
  let t := UseHistory.commits s (bs ++ [b]) in
  UseHistory.bricks t = b
  /\ (exists pre, UseHistory.history t = pre ++ [b])
  /\ (length (UseHistory.history t) - 1
      <= UseHistory.currentHistoryIndex t)%nat
  /\ (length (bs ++ [b]) <= UseHistory.currentHistoryIndex t)%nat.
Proof.
  intros t. subst t. unfold UseHistory.commits. rewrite fold_left_app.
  assert (I : forall l u,
    UseHistory.currentHistoryIndex (fold_left UseHistory.commit l u)
    = (UseHistory.currentHistoryIndex u + length l)%nat).
  { induction l as [|c l IH]; intros u; cbn [fold_left length]; [lia|].
    rewrite IH. simpl. lia. }
  cbn [fold_left]. repeat split.
  - simpl. eauto.
  - simpl. rewrite length_app, length_firstn. simpl. lia.
  - simpl. rewrite length_app, I. simpl. lia.
Qed.

(** For commits made by the closure of the render they happen in, the
    round trip holds: from every history state, after every sequence of
    such commits, [N] undos followed by [N] redos, with [N] at most the
    number of commits, leave the live board equal to the board right after
    the commits. *)
Lemma round_trip_of_timely_commits (s : UseHistory.State) (bs : list Board)
      (N : nat) :
  (N <= length bs)%nat ->
  let after := UseHistory.commits s bs in
  let back :=
    UseHistory.times N UseHistory.redo
      (UseHistory.times N UseHistory.undo after) in
  UseHistory.bricks back = UseHistory.bricks after.
Proof.
  intros HN after back. subst back.
  destruct bs as [|c bs0].
  - simpl in HN. assert (N = 0)%nat as -> by lia. reflexivity.
  - destruct (@exists_last _ (c :: bs0)) as (bs' & b & E); [discriminate|].
    subst after. rewrite E in *. clear E c bs0.
    set (after := UseHistory.commits s (bs' ++ [b])).
    destruct (commits_end bs' b s) as (Hb & (pre & Hh) & Hlast & Hk).
    fold after in Hb, Hh, Hlast, Hk.
    assert (Hend : forall i, (length (UseHistory.history after) - 1 <= i)%nat ->
                     nth i (UseHistory.history after) b = b).
    { intros i Hi. rewrite Hh in *. rewrite length_app in Hi. simpl in Hi.
      destruct (Nat.eq_dec i (length pre)) as [-> | Hne].
      - now rewrite nth_middle.
      - apply nth_overflow. rewrite length_app. simpl. lia. }
    assert (Hv : UseHistory.bricks after
                 = nth (UseHistory.currentHistoryIndex after)
                       (UseHistory.history after) b).
    { rewrite Hend by assumption. exact Hb. }
    destruct (undo_times_view b N after Hv) as (U1 & U2 & U3).
    destruct (redo_times_view b N
                (UseHistory.times N UseHistory.undo after) U3)
      as (R1 & R2 & R3).
    { rewrite U1, U2. lia. }
    rewrite R3, R1, U1, Hend, Hb; [reflexivity|].
    rewrite U1 in R2. exact R2.
Qed.

(** A commit by the closure of the current render keeps the history up
    to the current index, appends the new snapshot, advances the index by
    one and makes the snapshot the live board; after any number of undos
    followed by such a commit, every later redo leaves the state as it
    is. *)
Lemma timely_commit_discards_redo_branch :
  (forall (s : UseHistory.State) (b : Board),
      UseHistory.history (UseHistory.commit s b)
      = firstn (UseHistory.currentHistoryIndex s + 1) (UseHistory.history s)
        ++ [b]
      /\ UseHistory.currentHistoryIndex (UseHistory.commit s b)
         = (UseHistory.currentHistoryIndex s + 1)%nat
      /\ UseHistory.bricks (UseHistory.commit s b) = b)
  /\ (forall (s : UseHistory.State) (n m : nat) (b : Board),
         let committed :=
           UseHistory.commit (UseHistory.times n UseHistory.undo s) b in
         UseHistory.times m UseHistory.redo committed = committed
         /\ UseHistory.canRedo committed = false).
Proof.
  split.
  - intros s b. repeat split.
  - intros s n m b committed. split.
    + apply times_fixpoint. apply redo_after_save.
    + unfold UseHistory.canRedo. subst committed.
      apply Nat.ltb_ge. simpl. rewrite length_app, length_firstn.
      simpl. lia.
Qed.

(** C3. The round trip fails for a commit made by the closure of an
    earlier render.  Two snapshots are committed, so the index is [2]; a
    commit is prepared in that render and its closure keeps the index
    [2]; two undos bring the index to [0]; then the prepared commit is
    made.  The history is cut at the captured index [2], not at the
    live index [0], while the index advances from its live value: the
    history holds four snapshots and the index is [1].  The board shows
    the committed snapshot, but one undo followed by one redo shows the
    first snapshot instead. *)
Theorem history_round_trip_fails_on_stale_commit :
  let a := mkBrick "a" 0 0 0 RED (Some 1) (Some 1) (Some 0)
                   None None None None in
  let b := mkBrick "b" 3 0 0 RED (Some 1) (Some 1) (Some 0)
                   None None None None in
  let g := mkBrick "g" 5 0 5 RED (Some 1) (Some 1) (Some 0)
                   None None None None in
  let prepared := UseHistory.commits (UseHistory.init []) [[a]; [a; b]] in
  let s := UseHistory.times 2 UseHistory.undo prepared in
  let after :=
    UseHistory.saveToHistory (UseHistory.currentHistoryIndex prepared) s [g] in
  let back := UseHistory.times 1 UseHistory.redo
                (UseHistory.times 1 UseHistory.undo after) in
  UseHistory.currentHistoryIndex prepared = 2%nat
  /\ s = UseHistory.mkState [] [[]; [a]; [a; b]] 0
  /\ after = UseHistory.mkState [g] [[]; [a]; [a; b]; [g]] 1
  /\ UseHistory.bricks back = [a]
  /\ UseHistory.bricks back <> UseHistory.bricks after.
Proof.
  cbv zeta. repeat split. discriminate.
Qed.

(** C4. A commit made by the closure of an earlier render does not cut
    the history at the current index and does not discard the redo
    branch.  With the snapshots of two commits in the history and the
    index brought back to [0] by two undos, a commit whose closure was
    created at index [2] keeps all three old snapshots before the new
    one and leaves the index at [1]: [canRedo] is true and a redo is no
    no-op, it shows the second of the old snapshots. *)
Theorem stale_commit_keeps_redo_branch :
  let a := mkBrick "a" 0 0 0 RED (Some 1) (Some 1) (Some 0)
                   None None None None in
  let b := mkBrick "b" 3 0 0 RED (Some 1) (Some 1) (Some 0)
                   None None None None in
  let g := mkBrick "g" 5 0 5 RED (Some 1) (Some 1) (Some 0)
                   None None None None in
  let prepared := UseHistory.commits (UseHistory.init []) [[a]; [a; b]] in
  let s := UseHistory.times 2 UseHistory.undo prepared in
  let committed :=
    UseHistory.saveToHistory (UseHistory.currentHistoryIndex prepared) s [g] in
  UseHistory.currentHistoryIndex s = 0%nat
  /\ UseHistory.history committed = [[]; [a]; [a; b]; [g]]
  /\ UseHistory.history committed
     <> firstn (UseHistory.currentHistoryIndex s + 1) (UseHistory.history s)
        ++ [[g]]
  /\ UseHistory.currentHistoryIndex committed = 1%nat
  /\ UseHistory.canRedo committed = true
  /\ UseHistory.redo committed
     = UseHistory.mkState [a; b] [[]; [a]; [a; b]; [g]] 2
  /\ UseHistory.redo committed <> committed.
Proof.
  cbv zeta. repeat split; discriminate.
Qed.

(* ===================================================================== *)
(** * Properties of the connectivity engine *)
(* ===================================================================== *)

Lemma has_In (s : JS.StrSet) (k : string) :
  JS.has s k = true <-> In k s.
Proof.
  unfold JS.has. rewrite existsb_exists. split.
  - intros (k' & Hin & He). apply String.eqb_eq in He. now subst.
  - intros Hin. exists k. split; [assumption | apply String.eqb_refl].
Qed.

Lemma has_false (s : JS.StrSet) (k : string) :
  JS.has s k = false <-> ~ In k s.
Proof.
  rewrite <- has_In. destruct (JS.has s k); split; congruence.
Qed.

Lemma add_In (s : JS.StrSet) (k k' : string) :
  In k' (JS.add s k) <-> In k' s \/ k' = k.
Proof.
  unfold JS.add. destruct (JS.has s k) eqn:E.
  - apply has_In in E. split; [auto | intros [H| ->]; assumption].
  - rewrite in_app_iff. simpl. intuition.
Qed.

Lemma add_NoDup (s : JS.StrSet) (k : string) :
  NoDup s -> NoDup (JS.add s k).
Proof.
  intros Hs. unfold JS.add. destruct (JS.has s k) eqn:E; [assumption|].
  apply has_false in E.
  apply NoDup_app; [assumption | constructor; [intros [] | constructor] |].
  intros a Ha [<- | []]. contradiction.
Qed.

Lemma add_ids_In (bs : list BrickData) :
  forall (r : JS.StrSet) (i : string),
    In i (fold_left (fun r b => JS.add r (id b)) bs r)
    <-> In i r \/ exists b, In b bs /\ id b = i.
Proof.
  induction bs as [|b bs IH]; intros r i; simpl.
  - split; [auto | intros [H | (b & [] & _)]; assumption].
  - rewrite IH, add_In. split.
    + intros [[H | ->] | (b' & Hb' & E)]; eauto.
    + intros [H | (b' & [<- | Hb'] & E)]; eauto.
Qed.

Lemma add_ids_NoDup (bs : list BrickData) :
  forall r : JS.StrSet,
    NoDup r -> NoDup (fold_left (fun r b => JS.add r (id b)) bs r).
Proof.
  induction bs as [|b bs IH]; intros r Hr; simpl; [assumption|].
  apply IH, add_NoDup, Hr.
Qed.

Lemma overlap_1d (a wa b wb : Z) :
  Z.max a b < Z.min (a + wa) (b + wb)
  <-> exists c, a <= c < a + wa /\ b <= c < b + wb.
Proof.
  split.
  - intros H. exists (Z.max a b). lia.
  - intros (c & Ha & Hb). lia.
Qed.

(** The overlap test of the code decides the overlap of the footprints. *)
Lemma isOverlapping_spec (a b : BrickData) :
  App.isOverlapping a b = true <-> overlapsXZ a b.
Proof.
  unfold App.isOverlapping, overlapsXZ, footprint.
  rewrite andb_true_iff, !Z.ltb_lt, !overlap_1d. split.
  - intros ((cx & Hx1 & Hx2) & (cz & Hz1 & Hz2)). exists cx, cz. auto.
  - intros (cx & cz & (Hx1 & Hz1) & (Hx2 & Hz2)). split; eauto.
Qed.

Lemma in_ids_unique (board : Board) (a b : BrickData) :
  NoDup (map id board) -> In a board -> In b board -> id a = id b -> a = b.
Proof.
  induction board as [|c board IH]; simpl; [contradiction|].
  intros Hnd Ha Hb E. inversion Hnd as [|? ? Hc Hnd']; subst.
  destruct Ha as [-> | Ha], Hb as [-> | Hb]; auto.
  - exfalso. apply Hc. rewrite E. now apply in_map.
  - exfalso. apply Hc. rewrite <- E. now apply in_map.
Qed.

Lemma find_id (board : Board) (i : string) :
  In i (map id board) ->
  exists b, find (fun b => String.eqb (id b) i) board = Some b
            /\ In b board /\ id b = i.
Proof.
  intros Hin. destruct (find (fun b => String.eqb (id b) i) board) eqn:E.
  - apply find_some in E. destruct E as (Hb & He).
    apply String.eqb_eq in He. eauto.
  - exfalso. apply in_map_iff in Hin. destruct Hin as (b & <- & Hb).
    apply (find_none _ _ E) in Hb. rewrite String.eqb_refl in Hb.
    discriminate.
Qed.

Section Traversal.

Variable board : Board.
Variable start : BrickData.
Hypothesis ids_unique : NoDup (map id board).
Hypothesis start_on_board : In start board.

Lemma collected_on_board (b : BrickData) :
  collected board start b -> In b board.
Proof. induction 1; assumption. Qed.

Lemma supported_spec (r : JS.StrSet) (c b : BrickData) :
  In b (App.supported board r c)
  <-> In b board /\ ~ In (id b) r /\ restsOn c b.
Proof.
  unfold App.supported, restsOn.
  rewrite filter_In, !andb_true_iff, negb_true_iff, has_false, Z.eqb_eq,
    isOverlapping_spec.
  tauto.
Qed.

Lemma inv_init : inv board start [start] [id start].
Proof.
  constructor.
  - intros i [<- | []]. exists start. auto using collected_start.
  - intros b [<- | []]. split; [apply collected_start | now left].
  - now left.
  - intros a b Ha [E | []] Hq. exfalso. apply Hq. left.
    now apply (in_ids_unique board).
  - constructor; [intros [] | constructor].
Qed.

Lemma inv_step (c : BrickData) (rest : list BrickData) (r : JS.StrSet) :
  inv board start (c :: rest) r ->
  inv board start (rest ++ App.supported board r c)
      (fold_left (fun r b => JS.add r (id b)) (App.supported board r c) r).
Proof.
  intros [Hs Hq H0 Hc Hn].
  destruct (Hq c (or_introl eq_refl)) as (Rc & Ic).
  constructor.
  - intros i Hi. apply add_ids_In in Hi.
    destruct Hi as [Hi | (b & Hb & <-)]; [now apply Hs|].
    apply supported_spec in Hb. destruct Hb as (Hb & _ & Hr).
    exists b. repeat split; auto. now apply collected_step with c.
  - intros b Hb. rewrite add_ids_In. apply in_app_iff in Hb.
    destruct Hb as [Hb | Hb].
    + destruct (Hq b (or_intror Hb)). auto.
    + split; [|eauto].
      apply supported_spec in Hb. destruct Hb as (Hb & _ & Hr).
      now apply collected_step with c.
  - apply add_ids_In. now left.
  - intros a b Ha Hia Hnq Hb Hr. rewrite add_ids_In.
    rewrite in_app_iff in Hnq. apply add_ids_In in Hia.
    destruct Hia as [Hia | (a' & Ha' & E)].
    + destruct (in_dec string_dec (id b) r) as [Hib | Hib]; [now left|].
      assert (Hac : a = c \/ a <> c).
      { destruct (string_dec (id a) (id c)) as [E | E].
        - left. apply (in_ids_unique board); auto.
          now apply collected_on_board.
        - right. congruence. }
      destruct Hac as [-> | Hac].
      * right. exists b. split; [|reflexivity].
        apply supported_spec. auto.
      * left. apply (Hc a b); auto.
        intros [E | Hin]; [congruence | tauto].
    + exfalso. apply Hnq. right.
      assert (a = a') as ->; [|assumption].
      apply (in_ids_unique board); auto.
      apply supported_spec in Ha'. tauto.
  - now apply add_ids_NoDup.
Qed.

Lemma filter_split_le {A : Type} (p q u : A -> bool) (l : list A) :
  (forall a, In a l -> p a = true -> q a = true /\ u a = false) ->
  (forall a, In a l -> u a = true -> q a = true) ->
  (length (filter p l) + length (filter u l) <= length (filter q l))%nat.
Proof.
  induction l as [|a l IH]; intros Hp Hu; simpl; [lia|].
  assert (IH' : (length (filter p l) + length (filter u l)
                 <= length (filter q l))%nat).
  { apply IH; intros a' Ha'; [apply Hp | apply Hu]; now right. }
  specialize (Hp a (or_introl eq_refl)).
  specialize (Hu a (or_introl eq_refl)).
  destruct (p a), (u a), (q a); simpl; try lia;
    try (destruct Hp as [? ?]; [reflexivity|]; discriminate);
    try (specialize (Hu eq_refl); discriminate).
Qed.

Lemma unvisited_step (r : JS.StrSet) (c : BrickData) :
  (length (App.supported board r c)
   + unvisited board (fold_left (fun r b => JS.add r (id b))
                                (App.supported board r c) r)
   <= unvisited board r)%nat.
Proof.
  unfold unvisited. unfold App.supported at 1.
  apply filter_split_le.
  - intros b Hb Hp. split.
    + rewrite !andb_true_iff in Hp. tauto.
    + apply negb_false_iff, has_In, add_ids_In. right. exists b.
      split; [|reflexivity]. unfold App.supported.
      apply filter_In. auto.
  - intros b Hb Hu. apply negb_true_iff, has_false in Hu.
    apply negb_true_iff, has_false. intros Hr. apply Hu.
    apply add_ids_In. now left.
Qed.

Lemma unvisited_le (r : JS.StrSet) : (unvisited board r <= length board)%nat.
Proof. apply filter_length_le. Qed.

(** With fuel for the queue and for every brick still to be collected
    the loop finishes, in a state that satisfies the invariant with the
    queue empty. *)
Lemma traverse_finishes (fuel : nat) :
  forall (q : list BrickData) (r : JS.StrSet),
    inv board start q r ->
    (length q + unvisited board r <= fuel)%nat ->
    exists ids, App.traverse fuel board q r = Some ids
                /\ inv board start [] ids.
Proof.
  induction fuel as [|fuel IH]; intros q r Hinv Hfuel.
  - destruct q; simpl in *; [eauto | lia].
  - destruct q as [|c rest]; simpl; [eauto|].
    apply IH; [now apply inv_step|].
    pose proof (unvisited_step r c). rewrite length_app.
    simpl in Hfuel. lia.
Qed.

Lemma inv_complete (ids : JS.StrSet) (b : BrickData) :
  inv board start [] ids -> collected board start b -> In (id b) ids.
Proof.
  intros [Hs Hq H0 Hc Hn]. induction 1 as [|a b Ha IH Hb Hr]; [assumption|].
  apply (Hc a b); auto. now apply collected_on_board.
Qed.

End Traversal.

(** The traversal always finishes within its bound of iterations. *)
Lemma traverse_total (board : Board) (fuel : nat) :
  forall (q : list BrickData) (r : JS.StrSet),
    (length q + unvisited board r <= fuel)%nat ->
    App.traverse fuel board q r <> None.
Proof.
  induction fuel as [|fuel IH]; intros q r Hfuel.
  - destruct q; simpl in *; [discriminate | lia].
  - destruct q as [|c rest]; simpl; [discriminate|].
    apply IH. pose proof (unvisited_step board r c).
    rewrite length_app. simpl in Hfuel. lia.
Qed.

Lemma getLiftableBricks_total (board : Board) (i : string) :
  App.getLiftableBricks i board <> None.
Proof.
  unfold App.getLiftableBricks.
  destruct (find _ board); [|discriminate].
  apply traverse_total. pose proof (unvisited_le board [i]). simpl. lia.
Qed.

(** The result of the traversal on a board with unique ids. *)
Lemma getLiftableBricks_spec (board : Board) (startId : string) :
  NoDup (map id board) ->
  In startId (map id board) ->
  exists start ids,
    In start board /\ id start = startId
    /\ App.getLiftableBricks startId board = Some ids
    /\ NoDup ids
    /\ (forall i, In i ids <->
          exists b, In b board /\ id b = i /\ collected board start b).
Proof.
  intros Hnd Hin.
  destruct (find_id board startId Hin) as (start & Hf & Hb & Hid).
  unfold App.getLiftableBricks. rewrite Hf.
  destruct (traverse_finishes board start Hnd Hb (S (length board))
              [start] [startId]) as (ids & Ht & Hinv).
  - rewrite <- Hid. now apply inv_init.
  - pose proof (unvisited_le board [startId]). simpl. lia.
  - exists start, ids. repeat split; auto.
    + apply (inv_nodup _ _ _ _ Hinv).
    + apply (inv_sound _ _ _ _ Hinv).
    + intros (b & _ & <- & Hc). now apply (inv_complete board start).
Qed.

Lemma collected_above_start (board : Board) (start b : BrickData) :
  collected board start b -> b = start \/ y start < y b.
Proof.
  induction 1 as [|a b Ha IH Hb (Hy & _)]; [now left|].
  right. destruct IH as [-> | IH]; lia.
Qed.



(* ===================================================================== *)
(** * Properties of lifting and dropping *)
(* ===================================================================== *)



Lemma includes_In (ids : list string) (i : string) :
  App.includes ids i = true <-> In i ids.
Proof. apply has_In. Qed.

Lemma filter_partition {A : Type} (f : A -> bool) (l : list A) :
  Permutation (filter (fun a => negb (f a)) l ++ filter f l) l.
Proof.
  induction l as [|a l IH]; simpl; [constructor|].
  destruct (f a); simpl.
  - apply Permutation_sym, Permutation_cons_app, Permutation_sym, IH.
  - now constructor.
Qed.


Lemma map_id_on {A : Type} (f : A -> A) (l : list A) :
  (forall a, In a l -> f a = a) -> map f l = l.
Proof.
  induction l as [|a l IH]; intros H; simpl; [reflexivity|].
  rewrite H by now left. f_equal. apply IH. intros; apply H. now right.
Qed.

(** What [handleLiftBrick] does on a board with unique ids: the group is
    the collected bricks, the rest stays, and the rest is committed. *)
Lemma handleLiftBrick_shape (s : App.State) (anchor : BrickData) :
  NoDup (map id (App.bricks s)) ->
  In anchor (App.bricks s) ->
  exists ids,
    App.getLiftableBricks (id anchor) (App.bricks s) = Some ids
    /\ (forall b, In b (App.bricks s) ->
          (In (id b) ids <-> collected (App.bricks s) anchor b))
    /\ App.handleLiftBrick s (id anchor)
       = App.setLiftedGroup
           (App.saveToHistory s
              (filter (fun b => negb (App.includes ids (id b)))
                      (App.bricks s)))
           (Some (mkGroup
                    (map (App.withOffsets anchor)
                         (filter (fun b => App.includes ids (id b))
                                 (App.bricks s)))
                    (id anchor))).
Proof.
  intros Hnd Hin.
  destruct (getLiftableBricks_spec (App.bricks s) (id anchor) Hnd)
    as (start & ids & Hb & Hid & Hg & Hn & Hspec).
  { now apply in_map. }
  assert (start = anchor) as -> by (apply (in_ids_unique (App.bricks s)); auto).
  exists ids. split; [assumption|]. split.
  - intros b Hb'. rewrite Hspec. split.
    + intros (b' & Hb'' & E & Hc).
      assert (b' = b) as -> by (apply (in_ids_unique (App.bricks s)); auto).
      assumption.
    + intros Hc. eauto.
  - unfold App.handleLiftBrick. rewrite Hg.
    set (group := filter (fun b => App.includes ids (id b)) (App.bricks s)).
    assert (Hga : In anchor group).
    { apply filter_In. split; [assumption|]. apply includes_In, Hspec.
      exists anchor. auto using collected_start. }
    destruct (find (fun b => String.eqb (id b) (id anchor)) group) eqn:Hf.
    + apply find_some in Hf. destruct Hf as (Hbg & He).
      apply String.eqb_eq in He. apply filter_In in Hbg.
      assert (b = anchor) as ->
          by (apply (in_ids_unique (App.bricks s)); tauto).
      reflexivity.
    + exfalso. apply (find_none _ _ Hf) in Hga.
      rewrite String.eqb_refl in Hga. discriminate.
Qed.






(* ===================================================================== *)
(** * Printing and reading keys *)
(* ===================================================================== *)

Lemma uint_noComma (d : uint) :
  noComma (NilEmpty.string_of_uint d) = true.
Proof. induction d; simpl; auto. Qed.

Lemma numStr_noComma (n : Z) : noComma (JS.numStr n) = true.
Proof.
  unfold JS.numStr. destruct (Z.to_int n) as [d | d]; simpl.
  - destruct d; simpl; auto using uint_noComma.
  - destruct d; simpl; auto using uint_noComma.
Qed.

Lemma to_int_not_nil (n : Z) :
  Z.to_int n <> Pos Nil /\ Z.to_int n <> Neg Nil.
Proof.
  destruct n as [|p|p]; simpl; split; try discriminate.
  - intros H. injection H as H.
    pose proof (DecimalPos.Unsigned.to_uint_nonnil p). contradiction.
  - intros H. injection H as H.
    pose proof (DecimalPos.Unsigned.to_uint_nonnil p). contradiction.
Qed.

Lemma parseNum_numStr (n : Z) : JS.parseNum (JS.numStr n) = Some n.
Proof.
  unfold JS.parseNum, JS.numStr.
  destruct (to_int_not_nil n) as (H1 & H2).
  rewrite NilZero.isi by assumption. simpl.
  now rewrite DecimalZ.of_to.
Qed.

Lemma toNum_numStr (n : Z) : Packer.toNum (JS.numStr n) = n.
Proof. unfold Packer.toNum. now rewrite parseNum_numStr. Qed.

Lemma numStr_inj (n m : Z) : JS.numStr n = JS.numStr m -> n = m.
Proof.
  intros H. rewrite <- (toNum_numStr n), <- (toNum_numStr m). now rewrite H.
Qed.

Lemma split_nonempty (s : string) : JS.split s <> [].
Proof.
  destruct s as [|c r]; simpl; [discriminate|].
  destruct (Ascii.eqb c ","); [discriminate|].
  destruct (JS.split r); discriminate.
Qed.

Lemma split_noComma (s : string) :
  noComma s = true -> JS.split s = [s].
Proof.
  induction s as [|c r IH]; simpl; [reflexivity|].
  intros H. apply andb_true_iff in H. destruct H as (Hc & Hr).
  apply negb_true_iff in Hc. rewrite Hc, (IH Hr). reflexivity.
Qed.

Lemma split_comma (a b : string) :
  noComma a = true ->
  JS.split (a ++ "," ++ b)%string = a :: JS.split b.
Proof.
  induction a as [|c r IH]; simpl; [reflexivity|].
  intros H. apply andb_true_iff in H. destruct H as (Hc & Hr).
  apply negb_true_iff in Hc. rewrite Hc. simpl in IH. rewrite (IH Hr).
  reflexivity.
Qed.

Lemma append_inj_l (a s t : string) :
  (a ++ s)%string = (a ++ t)%string -> s = t.
Proof.
  induction a as [|c r IH]; simpl; [auto|].
  intros H. injection H as H. auto.
Qed.

Lemma parseCoord_coordKey (cx cz : Z) :
  Packer.parseCoord (Packer.coordKey cx cz) = (cx, cz).
Proof.
  unfold Packer.parseCoord, Packer.coordKey.
  rewrite split_comma by apply numStr_noComma.
  rewrite split_noComma by apply numStr_noComma.
  simpl. now rewrite !toNum_numStr.
Qed.

Lemma coordKey_inj (cx cz cx' cz' : Z) :
  Packer.coordKey cx cz = Packer.coordKey cx' cz' -> cx = cx' /\ cz = cz'.
Proof.
  intros H. apply (f_equal Packer.parseCoord) in H.
  rewrite !parseCoord_coordKey in H. now injection H.
Qed.

Lemma groupKey_inj (cy cy' : Z) (c c' : string) :
  Packer.groupKey cy c = Packer.groupKey cy' c' -> cy = cy' /\ c = c'.
Proof.
  intros H. pose proof (f_equal JS.split H) as Hs.
  unfold Packer.groupKey in Hs.
  rewrite !split_comma in Hs by apply numStr_noComma.
  injection Hs as Hn _. apply numStr_inj in Hn. subst cy'.
  split; [reflexivity|].
  unfold Packer.groupKey in H. apply append_inj_l in H.
  simpl in H. now injection H.
Qed.

(** The key of a group read back: the layer, and the color up to its
    first comma. *)
Lemma groupKey_split (cy : Z) (c : string) :
  JS.split (Packer.groupKey cy c) = JS.numStr cy :: JS.split c.
Proof. apply split_comma, numStr_noComma. Qed.

Lemma groupKey_decode (cy : Z) (c : string) :
  noComma c = true ->
  let parts := JS.split (Packer.groupKey cy c) in
  Packer.toNum (nth 0 parts ""%string) = cy /\ nth 1 parts ""%string = c.
Proof.
  intros Hc parts. subst parts.
  rewrite groupKey_split, (split_noComma c Hc). simpl.
  now rewrite toNum_numStr.
Qed.

(* ===================================================================== *)
(** * Properties of the voxel packer *)
(* ===================================================================== *)

Lemma upto_In (n i : Z) : In i (JS.upto n) <-> 0 <= i < n.
Proof.
  unfold JS.upto. rewrite in_map_iff. split.
  - intros (k & <- & Hk). apply in_seq in Hk. lia.
  - intros H. exists (Z.to_nat i). split; [lia|]. apply in_seq. lia.
Qed.

Lemma mark_row_In (p : JS.StrSet) (cx cz i : Z) (js : list Z) (k : string) :
  In k (fold_left (fun p' j => JS.add p' (Packer.coordKey (cx + i) (cz + j)))
                  js p)
  <-> In k p \/ exists j, In j js /\ k = Packer.coordKey (cx + i) (cz + j).
Proof.
  revert p. induction js as [|j js IH]; intros p; simpl.
  - split; [auto | intros [H | (j & [] & _)]; assumption].
  - rewrite IH, add_In. split.
    + intros [[H | ->] | (j' & Hj' & ->)]; eauto.
    + intros [H | (j' & [<- | Hj'] & ->)]; eauto.
Qed.

Lemma mark_In (p : JS.StrSet) (cx cz w d : Z) (k : string) :
  In k (Packer.mark p cx cz w d) <-> In k p \/ inRect cx cz w d k.
Proof.
  unfold Packer.mark, inRect.
  assert (G : forall rows p,
    In k (fold_left (fun p i =>
            fold_left (fun p' j =>
              JS.add p' (Packer.coordKey (cx + i) (cz + j))) (JS.upto d) p)
          rows p)
    <-> In k p \/ exists i j, In i rows /\ 0 <= j < d
                              /\ k = Packer.coordKey (cx + i) (cz + j)).
  { induction rows as [|i rows IH]; intros q; simpl.
    - split; [auto | intros [H | (i & j & [] & _)]; assumption].
    - rewrite IH, mark_row_In. split.
      + intros [[H | (j & Hj & ->)] | (i' & j & Hi' & Hj & ->)]; auto.
        * right. exists i, j. apply upto_In in Hj. auto.
        * right. exists i', j. auto.
      + intros [H | (i' & j & [<- | Hi'] & Hj & ->)]; auto.
        * left. right. exists j. split; [now apply upto_In | reflexivity].
        * right. exists i', j. auto. }
  rewrite G. split.
  - intros [H | (i & j & Hi & Hj & ->)]; auto.
    right. exists i, j. apply upto_In in Hi. auto.
  - intros [H | (i & j & Hi & Hj & ->)]; auto.
    right. exists i, j. split; [now apply upto_In | auto].
Qed.

Lemma fits_spec (cs p : JS.StrSet) (cx cz w d : Z) :
  Packer.fits cs p cx cz w d = true
  <-> forall k, inRect cx cz w d k -> In k cs /\ ~ In k p.
Proof.
  unfold Packer.fits, inRect. rewrite forallb_forall. split.
  - intros H k (i & j & Hi & Hj & ->).
    apply upto_In in Hi, Hj. specialize (H i Hi).
    rewrite forallb_forall in H. specialize (H j Hj).
    apply andb_true_iff in H. destruct H as (H1 & H2).
    apply has_In in H1. apply negb_true_iff, has_false in H2. auto.
  - intros H i Hi. apply forallb_forall. intros j Hj.
    apply upto_In in Hi, Hj.
    destruct (H (Packer.coordKey (cx + i) (cz + j))) as (H1 & H2).
    { exists i, j. auto. }
    apply andb_true_iff. split; [now apply has_In|].
    now apply negb_true_iff, has_false.
Qed.

Lemma standardTypes_positive :
  Forall (fun t => 1 <= tSizeX t /\ 1 <= tSizeZ t) Packer.standardTypes.
Proof. vm_compute. repeat constructor; discriminate. Qed.

Lemma bestFit_sound (cs p : JS.StrSet) (cx cz : Z) (types : list BrickType) :
  forall t rot,
    Packer.bestFit cs p cx cz types = Some (t, rot) ->
    In t types
    /\ Packer.fits cs p cx cz (if rot then tSizeZ t else tSizeX t)
                   (if rot then tSizeX t else tSizeZ t) = true.
Proof.
  induction types as [|u types IH]; simpl; intros t rot H; [discriminate|].
  destruct (Packer.fits cs p cx cz (tSizeX u) (tSizeZ u)) eqn:E1.
  - injection H as <- <-. auto.
  - destruct (negb (tSizeX u =? tSizeZ u)
              && Packer.fits cs p cx cz (tSizeZ u) (tSizeX u)) eqn:E2.
    + injection H as <- <-. apply andb_true_iff in E2. tauto.
    + destruct (IH t rot H). auto.
Qed.

Lemma inRect_unit (cx cz : Z) (k : string) :
  inRect cx cz 1 1 k <-> k = Packer.coordKey cx cz.
Proof.
  unfold inRect. split.
  - intros (i & j & Hi & Hj & ->).
    assert (i = 0) by lia. assert (j = 0) by lia. subst.
    now rewrite !Z.add_0_r.
  - intros ->. exists 0, 0. rewrite !Z.add_0_r. repeat split; lia.
Qed.

Lemma inRect_corner (cx cz w d : Z) :
  1 <= w -> 1 <= d -> inRect cx cz w d (Packer.coordKey cx cz).
Proof.
  intros Hw Hd. exists 0, 0. rewrite !Z.add_0_r. repeat split; lia.
Qed.

Lemma inRect_cell (cx cz w d qx qz : Z) :
  inRect cx cz w d (Packer.coordKey qx qz)
  <-> cx <= qx < cx + w /\ cz <= qz < cz + d.
Proof.
  unfold inRect. split.
  - intros (i & j & Hi & Hj & E). apply coordKey_inj in E. lia.
  - intros (Hx & Hz). exists (qx - cx), (qz - cz).
    repeat split; try lia. f_equal; lia.
Qed.

(** One step of the coordinate loop: either the cell is already
    processed and nothing happens, or one brick is pushed whose rectangle
    lies in the group, was unprocessed, and is now processed. *)
Lemma place_cases (uuid : nat -> string) (first : nat) (cy : Z)
      (col : string) (cs p : JS.StrSet) (acc : list BrickData) (cx cz : Z) :
  In (Packer.coordKey cx cz) cs ->
  (In (Packer.coordKey cx cz) p
   /\ Packer.place uuid first cy col cs (p, acc) (cx, cz) = (p, acc))
  \/ (exists w d rot p',
         1 <= w /\ 1 <= d
         /\ (forall k, inRect cx cz w d k -> In k cs /\ ~ In k p)
         /\ (forall k, In k p' <-> In k p \/ inRect cx cz w d k)
         /\ Packer.place uuid first cy col cs (p, acc) (cx, cz)
            = (p', acc ++ [mkBrick (uuid (first + length acc)%nat)
                                   cx cy cz col (Some w) (Some d) rot
                                   None None None None])).
Proof.
  intros Hcs. unfold Packer.place.
  destruct (JS.has p (Packer.coordKey cx cz)) eqn:Hp.
  - left. apply has_In in Hp. auto.
  - right. apply has_false in Hp.
    destruct (Packer.bestFit cs p cx cz Packer.standardTypes)
      as [[t rot]|] eqn:Hb.
    + apply bestFit_sound in Hb. destruct Hb as (Ht & Hf).
      pose proof standardTypes_positive as Hpos.
      rewrite Forall_forall in Hpos. destruct (Hpos t Ht) as (Hx & Hz).
      exists (if rot then tSizeZ t else tSizeX t),
             (if rot then tSizeX t else tSizeZ t),
             (Some (if rot then 90 else 0)),
             (Packer.mark p cx cz (if rot then tSizeZ t else tSizeX t)
                          (if rot then tSizeX t else tSizeZ t)).
      repeat split; try (destruct rot; lia).
      * now apply (proj1 (fits_spec _ _ _ _ _ _) Hf).
      * now apply (proj1 (fits_spec _ _ _ _ _ _) Hf).
      * now apply mark_In.
      * now apply mark_In.
    + exists 1, 1, None, (JS.add p (Packer.coordKey cx cz)).
      repeat split; try lia.
      * apply inRect_unit in H. now subst.
      * apply inRect_unit in H. now subst.
      * intros H. apply add_In in H. rewrite inRect_unit. exact H.
      * intros H. apply add_In. rewrite inRect_unit in H. exact H.
Qed.

Lemma coverCount_app (acc : list BrickData) (b : BrickData)
      (qx qy qz : Z) (qc : string) :
  coverCount (acc ++ [b]) qx qy qz qc
  = (coverCount acc qx qy qz qc + ind (covers qx qy qz qc b))%nat.
Proof.
  unfold coverCount. rewrite filter_app, length_app. simpl.
  destruct (covers qx qy qz qc b); reflexivity.
Qed.

Lemma covers_pushed (i : string) (cx cy cz w d : Z) (col : string)
      (rot : option Z) (qx qy qz : Z) (qc : string) :
  1 <= w -> 1 <= d ->
  covers qx qy qz qc
         (mkBrick i cx cy cz col (Some w) (Some d) rot None None None None)
  = true
  <-> (cy = qy /\ col = qc)
      /\ inRect cx cz w d (Packer.coordKey qx qz).
Proof.
  intros Hw Hd. unfold covers, JS.orElse. simpl.
  destruct (Z.eqb_spec w 0); [lia|]. destruct (Z.eqb_spec d 0); [lia|].
  rewrite !andb_true_iff, Z.eqb_eq, String.eqb_eq, !Z.leb_le, !Z.ltb_lt,
    inRect_cell.
  tauto.
Qed.

(** The effect of one step of the coordinate loop on the cover counts:
    a cell gains one covering brick exactly when it becomes processed. *)
Lemma place_count (uuid : nat -> string) (first : nat) (cy : Z)
      (col : string) (cs p : JS.StrSet) (acc : list BrickData) (cx cz : Z) :
  In (Packer.coordKey cx cz) cs ->
  (forall k, In k p -> In k cs) ->
  let st := Packer.place uuid first cy col cs (p, acc) (cx, cz) in
  (forall k, In k p -> In k (fst st))
  /\ (forall k, In k (fst st) -> In k cs)
  /\ In (Packer.coordKey cx cz) (fst st)
  /\ (forall qx qy qz qc,
         (coverCount (snd st) qx qy qz qc + ind (inGroup cy col p qx qy qz qc)
          = coverCount acc qx qy qz qc
            + ind (inGroup cy col (fst st) qx qy qz qc))%nat).
Proof.
  intros Hcell Hsub st. subst st.
  destruct (place_cases uuid first cy col cs p acc cx cz Hcell)
    as [(Hp & ->) | (w & d & rot & p' & Hw & Hd & Hfit & Hp' & ->)]; simpl.
  - repeat split; auto.
  - repeat split.
    + intros k Hk. apply Hp'. now left.
    + intros k Hk. apply Hp' in Hk. destruct Hk as [Hk | Hk]; auto.
      now apply Hfit.
    + apply Hp'. right. now apply inRect_corner.
    + intros qx qy qz qc. rewrite coverCount_app. unfold inGroup.
      pose proof (covers_pushed (uuid (first + length acc)%nat)
                    cx cy cz w d col rot qx qy qz qc Hw Hd) as Hcov.
      assert (F1 := Hp' (Packer.coordKey qx qz)).
      assert (F2 : inRect cx cz w d (Packer.coordKey qx qz) ->
                   JS.has p (Packer.coordKey qx qz) = false).
      { intros Hr. apply has_false. now apply Hfit. }
      rewrite <- !has_In in F1.
      assert (Hm : (cy =? qy) && (col =? qc)%string = true
                   <-> cy = qy /\ col = qc).
      { now rewrite andb_true_iff, Z.eqb_eq, String.eqb_eq. }
      destruct (covers qx qy qz qc _);
        destruct ((cy =? qy) && (col =? qc)%string);
        destruct (JS.has p (Packer.coordKey qx qz));
        destruct (JS.has p' (Packer.coordKey qx qz));
        simpl; try lia; exfalso; intuition discriminate.
Qed.

(** The coordinate loop of one group. *)
Lemma place_loop (uuid : nat -> string) (first : nat) (cy : Z)
      (col : string) (cs : JS.StrSet) (cells : list (Z * Z)) :
  forall (p : JS.StrSet) (acc : list BrickData),
    (forall c, In c cells -> In (Packer.coordKey (fst c) (snd c)) cs) ->
    (forall k, In k p -> In k cs) ->
    let st := fold_left (Packer.place uuid first cy col cs) cells (p, acc) in
    (forall k, In k p -> In k (fst st))
    /\ (forall k, In k (fst st) -> In k cs)
    /\ (forall c, In c cells -> In (Packer.coordKey (fst c) (snd c)) (fst st))
    /\ (forall qx qy qz qc,
           (coverCount (snd st) qx qy qz qc
            + ind (inGroup cy col p qx qy qz qc)
            = coverCount acc qx qy qz qc
              + ind (inGroup cy col (fst st) qx qy qz qc))%nat).
Proof.
  induction cells as [|[cx cz] cells IH]; intros p acc Hcells Hsub;
    cbn [fold_left].
  - repeat split; auto. contradiction.
  - destruct (place_count uuid first cy col cs p acc cx cz)
      as (S1 & S2 & S3 & S4); auto.
    { apply (Hcells (cx, cz)). now left. }
    destruct (Packer.place uuid first cy col cs (p, acc) (cx, cz))
      as [p1 acc1] eqn:E1. simpl in S1, S2, S3, S4.
    destruct (IH p1 acc1) as (T1 & T2 & T3 & T4); auto.
    { intros c Hc. apply Hcells. now right. }
    cbv zeta. split; [|split; [|split]].
    + intros k Hk. apply T1, S1, Hk.
    + exact T2.
    + intros c [<- | Hc]; auto.
    + intros qx qy qz qc. specialize (S4 qx qy qz qc).
      specialize (T4 qx qy qz qc). lia.
Qed.

(** ** The stable sort *)

Lemma insert_perm {A : Type} (cmp : A -> A -> Z) (a : A) (l : list A) :
  Permutation (JS.insert cmp a l) (a :: l).
Proof.
  induction l as [|b l IH]; simpl; [reflexivity|].
  destruct (cmp a b <=? 0); [reflexivity|].
  rewrite IH. apply perm_swap.
Qed.

Lemma sort_perm {A : Type} (cmp : A -> A -> Z) (l : list A) :
  Permutation (JS.sort cmp l) l.
Proof.
  induction l as [|a l IH]; simpl; [reflexivity|].
  rewrite insert_perm. now constructor.
Qed.

Lemma sort_In {A : Type} (cmp : A -> A -> Z) (l : list A) (a : A) :
  In a (JS.sort cmp l) <-> In a l.
Proof.
  split; apply Permutation_in;
    [apply sort_perm | apply Permutation_sym, sort_perm].
Qed.

Lemma sort_length {A : Type} (cmp : A -> A -> Z) (l : list A) :
  length (JS.sort cmp l) = length l.
Proof. apply Permutation_length, sort_perm. Qed.

(** ** Grouping the voxels *)

Lemma mhas_In (m : JS.StrMap) (k : string) :
  JS.mhas m k = true <-> In k (map fst m).
Proof.
  unfold JS.mhas. rewrite existsb_exists, in_map_iff. split.
  - intros (e & He & E). apply String.eqb_eq in E. eauto.
  - intros (e & <- & He). exists e. split; [assumption|].
    apply String.eqb_refl.
Qed.

Lemma madd_keys (m : JS.StrMap) (k c : string) :
  map fst (JS.madd m k c) = map fst m.
Proof.
  unfold JS.madd. rewrite map_map. apply map_ext.
  intros e. now destruct (String.eqb k (fst e)).
Qed.

Lemma madd_In (m : JS.StrMap) (k c k' : string) (cs' : JS.StrSet) :
  In (k', cs') (JS.madd m k c)
  <-> (k' <> k /\ In (k', cs') m)
      \/ (k' = k /\ exists cs, In (k, cs) m /\ cs' = JS.add cs c).
Proof.
  unfold JS.madd. rewrite in_map_iff. split.
  - intros ([k0 cs0] & E & He). simpl in E.
    destruct (String.eqb_spec k k0) as [<- | Hne].
    + injection E as <- <-. right. eauto.
    + injection E as <- <-. left. split; auto.
  - intros [(Hne & He) | (-> & cs & He & ->)].
    + exists (k', cs'). split; [|assumption]. simpl.
      destruct (String.eqb_spec k k'); congruence.
    + exists (k, cs). split; [|assumption]. simpl.
      now rewrite String.eqb_refl.
Qed.

Lemma holds_madd (m : JS.StrMap) (k c k' c' : string) :
  holds (JS.madd m k c) k' c'
  <-> holds m k' c' \/ (k' = k /\ c' = c /\ In k (map fst m)).
Proof.
  unfold holds. split.
  - intros (cs' & He & Hc). apply madd_In in He.
    destruct He as [(Hne & He) | (-> & cs & He & ->)]; [eauto|].
    apply add_In in Hc. destruct Hc as [Hc | ->]; [eauto|].
    right. repeat split. apply in_map_iff. now exists (k, cs).
  - intros [(cs & He & Hc) | (-> & -> & Hk)].
    + destruct (String.eqb_spec k' k) as [-> | Hne].
      * exists (JS.add cs c). split.
        -- apply madd_In. right. eauto.
        -- apply add_In. now left.
      * exists cs. split; [|assumption]. apply madd_In. left. auto.
    + apply in_map_iff in Hk. destruct Hk as ([k0 cs] & E & He).
      simpl in E. subst k0. exists (JS.add cs c). split.
      * apply madd_In. right. eauto.
      * apply add_In. now right.
Qed.

Lemma wfMap_madd (m : JS.StrMap) (k c : string) :
  wfMap m -> wfMap (JS.madd m k c).
Proof.
  intros (Hk & Hv). split.
  - now rewrite madd_keys.
  - intros k' cs' He. apply madd_In in He.
    destruct He as [(_ & He) | (-> & cs & He & ->)]; [eauto|].
    apply add_NoDup. eauto.
Qed.

Lemma wfMap_new (m : JS.StrMap) (k : string) :
  wfMap m -> ~ In k (map fst m) -> wfMap (m ++ [(k, [])]).
Proof.
  intros (Hk & Hv) Hn. split.
  - rewrite map_app. simpl. apply NoDup_app; auto.
    + constructor; [intros [] | constructor].
    + intros a Ha [<- | []]. contradiction.
  - intros k' cs He. apply in_app_iff in He.
    destruct He as [He | [E | []]]; [eauto|].
    injection E as <- <-. constructor.
Qed.

Lemma holds_new (m : JS.StrMap) (k k' c' : string) :
  holds (m ++ [(k, [])]) k' c' <-> holds m k' c'.
Proof.
  unfold holds. split.
  - intros (cs & He & Hc). apply in_app_iff in He.
    destruct He as [He | [E | []]]; [eauto|].
    injection E as <- <-. contradiction.
  - intros (cs & He & Hc). exists cs. split; [|assumption].
    apply in_app_iff. now left.
Qed.

(** Filing one voxel. *)
Lemma groupVoxel_spec (m : JS.StrMap) (v : RawBrick) :
  wfMap m ->
  let m' := Packer.groupVoxel m v in
  wfMap m'
  /\ (forall k, In k (map fst m')
                <-> In k (map fst m) \/ k = Packer.groupKey (ry v) (rcolor v))
  /\ (forall k c, holds m' k c
                  <-> holds m k c
                      \/ (k = Packer.groupKey (ry v) (rcolor v)
                          /\ c = Packer.coordKey (rx v) (rz v))).
Proof.
  intros Hwf m'. subst m'. unfold Packer.groupVoxel.
  set (key := Packer.groupKey (ry v) (rcolor v)).
  set (c := Packer.coordKey (rx v) (rz v)).
  destruct (JS.mhas m key) eqn:Hm.
  - apply mhas_In in Hm. split; [now apply wfMap_madd|]. split.
    + intros k. rewrite madd_keys. split; [auto | intros [H | ->]; auto].
    + intros k c'. rewrite holds_madd. tauto.
  - unfold JS.mset. rewrite Hm.
    assert (Hn : ~ In key (map fst m)).
    { intros H. apply mhas_In in H. congruence. }
    split; [now apply wfMap_madd, wfMap_new|]. split.
    + intros k. rewrite madd_keys, map_app, in_app_iff. simpl. intuition.
    + intros k c'. rewrite holds_madd, holds_new, map_app, in_app_iff.
      simpl. intuition.
Qed.

(** The map the packer builds from the voxel list. *)
Lemma bricksByLayerColor_spec (raw : list RawBrick) :
  let m := Packer.bricksByLayerColor raw in
  wfMap m
  /\ (forall k, In k (map fst m)
                <-> exists v, In v raw
                              /\ k = Packer.groupKey (ry v) (rcolor v))
  /\ (forall k c, holds m k c
                  <-> exists v, In v raw
                                /\ k = Packer.groupKey (ry v) (rcolor v)
                                /\ c = Packer.coordKey (rx v) (rz v)).
Proof.
  intros m. subst m. unfold Packer.bricksByLayerColor.
  assert (G : forall raw m0, wfMap m0 ->
    let m := fold_left Packer.groupVoxel raw m0 in
    wfMap m
    /\ (forall k, In k (map fst m)
                  <-> In k (map fst m0)
                      \/ exists v, In v raw
                                   /\ k = Packer.groupKey (ry v) (rcolor v))
    /\ (forall k c, holds m k c
                    <-> holds m0 k c
                        \/ exists v, In v raw
                                     /\ k = Packer.groupKey (ry v) (rcolor v)
                                     /\ c = Packer.coordKey (rx v) (rz v))).
  { clear raw. induction raw as [|v raw IH]; intros m0 Hwf; simpl.
    - split; [assumption|]. split.
      + intros k. split; [auto | intros [H | (v & [] & _)]; assumption].
      + intros k c. split; [auto | intros [H | (v & [] & _)]; assumption].
    - destruct (groupVoxel_spec m0 v Hwf) as (W & K & H).
      destruct (IH _ W) as (W' & K' & H').
      split; [assumption|]. split.
      + intros k. rewrite K', K. split.
        * intros [[Hk | ->] | (v' & Hv' & ->)];
            [left; assumption
            | right; exists v; simpl; auto
            | right; exists v'; simpl; auto].
        * intros [Hk | (v' & [<- | Hv'] & ->)];
            [left; left; assumption
            | left; right; reflexivity
            | right; exists v'; auto].
      + intros k c. rewrite H', H. split.
        * intros [[Hk | (-> & ->)] | (v' & Hv' & -> & ->)];
            [left; assumption
            | right; exists v; simpl; auto
            | right; exists v'; simpl; auto].
        * intros [Hk | (v' & [<- | Hv'] & -> & ->)];
            [left; left; assumption
            | left; right; split; reflexivity
            | right; exists v'; auto]. }
  destruct (G raw []) as (W & K & H).
  { split; [constructor | intros k cs []]. }
  split; [assumption|]. split.
  - intros k. rewrite K. simpl. tauto.
  - intros k c. rewrite H. unfold holds at 1. simpl.
    split; [intros [(cs & [] & _) | Hv]; assumption | auto].
Qed.

Lemma holdsb_spec (m : JS.StrMap) (k c : string) :
  holdsb m k c = true <-> holds m k c.
Proof.
  unfold holdsb, holds. rewrite existsb_exists. split.
  - intros ([k' cs] & He & E). simpl in E. apply andb_true_iff in E.
    destruct E as (E1 & E2). apply String.eqb_eq in E1. subst k'.
    apply has_In in E2. eauto.
  - intros (cs & He & Hc). exists (k, cs). split; [assumption|]. simpl.
    rewrite String.eqb_refl. now apply has_In.
Qed.

(** ** One group *)

(** The bricks pushed for a group whose key reads back whole: each cell
    gains one covering brick exactly when it is a cell of the group. *)
Lemma packGroup_count (uuid : nat -> string) (first : nat)
      (acc : list BrickData) (cy : Z) (col : string) (cs : JS.StrSet) :
  noComma col = true ->
  (forall c, In c cs -> isCoordKey c) ->
  forall qx qy qz qc,
    coverCount (Packer.packGroup uuid first acc (Packer.groupKey cy col, cs))
               qx qy qz qc
    = (coverCount acc qx qy qz qc + ind (inGroup cy col cs qx qy qz qc))%nat.
Proof.
  intros Hcol Hcs qx qy qz qc. unfold Packer.packGroup.
  destruct (groupKey_decode cy col Hcol) as (Ey & Ec).
  cbv zeta in Ey, Ec |- *. rewrite Ey, Ec. clear Ey Ec.
  set (cells := JS.sort Packer.cmpCoord (map Packer.parseCoord cs)).
  assert (Hcells : forall c, In c cells <->
                     In (Packer.coordKey (fst c) (snd c)) cs).
  { intros c. unfold cells. rewrite sort_In, in_map_iff. split.
    - intros (k & <- & Hk). destruct (Hcs k Hk) as (cx & cz & ->).
      now rewrite parseCoord_coordKey.
    - intros Hk. exists (Packer.coordKey (fst c) (snd c)).
      split; [|assumption]. rewrite parseCoord_coordKey. now destruct c. }
  destruct (place_loop uuid first cy col cs cells [] acc)
    as (_ & L2 & L3 & L4).
  { intros c Hc. now apply Hcells. }
  { intros k []. }
  specialize (L4 qx qy qz qc).
  replace (inGroup cy col [] qx qy qz qc) with false in L4
    by (unfold inGroup; simpl; now rewrite andb_false_r).
  cbv zeta in L2, L3, L4. change (ind false) with 0%nat in L4.
  rewrite Nat.add_0_r in L4. rewrite L4. f_equal. f_equal.
  unfold inGroup. f_equal.
  destruct (JS.has cs (Packer.coordKey qx qz)) eqn:E.
  - apply has_In. apply has_In in E.
    apply (L3 (qx, qz)). now apply Hcells.
  - apply has_false. apply has_false in E. intros H. apply E, L2, H.
Qed.

Lemma inGroup_key (cy : Z) (col : string) (cs : JS.StrSet)
      (qx qy qz : Z) (qc : string) :
  inGroup cy col cs qx qy qz qc
  = String.eqb (Packer.groupKey cy col) (Packer.groupKey qy qc)
    && JS.has cs (Packer.coordKey qx qz).
Proof.
  unfold inGroup. f_equal.
  destruct (String.eqb_spec (Packer.groupKey cy col) (Packer.groupKey qy qc))
    as [E | E].
  - apply groupKey_inj in E. destruct E as (-> & ->).
    now rewrite Z.eqb_refl, String.eqb_refl.
  - destruct (Z.eqb_spec cy qy) as [-> |]; [|reflexivity].
    destruct (String.eqb_spec col qc) as [-> |]; [|reflexivity].
    congruence.
Qed.

(** ** All groups *)

Lemma optimize_count (uuid : nat -> string) (first : nat) (m : JS.StrMap) :
  forall acc : list BrickData,
    NoDup (map fst m) ->
    (forall k cs, In (k, cs) m ->
                  plainKey k /\ forall c, In c cs -> isCoordKey c) ->
    forall qx qy qz qc,
      coverCount (fold_left (Packer.packGroup uuid first) m acc) qx qy qz qc
      = (coverCount acc qx qy qz qc
         + ind (holdsb m (Packer.groupKey qy qc) (Packer.coordKey qx qz)))%nat.
Proof.
  induction m as [|[k cs] m IH]; intros acc Hnd Hm qx qy qz qc;
    cbn [fold_left].
  - simpl. lia.
  - inversion Hnd as [|? ? Hk Hnd']; subst.
    destruct (Hm k cs (or_introl eq_refl)) as ((cy & col & -> & Hcol) & Hcs).
    rewrite IH; auto.
    2:{ intros k' cs' He. apply Hm. now right. }
    rewrite packGroup_count by assumption.
    rewrite inGroup_key.
    change (holdsb ((Packer.groupKey cy col, cs) :: m)
                   (Packer.groupKey qy qc) (Packer.coordKey qx qz))
      with (String.eqb (Packer.groupKey cy col) (Packer.groupKey qy qc)
            && JS.has cs (Packer.coordKey qx qz)
            || holdsb m (Packer.groupKey qy qc) (Packer.coordKey qx qz)).
    destruct (String.eqb_spec (Packer.groupKey cy col)
                              (Packer.groupKey qy qc)) as [E | E];
      cbn [andb orb]; [|simpl; lia].
    replace (holdsb m (Packer.groupKey qy qc) (Packer.coordKey qx qz))
      with false.
    + destruct (JS.has cs (Packer.coordKey qx qz)); simpl; lia.
    + symmetry. apply not_true_is_false. intros H.
      apply holdsb_spec in H. destruct H as (cs' & He & _).
      apply Hk. rewrite E. apply in_map_iff.
      now exists (Packer.groupKey qy qc, cs').
Qed.

Lemma isVoxel_spec (raw : list RawBrick) (qx qy qz : Z) (qc : string) :
  isVoxel raw qx qy qz qc = true <-> In (mkRaw qx qy qz qc) raw.
Proof.
  unfold isVoxel. rewrite existsb_exists. split.
  - intros ([vx vy vz vc] & Hv & E). simpl in E.
    rewrite !andb_true_iff, !Z.eqb_eq, String.eqb_eq in E.
    destruct E as (((-> & ->) & ->) & ->). assumption.
  - intros Hv. exists (mkRaw qx qy qz qc). split; [assumption|]. simpl.
    now rewrite !Z.eqb_refl, String.eqb_refl.
Qed.

(** Coverage, for colors without a comma: every cell is covered by exactly
    one output brick of its layer and color when it is an input voxel, and
    by none otherwise. *)
Lemma packing_coverage_plain (uuid : nat -> string) (first : nat)
      (raw : list RawBrick) :
  (forall v, In v raw -> noComma (rcolor v) = true) ->
  forall qx qy qz qc,
    coverCount (Packer.optimizeBricks uuid first raw) qx qy qz qc
    = ind (isVoxel raw qx qy qz qc).
Proof.
  intros Hplain qx qy qz qc. unfold Packer.optimizeBricks.
  destruct (bricksByLayerColor_spec raw) as ((Hnd & _) & Hk & Hh).
  rewrite optimize_count; auto.
  - simpl. f_equal.
    destruct (isVoxel raw qx qy qz qc) eqn:E.
    + apply holdsb_spec, Hh. apply isVoxel_spec in E.
      exists (mkRaw qx qy qz qc). auto.
    + apply not_true_is_false. intros H. apply holdsb_spec, Hh in H.
      destruct H as ([vx vy vz vc] & Hv & E1 & E2). simpl in E1, E2.
      apply groupKey_inj in E1. apply coordKey_inj in E2.
      destruct E1 as (-> & ->), E2 as (-> & ->).
      apply isVoxel_spec in Hv. congruence.
  - intros k cs He. split.
    + assert (Hin : In k (map fst (Packer.bricksByLayerColor raw))).
      { apply in_map_iff. now exists (k, cs). }
      apply Hk in Hin. destruct Hin as (v & Hv & ->).
      exists (ry v), (rcolor v). auto.
    + intros c Hc.
      assert (H : holds (Packer.bricksByLayerColor raw) k c)
        by (exists cs; auto).
      apply Hh in H. destruct H as (v & _ & _ & ->).
      now exists (rx v), (rz v).
Qed.

(** ** The sort and the order of its input *)

Section SortOrder.

Context {A : Type} (cmp : A -> A -> Z).
Hypothesis cmp_total : forall a b, cmp a b <= 0 \/ cmp b a <= 0.
Hypothesis cmp_antisym : forall a b, cmp a b <= 0 -> cmp b a <= 0 -> a = b.
Hypothesis cmp_trans :
  forall a b c, cmp a b <= 0 -> cmp b c <= 0 -> cmp a c <= 0.

Lemma insert_comm (a b : A) (l : list A) :
  JS.insert cmp a (JS.insert cmp b l) = JS.insert cmp b (JS.insert cmp a l).
Proof.
  induction l as [|c l IH]; simpl.
  - destruct (Z.leb_spec (cmp a b) 0) as [Hab | Hab];
      destruct (Z.leb_spec (cmp b a) 0) as [Hba | Hba]; try reflexivity.
    + now rewrite (cmp_antisym a b Hab Hba).
    + destruct (cmp_total a b); lia.
  - destruct (Z.leb_spec (cmp a c) 0) as [Hac | Hac];
      destruct (Z.leb_spec (cmp b c) 0) as [Hbc | Hbc]; simpl.
    + destruct (Z.leb_spec (cmp a b) 0) as [Hab | Hab];
        destruct (Z.leb_spec (cmp b a) 0) as [Hba | Hba];
        try rewrite (proj2 (Z.leb_le _ _) Hac);
        try rewrite (proj2 (Z.leb_le _ _) Hbc); try reflexivity.
      * now rewrite (cmp_antisym a b Hab Hba).
      * destruct (cmp_total a b); lia.
    + rewrite (proj2 (Z.leb_le _ _) Hac).
      destruct (Z.leb_spec (cmp b a) 0) as [Hba | Hba].
      * pose proof (cmp_trans b a c Hba Hac). lia.
      * rewrite (proj2 (Z.leb_gt _ _) Hbc). reflexivity.
    + rewrite (proj2 (Z.leb_le _ _) Hbc).
      destruct (Z.leb_spec (cmp a b) 0) as [Hab | Hab].
      * pose proof (cmp_trans a b c Hab Hbc). lia.
      * rewrite (proj2 (Z.leb_gt _ _) Hac). reflexivity.
    + rewrite (proj2 (Z.leb_gt _ _) Hac), (proj2 (Z.leb_gt _ _) Hbc).
      now rewrite IH.
Qed.

(** Sorting by a total order forgets the order of the input. *)
Lemma sort_Permutation (l l' : list A) :
  Permutation l l' -> JS.sort cmp l = JS.sort cmp l'.
Proof.
  induction 1 as [| a l l' _ IH | a b l | l l' l'' _ IH1 _ IH2]; simpl.
  - reflexivity.
  - now rewrite IH.
  - apply insert_comm.
  - now rewrite IH1.
Qed.

End SortOrder.

Lemma cmpCoord_le (a b : Z * Z) :
  Packer.cmpCoord a b <= 0 <-> cellLe a b.
Proof.
  unfold Packer.cmpCoord, cellLe.
  destruct (Z.eqb_spec (snd a) (snd b)); simpl; lia.
Qed.

Lemma sort_cells_Permutation (l l' : list (Z * Z)) :
  Permutation l l' ->
  JS.sort Packer.cmpCoord l = JS.sort Packer.cmpCoord l'.
Proof.
  apply sort_Permutation.
  - intros a b. rewrite !cmpCoord_le. unfold cellLe. lia.
  - intros [ax az] [bx bz]. rewrite !cmpCoord_le. unfold cellLe. simpl.
    intros H1 H2. f_equal; lia.
  - intros a b c. rewrite !cmpCoord_le. unfold cellLe. lia.
Qed.

(** ** Ids do not steer the packer *)

Lemma place_split (uuid : nat -> string) (first : nat) (cy : Z)
      (col : string) (cs p : JS.StrSet) (acc : list BrickData) (c : Z * Z) :
  exists n,
    Packer.place uuid first cy col cs (p, acc) c
    = (fst (Packer.place (fun _ => ""%string) 0 cy col cs (p, []) c),
       acc ++ n)
    /\ map eraseId n
       = snd (Packer.place (fun _ => ""%string) 0 cy col cs (p, []) c).
Proof.
  destruct c as [cx cz]. unfold Packer.place.
  destruct (JS.has p (Packer.coordKey cx cz)).
  - exists []. now rewrite app_nil_r.
  - destruct (Packer.bestFit cs p cx cz Packer.standardTypes) as [[t rot]|];
      simpl; eexists; split; reflexivity.
Qed.

Lemma place_loop_split (uuid uuid' : nat -> string) (first first' : nat)
      (cy : Z) (col : string) (cs : JS.StrSet) (cells : list (Z * Z)) :
  forall (p : JS.StrSet) (acc acc' : list BrickData),
  exists q n n',
    fold_left (Packer.place uuid first cy col cs) cells (p, acc)
    = (q, acc ++ n)
    /\ fold_left (Packer.place uuid' first' cy col cs) cells (p, acc')
       = (q, acc' ++ n')
    /\ map eraseId n = map eraseId n'.
Proof.
  induction cells as [|c cells IH]; intros p acc acc'; cbn [fold_left].
  - exists p, [], []. now rewrite !app_nil_r.
  - destruct (place_split uuid first cy col cs p acc c) as (n1 & E1 & H1).
    destruct (place_split uuid' first' cy col cs p acc' c) as (n1' & E1' & H1').
    rewrite E1, E1'.
    destruct (IH (fst (Packer.place (fun _ => ""%string) 0 cy col cs (p, []) c))
                 (acc ++ n1) (acc' ++ n1')) as (q & n2 & n2' & E2 & E2' & H2).
    exists q, (n1 ++ n2), (n1' ++ n2').
    rewrite E2, E2', !app_assoc, !map_app, H1, H1', H2. auto.
Qed.

Lemma packGroup_shapes (uuid : nat -> string) (first : nat)
      (acc : list BrickData) (e : string * JS.StrSet) :
  map eraseId (Packer.packGroup uuid first acc e)
  = map eraseId acc ++ groupShapes e.
Proof.
  destruct e as [k cs]. unfold groupShapes, Packer.packGroup.
  destruct (place_loop_split uuid (fun _ => ""%string) first 0%nat
              (Packer.toNum (nth 0 (JS.split k) ""%string))
              (nth 1 (JS.split k) ""%string) cs
              (JS.sort Packer.cmpCoord (map Packer.parseCoord cs))
              [] acc []) as (q & n & n' & E & E' & H).
  cbv zeta. rewrite E, E'. simpl. now rewrite map_app, H.
Qed.

Lemma optimize_shapes (uuid : nat -> string) (first : nat) (m : JS.StrMap) :
  forall acc : list BrickData,
    map eraseId (fold_left (Packer.packGroup uuid first) m acc)
    = map eraseId acc ++ flat_map groupShapes m.
Proof.
  induction m as [|e m IH]; intros acc; cbn [fold_left flat_map].
  - now rewrite app_nil_r.
  - now rewrite IH, packGroup_shapes, app_assoc.
Qed.

(** ** The packer reads a group as a set *)

Lemma has_ext (cs cs' : JS.StrSet) :
  (forall k, In k cs <-> In k cs') -> forall k, JS.has cs k = JS.has cs' k.
Proof.
  intros H k. destruct (JS.has cs' k) eqn:E.
  - apply has_In, H, has_In, E.
  - apply has_false. intros Hk. apply H, has_In in Hk. congruence.
Qed.

Lemma forallb_pointwise {A : Type} (f g : A -> bool) (l : list A) :
  (forall a, f a = g a) -> forallb f l = forallb g l.
Proof.
  intros H. induction l as [|a l IH]; simpl; [reflexivity|].
  now rewrite H, IH.
Qed.

Lemma fits_ext (cs cs' p : JS.StrSet) (cx cz w d : Z) :
  (forall k, JS.has cs k = JS.has cs' k) ->
  Packer.fits cs p cx cz w d = Packer.fits cs' p cx cz w d.
Proof.
  intros H. unfold Packer.fits. apply forallb_pointwise. intros i.
  apply forallb_pointwise. intros j. now rewrite H.
Qed.

Lemma bestFit_ext (cs cs' p : JS.StrSet) (cx cz : Z) (types : list BrickType) :
  (forall k, JS.has cs k = JS.has cs' k) ->
  Packer.bestFit cs p cx cz types = Packer.bestFit cs' p cx cz types.
Proof.
  intros H. induction types as [|t types IH]; simpl; [reflexivity|].
  now rewrite !(fits_ext cs cs' p _ _ _ _ H), IH.
Qed.

Lemma place_ext (uuid : nat -> string) (first : nat) (cy : Z) (col : string)
      (cs cs' : JS.StrSet) (st : JS.StrSet * list BrickData) (c : Z * Z) :
  (forall k, JS.has cs k = JS.has cs' k) ->
  Packer.place uuid first cy col cs st c
  = Packer.place uuid first cy col cs' st c.
Proof.
  intros H. destruct st as [p acc], c as [cx cz]. unfold Packer.place.
  now rewrite (bestFit_ext cs cs' p cx cz _ H).
Qed.

Lemma fold_left_ext_all {A B : Type} (f g : A -> B -> A) (l : list B) :
  (forall a b, f a b = g a b) ->
  forall a, fold_left f l a = fold_left g l a.
Proof.
  intros H. induction l as [|b l IH]; intros a; simpl; [reflexivity|].
  now rewrite H, IH.
Qed.

Lemma groupShapes_Permutation (k : string) (cs cs' : JS.StrSet) :
  Permutation cs cs' -> groupShapes (k, cs) = groupShapes (k, cs').
Proof.
  intros P. unfold groupShapes, Packer.packGroup. cbv zeta.
  rewrite (sort_cells_Permutation (map Packer.parseCoord cs)
                                  (map Packer.parseCoord cs'))
    by now apply Permutation_map.
  f_equal. f_equal. apply fold_left_ext_all. intros st c.
  apply place_ext, has_ext. intros k'. split; apply Permutation_in; auto.
  now apply Permutation_sym.
Qed.

(** ** Maps with the same content *)

Lemma lookup_In (m : JS.StrMap) (k : string) (cs : JS.StrSet) :
  NoDup (map fst m) -> In (k, cs) m -> lookup m k = cs.
Proof.
  unfold lookup. induction m as [|[k' cs'] m IH]; simpl; [contradiction|].
  intros Hnd [E | He].
  - injection E as -> ->. now rewrite String.eqb_refl.
  - inversion Hnd as [|? ? Hk Hnd']; subst.
    destruct (String.eqb_spec k' k) as [-> | Hne]; [|auto].
    exfalso. apply Hk. apply in_map_iff. now exists (k, cs).
Qed.

Lemma flat_map_keys (m : JS.StrMap) :
  NoDup (map fst m) ->
  flat_map groupShapes m
  = flat_map (fun k => groupShapes (k, lookup m k)) (map fst m).
Proof.
  intros Hnd.
  assert (G : forall l, (forall e, In e l -> In e m) ->
    flat_map groupShapes l
    = flat_map (fun k => groupShapes (k, lookup m k)) (map fst l)).
  { induction l as [|[k cs] l IH]; intros Hl; simpl; [reflexivity|].
    rewrite (lookup_In m k cs Hnd) by (apply Hl; now left).
    f_equal. apply IH. intros e He. apply Hl. now right. }
  now apply G.
Qed.

Lemma holds_lookup (m : JS.StrMap) (k c : string) :
  NoDup (map fst m) -> (holds m k c <-> In c (lookup m k)).
Proof.
  intros Hnd. unfold holds. split.
  - intros (cs & He & Hc). now rewrite (lookup_In m k cs Hnd He).
  - unfold lookup. destruct (find _ m) as [[k' cs]|] eqn:E; [|contradiction].
    apply find_some in E. destruct E as (He & Hk). simpl in Hk.
    apply String.eqb_eq in Hk. subst k'. simpl. eauto.
Qed.

Lemma lookup_NoDup (m : JS.StrMap) (k : string) :
  wfMap m -> NoDup (lookup m k).
Proof.
  intros (_ & Hv). unfold lookup.
  destruct (find _ m) as [[k' cs]|] eqn:E; [|constructor].
  apply find_some in E. destruct E as (He & _). simpl. eauto.
Qed.

(** Two maps with the same keys and the same content give the same
    bricks, up to the order of the groups. *)
Lemma shapes_same_content (m1 m2 : JS.StrMap) :
  wfMap m1 -> wfMap m2 ->
  (forall k, In k (map fst m1) <-> In k (map fst m2)) ->
  (forall k c, holds m1 k c <-> holds m2 k c) ->
  Permutation (flat_map groupShapes m1) (flat_map groupShapes m2).
Proof.
  intros W1 W2 Hk Hh.
  rewrite (flat_map_keys m1), (flat_map_keys m2) by apply W1 || apply W2.
  transitivity (flat_map (fun k => groupShapes (k, lookup m1 k))
                         (map fst m2)).
  - apply Permutation_flat_map.
    apply NoDup_Permutation; [apply W1 | apply W2 | exact Hk].
  - replace (flat_map (fun k => groupShapes (k, lookup m1 k)) (map fst m2))
      with (flat_map (fun k => groupShapes (k, lookup m2 k)) (map fst m2));
      [reflexivity|].
    apply flat_map_ext. intros k. apply groupShapes_Permutation.
    apply NoDup_Permutation; try now apply lookup_NoDup.
    intros c. rewrite <- !holds_lookup by apply W1 || apply W2.
    symmetry. apply Hh.
Qed.

(** The bricks of the output, up to their ids, are the bricks of the
    groups in the order the groups were first met. *)
Lemma optimizeBricks_shapes (uuid : nat -> string) (first : nat)
      (raw : list RawBrick) :
  map eraseId (Packer.optimizeBricks uuid first raw)
  = flat_map groupShapes (Packer.bricksByLayerColor raw).
Proof. unfold Packer.optimizeBricks. now rewrite optimize_shapes. Qed.

(** C1. The packer reads the color of a group back from its key by
    splitting the key at every comma, so a color that itself holds a comma
    comes back cut short.  For the single voxel [(0, 0, 0)] of color
    [rgb(255,0,0)] the output is one brick of color [rgb(255]: the input
    cell is covered by no brick of its color, and a cell that is no input
    voxel is covered.  For two voxels at the same place whose colors differ
    after the first comma, the cell is covered by two bricks of the same
    layer and color. *)
Theorem packing_coverage_fails_on_comma_colors :
  forall (uuid : nat -> string) (first : nat),
    let raw := [mkRaw 0 0 0 "rgb(255,0,0)"] in
    let out := Packer.optimizeBricks uuid first raw in
    let raw2 := [mkRaw 0 0 0 "hsl(0,100%,50%)"; mkRaw 0 0 0 "hsl(0,50%,50%)"] in
    let out2 := Packer.optimizeBricks uuid first raw2 in
    map eraseId out
    = [mkBrick "" 0 0 0 "rgb(255" (Some 1) (Some 1) (Some 0)
               None None None None]
    /\ isVoxel raw 0 0 0 "rgb(255,0,0)" = true
    /\ coverCount out 0 0 0 "rgb(255,0,0)" = 0%nat
    /\ isVoxel raw 0 0 0 "rgb(255" = false
    /\ coverCount out 0 0 0 "rgb(255" = 1%nat
    /\ isVoxel raw2 0 0 0 "hsl(0" = false
    /\ coverCount out2 0 0 0 "hsl(0" = 2%nat.
Proof.
  intros uuid first. cbv zeta. repeat split; vm_compute; reflexivity.
Qed.

(** C10. For the two voxels [(0,0,0)] and [(1,0,0)] of color [#F00] the
    packer emits exactly one brick, at [(0,0,0)], of color [#F00], two
    cells wide and one deep: the 1x2 template in its rotated orientation. *)
Theorem pack_two_adjacent_voxels :
  forall (uuid : nat -> string) (first : nat),
    Packer.optimizeBricks uuid first
      [mkRaw 0 0 0 "#F00"; mkRaw 1 0 0 "#F00"]
    = [mkBrick (uuid first) 0 0 0 "#F00" (Some 2) (Some 1) (Some 90)
               None None None None]
    /\ In (mkType "1x2" 1 2 None) BRICK_TYPES.
Proof.
  intros uuid first. split.
  - vm_compute. now rewrite Nat.add_0_r.
  - simpl. auto.
Qed.

(** C7 as stated fails: the groups are emitted in the order their keys
    are first met in the input, so the same voxels in another order give
    the same bricks in another order. *)
Lemma packing_order_counterexample :
  let uuid := fun n : nat => JS.numStr (Z.of_nat n) in
  let raw1 := [mkRaw 0 0 0 "#F00"; mkRaw 5 0 0 "#00F"] in
  let raw2 := [mkRaw 5 0 0 "#00F"; mkRaw 0 0 0 "#F00"] in
  Permutation raw1 raw2
  /\ map eraseId (Packer.optimizeBricks uuid 0 raw1)
     <> map eraseId (Packer.optimizeBricks uuid 0 raw2).
Proof.
  intros uuid raw1 raw2. split.
  - apply perm_swap.
  - vm_compute. discriminate.
Qed.

(* ===================================================================== *)
(** * Properties of the held group *)
(* ===================================================================== *)

(** ** The ids the packer draws *)

Lemma place_push (uuid : nat -> string) (first : nat) (cy : Z)
      (col : string) (cs p : JS.StrSet) (acc : list BrickData) (c : Z * Z) :
  exists p',
    Packer.place uuid first cy col cs (p, acc) c = (p', acc)
    \/ exists b,
         Packer.place uuid first cy col cs (p, acc) c = (p', acc ++ [b])
         /\ id b = uuid (first + length acc)%nat
         /\ placed b.
Proof.
  destruct c as [cx cz]. unfold Packer.place.
  destruct (JS.has p (Packer.coordKey cx cz)); [eauto|].
  destruct (Packer.bestFit cs p cx cz Packer.standardTypes) as [[t rot]|];
    eexists; right; eexists; repeat split; reflexivity.
Qed.

Lemma ids_push (uuid : nat -> string) (first : nat)
      (acc : list BrickData) (b : BrickData) :
  map id acc = map uuid (seq first (length acc)) ->
  id b = uuid (first + length acc)%nat ->
  map id (acc ++ [b]) = map uuid (seq first (length (acc ++ [b]))).
Proof.
  intros Hacc Hb. rewrite length_app. simpl.
  rewrite Nat.add_1_r, seq_S, !map_app, Hacc. simpl. now rewrite Hb.
Qed.

Lemma place_loop_ids (uuid : nat -> string) (first : nat) (cy : Z)
      (col : string) (cs : JS.StrSet) (cells : list (Z * Z)) :
  forall (p : JS.StrSet) (acc : list BrickData),
    map id acc = map uuid (seq first (length acc)) ->
    let out := snd (fold_left (Packer.place uuid first cy col cs) cells
                              (p, acc)) in
    map id out = map uuid (seq first (length out)).
Proof.
  induction cells as [|c cells IH]; intros p acc Hacc; cbn [fold_left].
  - exact Hacc.
  - destruct (place_push uuid first cy col cs p acc c)
      as (p' & [E | (b & E & Hb & _)]); rewrite E.
    + now apply IH.
    + apply IH. now apply ids_push.
Qed.

Lemma place_loop_placed (uuid : nat -> string) (first : nat) (cy : Z)
      (col : string) (cs : JS.StrSet) (cells : list (Z * Z)) :
  forall (p : JS.StrSet) (acc : list BrickData),
    Forall placed acc ->
    Forall placed
      (snd (fold_left (Packer.place uuid first cy col cs) cells (p, acc))).
Proof.
  induction cells as [|c cells IH]; intros p acc Hacc; cbn [fold_left].
  - exact Hacc.
  - destruct (place_push uuid first cy col cs p acc c)
      as (p' & [E | (b & E & _ & Hb)]); rewrite E.
    + now apply IH.
    + apply IH. apply Forall_app. split; [assumption|].
      constructor; [assumption | constructor].
Qed.

(** The bricks the packer emits carry no offsets. *)
Lemma optimizeBricks_placed (uuid : nat -> string) (first : nat)
      (raw : list RawBrick) :
  Forall placed (Packer.optimizeBricks uuid first raw).
Proof.
  unfold Packer.optimizeBricks.
  generalize (Packer.bricksByLayerColor raw). intros m.
  assert (G : forall acc, Forall placed acc ->
    Forall placed (fold_left (Packer.packGroup uuid first) m acc)).
  { induction m as [|[k cs] m IH]; intros acc Hacc; cbn [fold_left].
    - exact Hacc.
    - apply IH. unfold Packer.packGroup. now apply place_loop_placed. }
  apply G. constructor.
Qed.

(** The [k]-th brick of the output carries the [k]-th id drawn. *)
Lemma optimizeBricks_ids (uuid : nat -> string) (first : nat)
      (raw : list RawBrick) :
  let out := Packer.optimizeBricks uuid first raw in
  map id out = map uuid (seq first (length out)).
Proof.
  unfold Packer.optimizeBricks.
  generalize (Packer.bricksByLayerColor raw). intros m.
  assert (G : forall acc,
    map id acc = map uuid (seq first (length acc)) ->
    map id (fold_left (Packer.packGroup uuid first) m acc)
    = map uuid (seq first
                    (length (fold_left (Packer.packGroup uuid first) m acc)))).
  { induction m as [|[k cs] m IH]; intros acc Hacc; cbn [fold_left].
    - exact Hacc.
    - apply IH. unfold Packer.packGroup. now apply place_loop_ids. }
  now apply G.
Qed.

(** ** Lists of bricks with distinct, drawn ids *)

Section Ids.

Variable uuid : nat -> string.
Hypothesis uuid_inj : forall i j, uuid i = uuid j -> i = j.

Lemma issued_mono (n n' : nat) (i : string) :
  (n <= n')%nat -> issued uuid n i -> issued uuid n' i.
Proof. intros Hn (j & Hj & ->). exists j. split; [lia | reflexivity]. Qed.

Lemma boardOK_mono (n n' : nat) (b : Board) :
  (n <= n')%nat -> boardOK uuid n b -> boardOK uuid n' b.
Proof.
  intros Hn (Hnd & Hi). split; [assumption|].
  intros i Hin. eapply issued_mono; eauto.
Qed.

Lemma boardOK_perm (n : nat) (b b' : Board) :
  Permutation (map id b) (map id b') ->
  boardOK uuid n b -> boardOK uuid n b'.
Proof.
  intros P (Hnd & Hi). split.
  - now apply (Permutation_NoDup P).
  - intros i Hin. apply Hi. now apply (Permutation_in _ (Permutation_sym P)).
Qed.

Lemma boardOK_nil (n : nat) : boardOK uuid n [].
Proof. split; [constructor | intros i []]. Qed.

Lemma boardOK_app_l (n : nat) (b1 b2 : Board) :
  boardOK uuid n (b1 ++ b2) -> boardOK uuid n b1.
Proof.
  rewrite <- (app_nil_r b1) at 2. unfold boardOK. rewrite !map_app.
  intros (Hnd & Hi). split.
  - simpl. rewrite app_nil_r. now apply NoDup_app_remove_r in Hnd.
  - intros i Hin. apply Hi. simpl in Hin. rewrite app_nil_r in Hin.
    apply in_app_iff. now left.
Qed.

Lemma boardOK_app_r (n : nat) (b1 b2 : Board) :
  boardOK uuid n (b1 ++ b2) -> boardOK uuid n b2.
Proof.
  intros H. apply boardOK_app_l with b1.
  apply boardOK_perm with (b1 ++ b2); [|assumption].
  rewrite !map_app. apply Permutation_app_comm.
Qed.

Lemma NoDup_filter_app {A B : Type} (f : A -> B) (p : A -> bool)
      (l1 : list A) (l2 : list B) :
  NoDup (map f l1 ++ l2) -> NoDup (map f (filter p l1) ++ l2).
Proof.
  induction l1 as [|a l1 IH]; simpl; [auto|].
  intros H. inversion H as [|? ? Ha Hnd]; subst.
  destruct (p a); simpl; [|auto].
  constructor; [|auto].
  intros Hin. apply Ha. apply in_app_iff in Hin. apply in_app_iff.
  destruct Hin as [Hin | Hin]; [left | now right].
  apply in_map_iff in Hin. destruct Hin as (a' & <- & Ha').
  apply filter_In in Ha'. apply in_map. tauto.
Qed.

Lemma boardOK_filter (n : nat) (p : BrickData -> bool) (b1 b2 : Board) :
  boardOK uuid n (b1 ++ b2) -> boardOK uuid n (filter p b1 ++ b2).
Proof.
  unfold boardOK. rewrite !map_app. intros (Hnd & Hi). split.
  - now apply NoDup_filter_app.
  - intros i Hin. apply Hi. apply in_app_iff in Hin. apply in_app_iff.
    destruct Hin as [Hin | Hin]; [left | now right].
    apply in_map_iff in Hin. destruct Hin as (a' & <- & Ha').
    apply filter_In in Ha'. apply in_map. tauto.
Qed.

(** Bricks with freshly drawn ids join a list of drawn ones. *)
Lemma boardOK_fresh (n : nat) (b new : Board) :
  boardOK uuid n b ->
  map id new = map uuid (seq n (length new)) ->
  boardOK uuid (n + length new) (b ++ new).
Proof.
  intros (Hnd & Hi) Hnew. unfold boardOK. rewrite map_app, Hnew. split.
  - apply NoDup_app; [assumption | |].
    + apply Finite.Injective_map_NoDup; [exact uuid_inj | apply seq_NoDup].
    + intros i Hin Hin'. apply Hi in Hin. destruct Hin as (j & Hj & ->).
      apply in_map_iff in Hin'. destruct Hin' as (j' & E & Hj').
      apply uuid_inj in E. subst j'. apply in_seq in Hj'. lia.
  - intros i Hin. apply in_app_iff in Hin. destruct Hin as [Hin | Hin].
    + apply issued_mono with n; [lia | auto].
    + apply in_map_iff in Hin. destruct Hin as (j & <- & Hj).
      apply in_seq in Hj. exists j. split; [lia | reflexivity].
Qed.

Lemma history_save (n c : nat) (h : list Board) (b : Board) :
  Forall (boardOK uuid n) h -> boardOK uuid n b ->
  Forall (boardOK uuid n) (firstn c h ++ [b]).
Proof.
  intros Hh Hb. apply Forall_app. split.
  - apply Forall_forall. intros b' Hin. rewrite Forall_forall in Hh.
    apply Hh. rewrite <- (firstn_skipn c h). apply in_app_iff. now left.
  - constructor; [assumption | constructor].
Qed.

Lemma history_mono (n n' : nat) (h : list Board) :
  (n <= n')%nat ->
  Forall (boardOK uuid n) h -> Forall (boardOK uuid n') h.
Proof.
  intros Hn. apply Forall_impl. intros b. now apply boardOK_mono.
Qed.

End Ids.

(** ** The invariant of the state machine *)


Lemma in_saved_history (c : nat) (h : list Board) (nb b : Board) :
  In b (firstn c h ++ [nb]) -> In b h \/ b = nb.
Proof.
  intros Hin. apply in_app_iff in Hin. destruct Hin as [Hin | [E | []]].
  - left. rewrite <- (firstn_skipn c h). apply in_app_iff. now left.
  - now right.
Qed.

Lemma handleLiftBrick_absent (s : App.State) (i : string) :
  ~ In i (map id (App.bricks s)) -> App.handleLiftBrick s i = s.
Proof.
  intros Hn. unfold App.handleLiftBrick, App.getLiftableBricks.
  destruct (find (fun b => String.eqb (id b) i) (App.bricks s)) eqn:E.
  - exfalso. apply find_some in E. destruct E as (Hb & He).
    apply String.eqb_eq in He. subst i. apply Hn. now apply in_map.
  - replace (filter (fun b => App.includes [] (id b)) (App.bricks s))
      with (@nil BrickData); [reflexivity|].
    symmetry. clear. induction (App.bricks s); simpl; auto.
Qed.

Lemma map_id_withOffsets (a : BrickData) (l : list BrickData) :
  map id (map (App.withOffsets a) l) = map id l.
Proof. rewrite map_map. now apply map_ext. Qed.

Lemma map_id_proposed (ax ay az : Z) (l : list BrickData) :
  map id (map (App.proposed ax ay az) l) = map id l.
Proof. rewrite map_map. now apply map_ext. Qed.

Lemma map_id_rotateBrick (l : list BrickData) :
  map id (map App.rotateBrick l) = map id l.
Proof. rewrite map_map. now apply map_ext. Qed.

Section MachineInvariant.

Variable uuid : nat -> string.
Hypothesis uuid_inj : forall i j, uuid i = uuid j -> i = j.

Lemma machine_init : machineInv uuid App.init O.
Proof.
  constructor; simpl.
  - apply boardOK_nil.
  - constructor; [apply boardOK_nil | constructor].
  - constructor.
  - repeat constructor.
  - discriminate.
Qed.

(** A step that draws no id backwards, leaves a good board, and whose
    history holds old snapshots and the new board, keeps the invariant. *)
Lemma machine_update (s s' : App.State) (k k' : nat) :
  machineInv uuid s k ->
  (App.uuidCalls s <= App.uuidCalls s')%nat ->
  boardOK uuid (App.uuidCalls s') (App.bricks s' ++ held s') ->
  Forall placed (App.bricks s') ->
  (forall h, In h (App.history s') ->
             In h (App.history s) \/ h = App.bricks s') ->
  (forall g, App.liftedGroup s' = Some g -> groupShape g k') ->
  machineInv uuid s' k'.
Proof.
  intros [Hi Hh Hp Hhp Hs] Hn Hb Hpl Hhist Hshape. constructor; auto.
  - apply Forall_forall. intros h Hin.
    destruct (Hhist h Hin) as [Hold | ->].
    + rewrite Forall_forall in Hh.
      apply boardOK_mono with (App.uuidCalls s); auto.
    + now apply boardOK_app_l in Hb.
  - apply Forall_forall. intros h Hin.
    destruct (Hhist h Hin) as [Hold | ->]; [|assumption].
    rewrite Forall_forall in Hhp. auto.
Qed.

Lemma placed_filter (p : BrickData -> bool) (b : Board) :
  Forall placed b -> Forall placed (filter p b).
Proof.
  rewrite !Forall_forall. intros H a Ha. apply filter_In in Ha.
  apply H, Ha.
Qed.

Lemma machine_addBrick (s : App.State) (k : nat) (cx cy cz : Z) :
  machineInv uuid s k -> machineInv uuid (App.addBrick uuid s cx cy cz) k.
Proof.
  intros H. apply (machine_update s _ k); auto; simpl.
  - lia.
  - change (held (App.addBrick uuid s cx cy cz)) with (held s).
    unfold held. simpl. fold (held s).
    match goal with
    | |- boardOK _ _ ((_ ++ [?nb]) ++ _) =>
        apply boardOK_perm with ((App.bricks s ++ held s) ++ [nb])
    end.
    + rewrite !map_app. rewrite <- !app_assoc.
      apply Permutation_app_head, Permutation_app_comm.
    + apply (boardOK_fresh uuid uuid_inj (App.uuidCalls s)
                           (App.bricks s ++ held s) [_]);
        [apply (mi_ids _ _ _ H) | reflexivity].
  - apply Forall_app. split; [apply (mi_placed _ _ _ H)|].
    constructor; [repeat split | constructor].
  - intros h Hin. apply in_saved_history in Hin. destruct Hin; auto.
  - apply (mi_shape _ _ _ H).
Qed.

Lemma machine_liftBrick (s : App.State) (k : nat) (i : string) :
  machineInv uuid s k ->
  machineInv uuid (App.handleLiftBrick s i)
             (if JS.has (map id (App.bricks s)) i then O else k).
Proof.
  intros H. destruct (JS.has (map id (App.bricks s)) i) eqn:E.
  - apply has_In, in_map_iff in E. destruct E as (anchor & <- & Hin).
    assert (Hb : boardOK uuid (App.uuidCalls s) (App.bricks s))
      by apply (boardOK_app_l _ _ _ _ (mi_ids _ _ _ H)).
    destruct (handleLiftBrick_shape s anchor (proj1 Hb) Hin)
      as (ids & _ & Hc & ->).
    set (group := filter (fun b => App.includes ids (id b)) (App.bricks s)).
    set (rest := filter (fun b => negb (App.includes ids (id b)))
                        (App.bricks s)).
    assert (Hga : In anchor group).
    { apply filter_In. split; [assumption|]. apply includes_In.
      apply Hc; [assumption | apply collected_start]. }
    apply (machine_update s _ k); auto; simpl.
    + unfold held. simpl.
      apply boardOK_perm with (App.bricks s); [|assumption].
      rewrite map_app, map_id_withOffsets, <- map_app.
      apply Permutation_map, Permutation_sym, filter_partition.
    + apply placed_filter, (mi_placed _ _ _ H).
    + intros h Hh. apply in_saved_history in Hh. destruct Hh; auto.
    + intros g Hg. injection Hg as <-. split; simpl.
      * exists (App.withOffsets anchor anchor). split; [|reflexivity].
        now apply in_map.
      * intros m Hm. apply in_map_iff in Hm. destruct Hm as (b & <- & Hbg).
        apply filter_In in Hbg. destruct Hbg as (Hbb & Hinc).
        apply includes_In in Hinc. apply Hc in Hinc; [|assumption].
        simpl. split.
        -- intros Eid.
           assert (b = anchor) as ->
               by (apply (in_ids_unique (App.bricks s)); auto; apply Hb).
           rewrite !Z.sub_diag. auto.
        -- intros Nid. exists (y b - y anchor). split; [reflexivity|].
           apply collected_above_start in Hinc.
           destruct Hinc as [-> | Hlt]; [congruence | lia].
  - apply has_false in E. rewrite handleLiftBrick_absent by assumption.
    exact H.
Qed.

Lemma machine_dropGroup (s : App.State) (k : nat) (ax ay az : Z) :
  machineInv uuid s k -> machineInv uuid (App.handleDropGroup s ax ay az) k.
Proof.
  intros H. unfold App.handleDropGroup.
  destruct (App.liftedGroup s) as [g|] eqn:Hg; [|exact H].
  destruct (negb (App.hasCollision _ _)); [|exact H].
  apply (machine_update s _ k); auto; simpl.
  - unfold held. simpl. rewrite app_nil_r.
    apply boardOK_perm with (App.bricks s ++ held s);
      [|apply (mi_ids _ _ _ H)].
    unfold held. rewrite Hg, !map_app, map_id_proposed. reflexivity.
  - apply Forall_app. split; [apply (mi_placed _ _ _ H)|].
    apply Forall_forall. intros b Hb. apply in_map_iff in Hb.
    destruct Hb as (m & <- & _). repeat split.
  - intros h Hh. apply in_saved_history in Hh. destruct Hh; auto.
  - discriminate.
Qed.

Lemma machine_rotate (s : App.State) (k : nat) :
  machineInv uuid s k -> machineInv uuid (App.rotateLiftedGroup s) (S k).
Proof.
  intros H. unfold App.rotateLiftedGroup.
  destruct (App.liftedGroup s) as [g|] eqn:Hg.
  - apply (machine_update s _ k); auto; simpl.
    + unfold held. simpl.
      apply boardOK_perm with (App.bricks s ++ held s);
        [|apply (mi_ids _ _ _ H)].
      unfold held. rewrite Hg, !map_app, map_id_rotateBrick. reflexivity.
    + apply (mi_placed _ _ _ H).
    + intros g' Hg'. injection Hg' as <-.
      destruct (mi_shape _ _ _ H g Hg) as ((a & Ha & Ea) & Hm).
      split; simpl.
      * exists (App.rotateBrick a). split; [now apply in_map | exact Ea].
      * intros m' Hm'. apply in_map_iff in Hm'.
        destruct Hm' as (m & <- & Hin). destruct (Hm m Hin) as (H1 & H2).
        simpl. split.
        -- intros Eid. split; [now apply H1 | discriminate].
        -- exact H2.
  - apply (machine_update s _ k); auto; simpl.
    + apply (mi_ids _ _ _ H).
    + apply (mi_placed _ _ _ H).
    + unfold App.setRotated. simpl. rewrite Hg. discriminate.
Qed.

Lemma machine_removeBrick (s : App.State) (k : nat) (i : string) :
  machineInv uuid s k -> machineInv uuid (App.removeBrick s i) k.
Proof.
  intros H. apply (machine_update s _ k); auto; simpl.
  - apply boardOK_filter, (mi_ids _ _ _ H).
  - apply placed_filter, (mi_placed _ _ _ H).
  - intros h Hh. apply in_saved_history in Hh. destruct Hh; auto.
  - apply (mi_shape _ _ _ H).
Qed.

Lemma machine_clearBricks (s : App.State) (k : nat) :
  machineInv uuid s k -> machineInv uuid (App.clearBricks s) k.
Proof.
  intros H. apply (machine_update s _ k); auto; simpl.
  - apply boardOK_nil.
  - intros h Hh. apply in_saved_history in Hh. destruct Hh; auto.
  - discriminate.
Qed.

(** Moving the index: either a snapshot of the history becomes the board
    and the group is let go, or nothing but the index changes. *)
Lemma machine_jump (s : App.State) (k : nat) (newIndex : nat) :
  machineInv uuid s k ->
  machineInv uuid
    (match nth_error (App.history s) newIndex with
     | Some h =>
         App.setLiftedGroup (App.setBoard s h (App.history s) newIndex) None
     | None => App.setBoard s (App.bricks s) (App.history s) newIndex
     end) k.
Proof.
  intros H. destruct (nth_error (App.history s) newIndex) as [h|] eqn:E.
  - apply nth_error_In in E. pose proof (mi_history _ _ _ H) as Hh.
    pose proof (mi_history_placed _ _ _ H) as Hp.
    rewrite Forall_forall in Hh, Hp.
    apply (machine_update s _ k); auto; simpl.
    + unfold held. simpl. rewrite app_nil_r. now apply Hh.
    + discriminate.
  - apply (machine_update s _ k); auto; simpl.
    + apply (mi_ids _ _ _ H).
    + apply (mi_placed _ _ _ H).
    + apply (mi_shape _ _ _ H).
Qed.

Lemma machine_undo (s : App.State) (k : nat) :
  machineInv uuid s k -> machineInv uuid (App.undo s) k.
Proof.
  intros H. unfold App.undo.
  destruct (0 <? App.currentHistoryIndex s)%nat; [|exact H].
  now apply machine_jump.
Qed.

Lemma machine_redo (s : App.State) (k : nat) :
  machineInv uuid s k -> machineInv uuid (App.redo s) k.
Proof.
  intros H. unfold App.redo.
  destruct (App.currentHistoryIndex s <? length (App.history s) - 1)%nat;
    [|exact H].
  now apply machine_jump.
Qed.

Lemma machine_generateStart (s : App.State) (k : nat) :
  machineInv uuid s k -> machineInv uuid (App.generateStart s) k.
Proof.
  intros H. apply (machine_update s _ k); auto; simpl.
  - unfold held. simpl. rewrite app_nil_r.
    apply (boardOK_app_l _ _ _ _ (mi_ids _ _ _ H)).
  - apply (mi_placed _ _ _ H).
  - discriminate.
Qed.

Lemma machine_generateDone (s : App.State) (k : nat) (captured : nat)
      (result : list RawBrick) :
  machineInv uuid s k ->
  machineInv uuid (App.generateDone uuid captured s result) k.
Proof.
  intros H. unfold App.generateDone.
  set (raw := map _ result).
  set (out := Packer.optimizeBricks uuid (App.uuidCalls s) raw).
  set (sorted := JS.sort (fun a b => y a - y b) out).
  apply (machine_update s _ k); auto; simpl.
  - lia.
  - change (held (App.saveToHistoryFrom captured
                    (App.drawIds s (length sorted)) sorted))
      with (held s).
    apply boardOK_perm with (held s ++ out).
    + rewrite !map_app. rewrite Permutation_app_comm.
      apply Permutation_app_tail, Permutation_map, Permutation_sym,
        sort_perm.
    + unfold sorted. rewrite sort_length.
      apply (boardOK_fresh uuid uuid_inj).
      * apply (boardOK_app_r _ _ _ _ (mi_ids _ _ _ H)).
      * apply optimizeBricks_ids.
  - apply (Permutation_Forall (Permutation_sym (sort_perm _ out))).
    apply optimizeBricks_placed.
  - intros h Hh. apply in_saved_history in Hh. destruct Hh; auto.
  - apply (mi_shape _ _ _ H).
Qed.

(** A setter that touches neither the board, the history, the held
    group nor the id counter. *)
Ltac keeps_board H :=
  match type of H with
  | machineInv _ ?s ?k =>
      apply (machine_update s _ k); auto; simpl;
      [apply (mi_ids _ _ _ H) | apply (mi_placed _ _ _ H)
       | apply (mi_shape _ _ _ H)]
  end.

Lemma machine_track (sk : App.State * nat) (e : Event) :
  machineInv uuid (fst sk) (snd sk) ->
  machineInv uuid (fst (track uuid sk e)) (snd (track uuid sk e)).
Proof.
  destruct sk as [s k]. simpl. intros H. destruct e; simpl.
  - now apply machine_addBrick.
  - now apply machine_liftBrick.
  - now apply machine_dropGroup.
  - now apply machine_rotate.
  - now apply machine_removeBrick.
  - now apply machine_clearBricks.
  - now apply machine_undo.
  - now apply machine_redo.
  - now apply machine_generateStart.
  - now apply machine_generateDone.
  - keeps_board H.
  - keeps_board H.
  - keeps_board H.
Qed.

Lemma machine_runTracked (es : list Event) :
  machineInv uuid (fst (runTracked uuid es)) (snd (runTracked uuid es)).
Proof.
  unfold runTracked.
  assert (G : forall sk, machineInv uuid (fst sk) (snd sk) ->
    machineInv uuid (fst (fold_left (track uuid) es sk))
               (snd (fold_left (track uuid) es sk))).
  { induction es as [|e es IH]; intros sk Hsk; cbn [fold_left]; auto.
    apply IH. now apply machine_track. }
  apply G. simpl. apply machine_init.
Qed.

End MachineInvariant.

(** The tracked run passes through the states of the run. *)
Lemma runTracked_run (uuid : nat -> string) (es : list Event) :
  fst (runTracked uuid es) = run uuid es.
Proof.
  unfold runTracked, run.
  assert (G : forall s k,
    fst (fold_left (track uuid) es (s, k)) = fold_left (step uuid) es s).
  { induction es as [|e es IH]; intros s k; cbn [fold_left]; [reflexivity|].
    unfold track at 2. cbn [fst snd]. apply IH. }
  apply G.
Qed.

(** The boards the application reaches are the boards of the data model:
    their ids are distinct and their bricks carry no offsets. *)
Lemma reachable_board (uuid : nat -> string) (es : list Event) :
  (forall i j, uuid i = uuid j -> i = j) ->
  NoDup (map id (App.bricks (run uuid es)))
  /\ Forall placed (App.bricks (run uuid es)).
Proof.
  intros Hinj. pose proof (machine_runTracked uuid Hinj es) as H.
  rewrite runTracked_run in H. split.
  - apply (boardOK_app_l _ _ _ _ (mi_ids _ _ _ H)).
  - apply (mi_placed _ _ _ H).
Qed.

Lemma numStr_nat_inj (i j : nat) :
  JS.numStr (Z.of_nat i) = JS.numStr (Z.of_nat j) -> i = j.
Proof. intros H. apply numStr_inj in H. lia. Qed.




(* ===================================================================== *)
(** * The order of the packer's output *)
(* ===================================================================== *)

Lemma has_mhas (m : JS.StrMap) (k : string) :
  JS.has (map fst m) k = JS.mhas m k.
Proof.
  unfold JS.has, JS.mhas. induction m as [|e m IH]; simpl; [reflexivity|].
  now rewrite IH.
Qed.

Lemma groupVoxel_keys (m : JS.StrMap) (v : RawBrick) :
  map fst (Packer.groupVoxel m v)
  = JS.add (map fst m) (Packer.groupKey (ry v) (rcolor v)).
Proof.
  unfold Packer.groupVoxel, JS.add. rewrite has_mhas.
  destruct (JS.mhas m (Packer.groupKey (ry v) (rcolor v))) eqn:E.
  - apply madd_keys.
  - unfold JS.mset. rewrite E, madd_keys, map_app. reflexivity.
Qed.

(** The map lists the groups in the order their keys are first met. *)
Lemma bricksByLayerColor_keys (raw : list RawBrick) :
  map fst (Packer.bricksByLayerColor raw) = keyOrder raw.
Proof.
  unfold Packer.bricksByLayerColor, keyOrder.
  change (@nil string) with (map fst (@nil (string * JS.StrSet))).
  generalize (@nil (string * JS.StrSet)).
  induction raw as [|v raw IH]; intros m; cbn [fold_left]; [reflexivity|].
  rewrite IH. now rewrite groupVoxel_keys.
Qed.

Lemma flat_map_pointwise {A B : Type} (f g : A -> list B) (l : list A) :
  (forall a, In a l -> f a = g a) -> flat_map f l = flat_map g l.
Proof.
  induction l as [|a l IH]; intros H; simpl; [reflexivity|].
  rewrite (H a) by now left. f_equal. apply IH. intros; apply H. now right.
Qed.

Lemma lookup_shapes (m1 m2 : JS.StrMap) (k : string) :
  wfMap m1 -> wfMap m2 ->
  (forall c, holds m1 k c <-> holds m2 k c) ->
  groupShapes (k, lookup m1 k) = groupShapes (k, lookup m2 k).
Proof.
  intros W1 W2 Hh. apply groupShapes_Permutation.
  apply NoDup_Permutation; try now apply lookup_NoDup.
  intros c. rewrite <- !holds_lookup by apply W1 || apply W2. apply Hh.
Qed.

(** Two maps with the same keys in the same order and the same content
    give the same bricks in the same order. *)
Lemma shapes_same_order (m1 m2 : JS.StrMap) :
  wfMap m1 -> wfMap m2 ->
  map fst m1 = map fst m2 ->
  (forall k c, holds m1 k c <-> holds m2 k c) ->
  flat_map groupShapes m1 = flat_map groupShapes m2.
Proof.
  intros W1 W2 Hk Hh.
  rewrite (flat_map_keys m1), (flat_map_keys m2) by apply W1 || apply W2.
  rewrite Hk. apply flat_map_pointwise. intros k _.
  apply lookup_shapes; auto.
Qed.

Lemma same_voxels_same_content (raw1 raw2 : list RawBrick) :
  (forall v, In v raw1 <-> In v raw2) ->
  forall k c,
    holds (Packer.bricksByLayerColor raw1) k c
    <-> holds (Packer.bricksByLayerColor raw2) k c.
Proof.
  intros Hsame k c.
  destruct (bricksByLayerColor_spec raw1) as (_ & _ & H1).
  destruct (bricksByLayerColor_spec raw2) as (_ & _ & H2).
  rewrite H1, H2. split; intros (v & Hv & E); exists v;
    (split; [now apply Hsame | assumption]).
Qed.

Lemma same_order_same_shapes (uuid1 uuid2 : nat -> string)
      (first1 first2 : nat) (raw1 raw2 : list RawBrick) :
  (forall v, In v raw1 <-> In v raw2) ->
  keyOrder raw1 = keyOrder raw2 ->
  map eraseId (Packer.optimizeBricks uuid1 first1 raw1)
  = map eraseId (Packer.optimizeBricks uuid2 first2 raw2).
Proof.
  intros Hsame Hk. rewrite !optimizeBricks_shapes.
  destruct (bricksByLayerColor_spec raw1) as (W1 & _).
  destruct (bricksByLayerColor_spec raw2) as (W2 & _).
  apply shapes_same_order; auto.
  - now rewrite !bricksByLayerColor_keys.
  - now apply same_voxels_same_content.
Qed.

Lemma keyOrder_spec (raw : list RawBrick) :
  NoDup (keyOrder raw)
  /\ forall k, In k (keyOrder raw)
               <-> exists v, In v raw
                             /\ k = Packer.groupKey (ry v) (rcolor v).
Proof.
  rewrite <- bricksByLayerColor_keys.
  destruct (bricksByLayerColor_spec raw) as ((Hnd & _) & Hk & _). auto.
Qed.

Lemma groupOf_In (k : string) (raw : list RawBrick) (v : RawBrick) :
  In v (groupOf k raw)
  <-> In v raw /\ Packer.groupKey (ry v) (rcolor v) = k.
Proof. unfold groupOf. now rewrite filter_In, String.eqb_eq. Qed.

Lemma NoDup_single {A : Type} (k : A) (l1 l2 : list A) :
  NoDup l1 -> NoDup l2 ->
  (forall a, In a l1 <-> In a l2) ->
  (forall a, In a l1 -> a = k) ->
  l1 = l2.
Proof.
  intros N1 N2 Hsame Hk.
  assert (S1 : forall l, NoDup l -> (forall a, In a l -> a = k) ->
                 l = [] \/ l = [k]).
  { intros l N H. destruct l as [|a [|b l]]; auto.
    - right. f_equal. apply H. now left.
    - exfalso. inversion N as [|? ? Hn _]; subst. apply Hn.
      rewrite (H a) by now left. rewrite (H b) by (right; now left).
      now left. }
  destruct (S1 l1 N1 Hk) as [-> | ->],
           (S1 l2 N2 (fun a Ha => Hk a (proj2 (Hsame a) Ha))) as [-> | ->];
    auto.
  - exfalso. apply (proj2 (Hsame k)). now left.
  - exfalso. apply (proj1 (Hsame k)). now left.
Qed.

(** The bricks of one group do not depend on the order of the input. *)
Lemma group_shapes_same (uuid1 uuid2 : nat -> string) (first1 first2 : nat)
      (raw1 raw2 : list RawBrick) (k : string) :
  (forall v, In v raw1 <-> In v raw2) ->
  map eraseId (Packer.optimizeBricks uuid1 first1 (groupOf k raw1))
  = map eraseId (Packer.optimizeBricks uuid2 first2 (groupOf k raw2)).
Proof.
  intros Hsame.
  assert (Hg : forall v, In v (groupOf k raw1) <-> In v (groupOf k raw2)).
  { intros v. rewrite !groupOf_In, Hsame. tauto. }
  apply same_order_same_shapes; [exact Hg|].
  destruct (keyOrder_spec (groupOf k raw1)) as (N1 & K1).
  destruct (keyOrder_spec (groupOf k raw2)) as (N2 & K2).
  apply (NoDup_single k); auto.
  - intros a. rewrite K1, K2. split; intros (v & Hv & E); exists v;
      (split; [now apply Hg | assumption]).
  - intros a Ha. apply K1 in Ha. destruct Ha as (v & Hv & ->).
    now apply groupOf_In in Hv.
Qed.

(** The bricks a group contributes are those the packer emits for the
    voxels of the group alone. *)
Lemma group_alone (uuid : nat -> string) (first : nat)
      (raw : list RawBrick) (k : string) :
  In k (keyOrder raw) ->
  map eraseId (Packer.optimizeBricks uuid first (groupOf k raw))
  = groupShapes (k, lookup (Packer.bricksByLayerColor raw) k).
Proof.
  intros Hk. rewrite optimizeBricks_shapes.
  destruct (bricksByLayerColor_spec raw) as (W & _ & H).
  destruct (bricksByLayerColor_spec (groupOf k raw)) as (W' & _ & H').
  rewrite (flat_map_keys _ (proj1 W')), bricksByLayerColor_keys.
  destruct (keyOrder_spec (groupOf k raw)) as (N' & K').
  assert (E : keyOrder (groupOf k raw) = [k]).
  { apply (NoDup_single k); auto.
    - constructor; [intros [] | constructor].
    - intros a. rewrite K'. split.
      + intros (v & Hv & ->). apply groupOf_In in Hv. left. symmetry.
        apply Hv.
      + intros [<- | []]. apply keyOrder_spec in Hk.
        destruct Hk as (v & Hv & ->). exists v. split; [|reflexivity].
        now apply groupOf_In.
    - intros a Ha. apply K' in Ha. destruct Ha as (v & Hv & ->).
      now apply groupOf_In in Hv. }
  rewrite E. simpl. rewrite app_nil_r. apply lookup_shapes; auto.
  intros c. rewrite H, H'. split.
  - intros (v & Hv & Ek & Ec). apply groupOf_In in Hv. exists v. tauto.
  - intros (v & Hv & Ek & Ec). exists v. split; [|auto].
    apply groupOf_In. auto.
Qed.

Lemma same_shapes_same_ids (l1 l2 : list BrickData) :
  map eraseId l1 = map eraseId l2 -> map id l1 = map id l2 -> l1 = l2.
Proof.
  revert l2. induction l1 as [|a l1 IH]; intros [|b l2]; simpl;
    try discriminate; [reflexivity|].
  intros He Hi. injection He as Ha He. injection Hi as Hi0 Hi.
  f_equal; [|now apply IH].
  destruct a, b. unfold eraseId in Ha. simpl in *. congruence.
Qed.

(** C7, amended.  Two inputs with the same voxels, in any order and with
    any repetitions, give the same bricks (positions, sizes, colors and
    rotations) with the same multiplicities.  The output lists the
    groups in the order in which their keys are first met in the input,
    each group by the bricks the packer emits for the voxels of that
    group alone, and the bricks of a group do not depend on the order of
    the input.  So only the order of the groups may differ: when the
    keys are first met in the same order in both inputs the two outputs
    are the same list up to the ids, and the same list altogether when
    the ids are drawn from the same oracle. *)
Theorem packing_determinism_up_to_order :
  forall (uuid1 uuid2 : nat -> string) (first1 first2 : nat)
         (raw1 raw2 : list RawBrick),
    (forall v, In v raw1 <-> In v raw2) ->
    let out1 := Packer.optimizeBricks uuid1 first1 raw1 in
    let out2 := Packer.optimizeBricks uuid2 first2 raw2 in
    Permutation (map eraseId out1) (map eraseId out2)
    /\ map eraseId out1
       = flat_map (fun k => map eraseId
                              (Packer.optimizeBricks uuid1 first1
                                                     (groupOf k raw1)))
                  (keyOrder raw1)
    /\ (forall k,
           map eraseId (Packer.optimizeBricks uuid1 first1 (groupOf k raw1))
           = map eraseId (Packer.optimizeBricks uuid2 first2
                                                (groupOf k raw2)))
    /\ (keyOrder raw1 = keyOrder raw2 ->
        map eraseId out1 = map eraseId out2
        /\ Packer.optimizeBricks uuid1 first1 raw2 = out1).
Proof.
  intros uuid1 uuid2 first1 first2 raw1 raw2 Hsame out1 out2.
  subst out1 out2. split; [|split; [|split]].
  - rewrite !optimizeBricks_shapes.
    destruct (bricksByLayerColor_spec raw1) as (W1 & K1 & _).
    destruct (bricksByLayerColor_spec raw2) as (W2 & K2 & _).
    apply shapes_same_content; auto.
    + intros k. rewrite K1, K2. split; intros (v & Hv & E); exists v;
        (split; [now apply Hsame | assumption]).
    + now apply same_voxels_same_content.
  - rewrite optimizeBricks_shapes.
    destruct (bricksByLayerColor_spec raw1) as (W1 & _).
    rewrite (flat_map_keys _ (proj1 W1)), bricksByLayerColor_keys.
    apply flat_map_pointwise. intros k Hk. symmetry.
    now apply group_alone.
  - intros k. now apply group_shapes_same.
  - intros Hk. split; [now apply same_order_same_shapes|].
    apply same_shapes_same_ids.
    + apply same_order_same_shapes; [|now symmetry].
      intros v. symmetry. apply Hsame.
    + pose proof (same_order_same_shapes uuid1 uuid1 first1 first1
                    raw2 raw1) as E.
      assert (El : length (Packer.optimizeBricks uuid1 first1 raw2)
                   = length (Packer.optimizeBricks uuid1 first1 raw1)).
      { rewrite <- (length_map eraseId), E, length_map; auto.
        intros v. symmetry. apply Hsame. }
      rewrite (optimizeBricks_ids uuid1 first1 raw2).
      rewrite (optimizeBricks_ids uuid1 first1 raw1).
      cbv zeta. now rewrite El.
Qed.

Lemma packing_determinism_up_to_order_witness :
  let uuid := fun n : nat => JS.numStr (Z.of_nat n) in
  let raw1 := [mkRaw 0 0 0 "#F00"; mkRaw 5 0 0 "#00F"; mkRaw 1 0 0 "#F00"] in
  let raw2 := [mkRaw 1 0 0 "#F00"; mkRaw 5 0 0 "#00F"; mkRaw 0 0 0 "#F00";
               mkRaw 5 0 0 "#00F"] in
  Permutation (map eraseId (Packer.optimizeBricks uuid 0 raw1))
              (map eraseId (Packer.optimizeBricks uuid 7 raw2))
  /\ Packer.optimizeBricks uuid 0 raw2 = Packer.optimizeBricks uuid 0 raw1.
Proof.
  intros uuid raw1 raw2.
  destruct (packing_determinism_up_to_order uuid uuid 0%nat 7%nat raw1 raw2)
    as (H1 & _ & _ & H4).
  - intros v. simpl. intuition.
  - split; [exact H1|]. apply H4. reflexivity.
Defined.

(* ===================================================================== *)
(** * Properties of the placement requests *)
(* ===================================================================== *)

(** The half side of the board. *)
Lemma half_board : MAX_BOARD_SIZE / 2 = 10 /\ - MAX_BOARD_SIZE / 2 = -10.
Proof. split; reflexivity. Qed.

(** On the ground plane the bounds are checked: a pointer position
    outside the board clears the hover position, and the click that
    follows places nothing. *)
Lemma plane_click_out_of_bounds (uuid : nat -> string) (s : Scene.State)
      (px pz : Z) :
  px < -10 \/ 10 < px \/ pz < -10 \/ 10 < pz ->
  let s' := Scene.handleClick uuid (Scene.handlePointerMove s px pz) in
  Scene.hoverPos s' = None /\ Scene.app s' = Scene.app s.
Proof.
  intros Hout s'. subst s'. unfold Scene.handlePointerMove.
  destruct (negb (Scene.isBuildOrMove (App.toolMode (Scene.app s)))).
  - unfold Scene.handleClick. simpl.
    destruct (App.toolMode (Scene.app s)); auto.
  - replace ((px <? - MAX_BOARD_SIZE / 2) || (px >? MAX_BOARD_SIZE / 2)
             || (pz <? - MAX_BOARD_SIZE / 2) || (pz >? MAX_BOARD_SIZE / 2))
      with true.
    + unfold Scene.handleClick. simpl.
      destruct (App.toolMode (Scene.app s)); auto.
    + symmetry. destruct half_board as (-> & ->).
      rewrite !orb_true_iff, !Z.ltb_lt, !Z.gtb_lt. lia.
Qed.

(** [addBrick] itself checks nothing: whatever the coordinates, the brick
    is appended to the board and one history entry is made. *)
Lemma addBrick_unchecked (uuid : nat -> string) (s : App.State)
      (cx cy cz : Z) :
  let s' := App.addBrick uuid s cx cy cz in
  exists b,
    App.bricks s' = App.bricks s ++ [b]
    /\ x b = cx /\ y b = cy /\ z b = cz
    /\ App.currentHistoryIndex s' = S (App.currentHistoryIndex s).
Proof.
  intros s'. subst s'. unfold App.addBrick. simpl. eexists.
  split; [reflexivity|]. simpl. repeat split. lia.
Qed.

(** C8. A placement request outside the board is not always ignored.
    In BUILD mode, a brick is placed on the ground at the edge of the
    board, [x = 10]; a click on its side face that looks outward asks for
    the cell next to it, [x = 11], and [onBrickClick] hands that to
    [addBrick] without the bounds check the ground plane applies: the
    brick is added at [x = 11 > MAX_BOARD_SIZE / 2] and a history entry
    is created. *)
Theorem out_of_bounds_placement_accepted :
  forall uuid : nat -> string,
    let s0 := Scene.mkState (App.setToolMode App.init BUILD) None in
    let s1 := Scene.handleClick uuid (Scene.handlePointerMove s0 10 0) in
    let edge := mkBrick (uuid 0%nat) 10 0 0 RED (Some 1) (Some 1) (Some 0)
                        None None None None in
    let click := Scene.mkEvent 10 0 (Some (Scene.mkNormal false 1 0 0)) in
    let s2 := Scene.onBrickClick uuid s1 click edge in
    App.bricks (Scene.app s1) = [edge]
    /\ App.bricks (Scene.app s2)
       = [edge;
          mkBrick (uuid 1%nat) 11 0 0 RED (Some 1) (Some 1) (Some 0)
                  None None None None]
    /\ MAX_BOARD_SIZE / 2 < 11
    /\ length (App.history (Scene.app s2))
       = S (length (App.history (Scene.app s1)))
    /\ App.currentHistoryIndex (Scene.app s2)
       = S (App.currentHistoryIndex (Scene.app s1)).
Proof.
  intros uuid. cbv zeta. repeat split.
Qed.

(* ===================================================================== *)
(** * Further properties of the history hook *)
(* ===================================================================== *)

Lemma state_eq (s : UseHistory.State) (b : Board) (h : list Board) (i : nat) :
  UseHistory.bricks s = b -> UseHistory.history s = h ->
  UseHistory.currentHistoryIndex s = i ->
  UseHistory.mkState b h i = s.
Proof. destruct s. simpl. now intros -> -> ->. Qed.

Lemma redo_after_undo (s : UseHistory.State) :
  UseHistory.wf s -> UseHistory.synced s ->
  UseHistory.canUndo s = true ->
  UseHistory.redo (UseHistory.undo s) = s.
Proof.
  intros Hwf Hs. unfold UseHistory.wf, UseHistory.synced in *.
  unfold UseHistory.canUndo. intros Hc. apply Nat.ltb_lt in Hc.
  unfold UseHistory.undo. rewrite (proj2 (Nat.ltb_lt _ _) Hc).
  destruct (nth_error (UseHistory.history s)
                      (UseHistory.currentHistoryIndex s - 1)) eqn:E.
  - unfold UseHistory.redo. simpl.
    replace (UseHistory.currentHistoryIndex s - 1
             <? length (UseHistory.history s) - 1)%nat with true
      by (symmetry; apply Nat.ltb_lt; lia).
    replace (UseHistory.currentHistoryIndex s - 1 + 1)%nat
      with (UseHistory.currentHistoryIndex s) by lia.
    rewrite Hs. now apply state_eq.
  - apply nth_error_None in E. lia.
Qed.

Lemma undo_after_redo (s : UseHistory.State) :
  UseHistory.wf s -> UseHistory.synced s ->
  UseHistory.canRedo s = true ->
  UseHistory.undo (UseHistory.redo s) = s.
Proof.
  intros Hwf Hs. unfold UseHistory.wf, UseHistory.synced in *.
  unfold UseHistory.canRedo. intros Hc. apply Nat.ltb_lt in Hc.
  unfold UseHistory.redo. rewrite (proj2 (Nat.ltb_lt _ _) Hc).
  destruct (nth_error (UseHistory.history s)
                      (UseHistory.currentHistoryIndex s + 1)) eqn:E.
  - unfold UseHistory.undo. simpl.
    replace (0 <? UseHistory.currentHistoryIndex s + 1)%nat with true
      by (symmetry; apply Nat.ltb_lt; lia).
    replace (UseHistory.currentHistoryIndex s + 1 - 1)%nat
      with (UseHistory.currentHistoryIndex s) by lia.
    rewrite Hs. now apply state_eq.
  - apply nth_error_None in E. lia.
Qed.

(** X1. On a state whose index is within bounds and whose board is the
    snapshot under the index, undo and redo are inverse to each other:
    when undo is possible, a redo after it gives the state back, and when
    redo is possible, an undo after it gives the state back. *)
Theorem undo_redo_inverse :
  forall s : UseHistory.State,
    UseHistory.wf s -> UseHistory.synced s ->
    (UseHistory.canUndo s = true ->
     UseHistory.redo (UseHistory.undo s) = s)
    /\ (UseHistory.canRedo s = true ->
        UseHistory.undo (UseHistory.redo s) = s).
Proof.
  intros s Hwf Hs. split; [now apply redo_after_undo | now apply undo_after_redo].
Qed.

Lemma undo_redo_inverse_witness :
  let b := [mkBrick "a" 0 0 0 RED (Some 1) (Some 1) (Some 0)
                    None None None None] in
  let s := UseHistory.mkState b [[]; b; []] 1 in
  UseHistory.redo (UseHistory.undo s) = s
  /\ UseHistory.undo (UseHistory.redo s) = s.
Proof.
  intros b s.
  assert (Hwf : UseHistory.wf s) by (unfold UseHistory.wf; simpl; lia).
  assert (Hs : UseHistory.synced s) by reflexivity.
  split.
  - apply (proj1 (undo_redo_inverse s Hwf Hs)). reflexivity.
  - apply (proj2 (undo_redo_inverse s Hwf Hs)). reflexivity.
Defined.

Lemma undo_keeps (s : UseHistory.State) :
  UseHistory.wf s -> UseHistory.synced s ->
  UseHistory.wf (UseHistory.undo s) /\ UseHistory.synced (UseHistory.undo s).
Proof.
  intros Hwf Hs.
  destruct (Nat.eq_dec (UseHistory.currentHistoryIndex s) 0) as [E | E].
  - unfold UseHistory.undo. rewrite E. simpl. auto.
  - destruct (undo_step s Hwf) as (H1 & H2 & H3); [lia|].
    split; [|assumption]. unfold UseHistory.wf in *. rewrite H1, H2. lia.
Qed.

Lemma redo_keeps (s : UseHistory.State) :
  UseHistory.wf s -> UseHistory.synced s ->
  UseHistory.wf (UseHistory.redo s) /\ UseHistory.synced (UseHistory.redo s).
Proof.
  intros Hwf Hs.
  destruct (Nat.ltb_spec (UseHistory.currentHistoryIndex s)
              (length (UseHistory.history s) - 1)) as [Hlt | Hge].
  - destruct (redo_step s) as (H1 & H2 & H3); [lia|].
    split; [|assumption]. unfold UseHistory.wf in *. rewrite H1, H2. lia.
  - unfold UseHistory.redo.
    rewrite (proj2 (Nat.ltb_ge _ _) Hge). auto.
Qed.

(** X2. Whatever commits, undos and redos follow one another from the
    first render of the hook, as long as every commit is made by the
    closure of the render it happens in (the index it captured is the
    current one), the index stays within the bounds of the history and
    the live board is the snapshot under the index. *)
Theorem history_invariant :
  forall (initialBricks : Board) (ops : list HistoryOp),
    timelyOps (UseHistory.init initialBricks) ops ->
    let s := runOps ops (UseHistory.init initialBricks) in
    UseHistory.wf s /\ UseHistory.synced s.
Proof.
  intros initialBricks ops.
  assert (G : forall s, UseHistory.wf s /\ UseHistory.synced s ->
    timelyOps s ops ->
    UseHistory.wf (fold_left applyOp ops s)
    /\ UseHistory.synced (fold_left applyOp ops s)).
  { induction ops as [|o ops IH]; intros s Hs Hops; cbn [fold_left]; auto.
    destruct Hops as (Ho & Hrest). apply IH; [|exact Hrest].
    destruct Hs as (Hwf & Hsy). destruct o; simpl in *.
    - subst captured.
      split; [now apply save_wf | now apply save_synced].
    - now apply undo_keeps.
    - now apply redo_keeps. }
  intros Ht. cbv zeta. unfold runOps. apply G; [|exact Ht].
  split; [unfold UseHistory.wf; simpl; lia | reflexivity].
Qed.

Lemma history_invariant_witness :
  let a := [mkBrick "a" 0 0 0 RED (Some 1) (Some 1) (Some 0)
                    None None None None] in
  let ops := [Commit 0 a; Commit 1 []; UndoOp; UndoOp; RedoOp; Commit 1 a;
              RedoOp; UndoOp] in
  UseHistory.synced (runOps ops (UseHistory.init [])).
Proof.
  intros a ops. apply (history_invariant [] ops). repeat split.
Defined.

(** X3. An undo right after a commit made by the closure of the current
    render (the index it captured is the current one) gives back the
    board and the index of before the commit, and the committed snapshot
    is kept for redo: a redo after that undo gives the committed state
    again. *)
Theorem undo_reverts_commit :
  forall (s : UseHistory.State) (captured : nat) (b : Board),
    UseHistory.wf s -> UseHistory.synced s ->
    captured = UseHistory.currentHistoryIndex s ->
    let u := UseHistory.undo (UseHistory.saveToHistory captured s b) in
    UseHistory.bricks u = UseHistory.bricks s
    /\ UseHistory.currentHistoryIndex u = UseHistory.currentHistoryIndex s
    /\ UseHistory.redo u = UseHistory.saveToHistory captured s b.
Proof.
  intros s captured b Hwf Hs -> u.
  change (UseHistory.saveToHistory (UseHistory.currentHistoryIndex s) s b)
    with (UseHistory.commit s b) in *.
  pose proof (save_wf s b Hwf) as Hwf'.
  pose proof (save_synced s b Hwf) as Hs'.
  destruct (undo_step (UseHistory.commit s b) Hwf')
    as (H1 & H2 & H3); [simpl; lia|].
  fold u in H1, H2, H3. simpl in H2.
  assert (Ei : UseHistory.currentHistoryIndex u
               = UseHistory.currentHistoryIndex s) by lia.
  split; [|split; [exact Ei|]].
  - unfold UseHistory.synced in H3, Hs. rewrite H1, Ei in H3. simpl in H3.
    unfold UseHistory.wf in Hwf.
    rewrite nth_error_app1 in H3 by (rewrite length_firstn; lia).
    rewrite nth_error_firstn in H3.
    replace (UseHistory.currentHistoryIndex s
             <? UseHistory.currentHistoryIndex s + 1)%nat with true in H3
      by (symmetry; apply Nat.ltb_lt; lia).
    congruence.
  - apply (redo_after_undo _ Hwf' Hs').
    unfold UseHistory.canUndo. apply Nat.ltb_lt. simpl. lia.
Qed.

Lemma undo_reverts_commit_witness :
  let b := [mkBrick "a" 0 0 0 RED (Some 1) (Some 1) (Some 0)
                    None None None None] in
  let s := UseHistory.init [] in
  UseHistory.bricks (UseHistory.undo (UseHistory.saveToHistory 0 s b))
  = UseHistory.bricks s.
Proof.
  intros b s. apply (undo_reverts_commit s 0%nat b).
  - unfold UseHistory.wf. simpl. lia.
  - reflexivity.
  - reflexivity.
Defined.

(** X4. [canUndo] and [canRedo] say exactly when the operation does
    something: undo leaves the state as it is if and only if [canUndo] is
    false, and redo if and only if [canRedo] is false. *)
Theorem can_flags_exact :
  forall s : UseHistory.State,
    (UseHistory.undo s = s <-> UseHistory.canUndo s = false)
    /\ (UseHistory.redo s = s <-> UseHistory.canRedo s = false).
Proof.
  intros s. unfold UseHistory.canUndo, UseHistory.canRedo. split; split.
  - intros H. apply Nat.ltb_ge.
    destruct (Nat.eq_dec (UseHistory.currentHistoryIndex s) 0); [lia|].
    exfalso. apply (f_equal UseHistory.currentHistoryIndex) in H.
    unfold UseHistory.undo in H.
    replace (0 <? UseHistory.currentHistoryIndex s)%nat with true in H
      by (symmetry; apply Nat.ltb_lt; lia).
    destruct (nth_error _ _) in H; simpl in H; lia.
  - intros H. unfold UseHistory.undo. now rewrite H.
  - intros H. apply Nat.ltb_ge.
    destruct (Nat.ltb_spec (UseHistory.currentHistoryIndex s)
                (length (UseHistory.history s) - 1)) as [Hlt | Hge]; [|lia].
    exfalso. apply (f_equal UseHistory.currentHistoryIndex) in H.
    unfold UseHistory.redo in H.
    rewrite (proj2 (Nat.ltb_lt _ _) Hlt) in H.
    destruct (nth_error _ _) in H; simpl in H; lia.
  - intros H. unfold UseHistory.redo. now rewrite H.
Qed.

(* ===================================================================== *)
(** * Further properties of the connectivity engine *)
(* ===================================================================== *)

(** The upward traversal from any state of its loop, on any board. *)
Lemma traverse_any (board : Board) (fuel : nat) :
  forall (q : list BrickData) (r : JS.StrSet),
    (length q + unvisited board r <= fuel)%nat ->
    NoDup r ->
    exists ids,
      App.traverse fuel board q r = Some ids
      /\ NoDup ids
      /\ (forall j, In j r -> In j ids)
      /\ (forall j, In j ids -> In j r \/ In j (map id board)).
Proof.
  induction fuel as [|fuel IH]; intros q r Hfuel Hnd.
  - destruct q; simpl in *; [|lia]. exists r. auto.
  - destruct q as [|c rest]; simpl.
    + exists r. auto.
    + pose proof (unvisited_step board r c) as Hm.
      destruct (IH (rest ++ App.supported board r c)
                   (fold_left (fun r b => JS.add r (id b))
                              (App.supported board r c) r))
        as (ids & E & N & S1 & S2).
      * rewrite length_app. simpl in Hfuel. lia.
      * now apply add_ids_NoDup.
      * exists ids. repeat split; auto.
        -- intros j Hj. apply S1, add_ids_In. now left.
        -- intros j Hj. apply S2 in Hj. destruct Hj as [Hj | Hj]; [|auto].
           apply add_ids_In in Hj. destruct Hj as [Hj | (b & Hb & <-)]; [auto|].
           right. apply in_map. unfold App.supported in Hb.
           apply filter_In in Hb. tauto.
Qed.

Lemma upward_traversal_ids (board : Board) (startId : string) :
  exists ids,
    App.getLiftableBricks startId board = Some ids
    /\ (In startId (map id board) -> In startId ids).
Proof.
  unfold App.getLiftableBricks.
  destruct (find (fun b => String.eqb (id b) startId) board) as [sb|] eqn:E.
  - destruct (traverse_any board (S (length board)) [sb] [startId])
      as (ids & Et & N & S1 & S2).
    + pose proof (unvisited_le board [startId]). simpl. lia.
    + constructor; [intros [] | constructor].
    + exists ids. split; [assumption|]. intros _. apply S1. now left.
  - exists []. split; [reflexivity|]. intros Hin. exfalso.
    apply in_map_iff in Hin. destruct Hin as (b & Eb & Hb).
    apply (find_none _ _ E) in Hb. rewrite Eb, String.eqb_refl in Hb.
    discriminate.
Qed.

(** X5. On every board, also one with repeated ids, the upward
    traversal finishes within its bound of iterations.  Its result has no
    repeats and holds only ids of bricks of the board; it holds the start
    id when that id is on the board and is empty otherwise. *)
Theorem upward_traversal_finishes :
  forall (board : Board) (startId : string),
    exists ids,
      App.getLiftableBricks startId board = Some ids
      /\ NoDup ids
      /\ (forall j, In j ids -> In j (map id board))
      /\ (In startId ids <-> In startId (map id board))
      /\ (length ids <= length board)%nat.
Proof.
  intros board startId. unfold App.getLiftableBricks.
  assert (Hlen : forall ids, NoDup ids ->
            (forall j, In j ids -> In j (map id board)) ->
            (length ids <= length board)%nat).
  { intros ids Hn Hi. rewrite <- (length_map id board).
    now apply NoDup_incl_length. }
  destruct (find (fun b => String.eqb (id b) startId) board) as [sb|] eqn:E.
  - apply find_some in E. destruct E as (Hsb & He).
    apply String.eqb_eq in He.
    assert (Hin : In startId (map id board)) by (rewrite <- He; now apply in_map).
    destruct (traverse_any board (S (length board)) [sb] [startId])
      as (ids & Et & N & S1 & S2).
    + pose proof (unvisited_le board [startId]). simpl. lia.
    + constructor; [intros [] | constructor].
    + assert (Hsub : forall j, In j ids -> In j (map id board)).
      { intros j Hj. apply S2 in Hj. destruct Hj as [[<- | []] | Hj]; auto. }
      exists ids. repeat split; auto.
      intros _. apply S1. now left.
  - exists []. split; [reflexivity|]. split; [constructor|].
    split; [intros j []|]. split; [|simpl; lia]. split; [intros []|].
    intros Hin. apply in_map_iff in Hin. destruct Hin as (b & Eb & Hb).
    apply (find_none _ _ E) in Hb. rewrite Eb, String.eqb_refl in Hb.
    discriminate.
Qed.

(** ** The full-adjacency traversal *)







Section FullTraversal.

Variable board : Board.
Variable start : BrickData.
Hypothesis ids_unique : NoDup (map id board).
Hypothesis start_on_board : In start board.







End FullTraversal.









(* ===================================================================== *)
(** * Further properties of lifting, dropping and rotating *)
(* ===================================================================== *)

(** X8. Lifting an id that no brick of the board carries changes
    nothing: the board, the history, the index and the held group stay as
    they are. *)
Theorem lift_absent_is_noop :
  forall (s : App.State) (brickId : string),
    ~ In brickId (map id (App.bricks s)) ->
    App.handleLiftBrick s brickId = s
    /\ App.getLiftableBricks brickId (App.bricks s) = Some [].
Proof.
  intros s i Hn. split; [now apply handleLiftBrick_absent|].
  unfold App.getLiftableBricks.
  destruct (find (fun b => String.eqb (id b) i) (App.bricks s)) eqn:E;
    [|reflexivity].
  exfalso. apply find_some in E. destruct E as (Hb & He).
  apply String.eqb_eq in He. subst i. apply Hn. now apply in_map.
Qed.

Lemma lift_absent_is_noop_witness :
  let a := mkBrick "a" 0 0 0 RED (Some 1) (Some 1) (Some 0)
                   None None None None in
  let s := App.mkState [a] [[]; [a]] 1 MOVE RED (mkType "1x1" 1 1 None)
                       false None 1 in
  App.handleLiftBrick s "zz" = s.
Proof.
  intros a s. apply (lift_absent_is_noop s "zz"%string).
  simpl. intuition discriminate.
Defined.



(** ** Undo after an edit *)

Lemma undo_after_commit (s t : App.State) (nb : Board) :
  UseHistory.wf (historyOf s) -> UseHistory.synced (historyOf s) ->
  App.history t
  = firstn (App.currentHistoryIndex s + 1) (App.history s) ++ [nb] ->
  App.currentHistoryIndex t = (App.currentHistoryIndex s + 1)%nat ->
  undoGives s t.
Proof.
  unfold UseHistory.wf, UseHistory.synced, undoGives. simpl.
  intros Hwf Hs Hh Hi. unfold App.undo. rewrite Hi, Hh.
  replace (0 <? App.currentHistoryIndex s + 1)%nat
    with true by (symmetry; apply Nat.ltb_lt; lia).
  replace (App.currentHistoryIndex s + 1 - 1)%nat
    with (App.currentHistoryIndex s) by lia.
  cbv zeta.
  rewrite nth_error_app1 by (rewrite length_firstn; lia).
  rewrite nth_error_firstn.
  replace (App.currentHistoryIndex s <? App.currentHistoryIndex s + 1)%nat
    with true by (symmetry; apply Nat.ltb_lt; lia).
  rewrite Hs. simpl. auto.
Qed.

Lemma handleLiftBrick_commits (s : App.State) (i : string) :
  In i (map id (App.bricks s)) ->
  exists rest g,
    App.handleLiftBrick s i
    = App.setLiftedGroup (App.saveToHistory s rest) (Some g).
Proof.
  intros Hin. unfold App.handleLiftBrick.
  destruct (upward_traversal_ids (App.bricks s) i) as (ids & E & Hi).
  rewrite E.
  set (group := filter (fun b => App.includes ids (id b)) (App.bricks s)).
  destruct (find (fun b => String.eqb (id b) i) group) eqn:Hf; [eauto|].
  exfalso. apply in_map_iff in Hin. destruct Hin as (b & <- & Hb).
  assert (Hg : In b group).
  { apply filter_In. split; [assumption|]. apply includes_In, Hi.
    now apply in_map. }
  apply (find_none _ _ Hf) in Hg. rewrite String.eqb_refl in Hg.
  discriminate.
Qed.

(** X10. From a state whose history index is within bounds and whose
    board is the snapshot under it, an undo right after an edit gives back
    the board and the index of before the edit and lets any held group go.
    This holds for adding a brick, removing a brick, clearing the board,
    lifting a brick of the board, and dropping the held group where it
    collides with nothing. *)
Theorem undo_reverts_edit :
  forall (uuid : nat -> string) (s : App.State),
    UseHistory.wf (historyOf s) -> UseHistory.synced (historyOf s) ->
    (forall cx cy cz, undoGives s (App.addBrick uuid s cx cy cz))
    /\ (forall i, undoGives s (App.removeBrick s i))
    /\ undoGives s (App.clearBricks s)
    /\ (forall i, In i (map id (App.bricks s)) ->
                  undoGives s (App.handleLiftBrick s i))
    /\ (forall g ax ay az,
           App.liftedGroup s = Some g ->
           App.hasCollision (map (App.proposed ax ay az) (members g))
                            (App.bricks s) = false ->
           undoGives s (App.handleDropGroup s ax ay az)).
Proof.
  intros uuid s Hwf Hs. split; [|split; [|split; [|split]]].
  - intros cx cy cz. eapply undo_after_commit; eauto; reflexivity.
  - intros i. eapply undo_after_commit; eauto; reflexivity.
  - eapply undo_after_commit; eauto; reflexivity.
  - intros i Hin. destruct (handleLiftBrick_commits s i Hin) as (rest & g & ->).
    eapply undo_after_commit; eauto; reflexivity.
  - intros g ax ay az Hg Hc. unfold App.handleDropGroup. rewrite Hg, Hc.
    eapply undo_after_commit; eauto; reflexivity.
Qed.

Lemma undo_reverts_edit_witness :
  let uuid := fun n : nat => JS.numStr (Z.of_nat n) in
  let a := mkBrick "0" 0 0 0 RED (Some 1) (Some 1) (Some 0)
                   None None None None in
  let s := App.mkState [a] [[]; [a]] 1 BUILD RED (mkType "1x1" 1 1 None)
                       false None 1 in
  undoGives s (App.addBrick uuid s 3 0 3)
  /\ undoGives s (App.handleLiftBrick s "0").
Proof.
  intros uuid a s.
  assert (Hwf : UseHistory.wf (historyOf s))
    by (unfold UseHistory.wf; simpl; lia).
  assert (Hs : UseHistory.synced (historyOf s)) by reflexivity.
  destruct (undo_reverts_edit uuid s Hwf Hs) as (Hadd & _ & _ & Hlift & _).
  split; [apply Hadd | apply Hlift; simpl; auto].
Defined.

(* ===================================================================== *)
(** * Rotating the held group *)
(* ===================================================================== *)


Lemma rotateBrick_four (m : BrickData) :
  rotation m = Some 0 \/ rotation m = Some 90 ->
  App.rotateBrick (App.rotateBrick (App.rotateBrick (App.rotateBrick m))) = m.
Proof.
  destruct m as [i bx bY bz c sx sz r sp ox oy oz]. simpl. intros Hr.
  unfold App.rotateBrick. simpl. f_equal.
  - destruct Hr as [-> | ->]; reflexivity.
  - destruct ox as [ox|]; simpl; [f_equal; lia | reflexivity].
  - destruct oz as [oz|]; simpl; [f_equal; lia | reflexivity].
Qed.

(** X11. Rotating never touches the board or the history.  With nothing
    held, two presses restore the state (the placement orientation is
    toggled twice).  With a group held whose members' rotation is 0 or
    90, four presses restore the state exactly: ids, offsets, swapped
    sizes and rotation all come back. *)
Theorem four_rotations_restore :
  forall (s : App.State),
    App.bricks (App.rotateLiftedGroup s) = App.bricks s
    /\ App.history (App.rotateLiftedGroup s) = App.history s
    /\ App.currentHistoryIndex (App.rotateLiftedGroup s)
       = App.currentHistoryIndex s
    /\ (App.liftedGroup s = None ->
        App.rotateLiftedGroup (App.rotateLiftedGroup s) = s)
    /\ (forall g,
           App.liftedGroup s = Some g ->
           (forall m, In m (members g) ->
                      rotation m = Some 0 \/ rotation m = Some 90) ->
           App.rotateLiftedGroup
             (App.rotateLiftedGroup
                (App.rotateLiftedGroup (App.rotateLiftedGroup s))) = s).
Proof.
  intros s. destruct s as [b h i tm sc st r lg n]. simpl.
  unfold App.rotateLiftedGroup. simpl.
  split; [now destruct lg|]. split; [now destruct lg|].
  split; [now destruct lg|]. split.
  - intros ->. simpl. now rewrite negb_involutive.
  - intros g -> Hm. simpl. unfold App.setLiftedGroup. simpl.
    do 2 f_equal. destruct g as [ms a]. simpl in *. f_equal.
    rewrite !map_map. apply map_id_on. intros m Hin.
    now apply rotateBrick_four, Hm.
Qed.

Lemma four_rotations_restore_witness :
  let m := mkBrick "a" 0 0 0 RED (Some 2) (Some 1) (Some 0) None
                   (Some 1) (Some 0) (Some (-3)) in
  let s := App.mkState [] [[]] 0 MOVE RED (mkType "1x1" 1 1 None)
                       false (Some (mkGroup [m] "a")) 1 in
  App.rotateLiftedGroup
    (App.rotateLiftedGroup
       (App.rotateLiftedGroup (App.rotateLiftedGroup s))) = s.
Proof.
  intros m s.
  destruct (four_rotations_restore s) as (_ & _ & _ & _ & H).
  apply (H (mkGroup [m] "a")); [reflexivity|].
  simpl. intros m' [<- | []]. now left.
Defined.

(** ** Rotation as a quarter turn of the grid *)








(* ===================================================================== *)
(** * Moving a group: lift, rotate, drop *)
(* ===================================================================== *)








Lemma handleLiftBrick_parts (s : App.State) (i : string) :
  In i (map id (App.bricks s)) ->
  exists ids a,
    In a (App.bricks s) /\ id a = i
    /\ App.handleLiftBrick s i
       = App.setLiftedGroup
           (App.saveToHistory s
              (filter (fun b => negb (App.includes ids (id b)))
                      (App.bricks s)))
           (Some (mkGroup
                    (map (App.withOffsets a)
                         (filter (fun b => App.includes ids (id b))
                                 (App.bricks s)))
                    i)).
Proof.
  intros Hin. unfold App.handleLiftBrick.
  destruct (upward_traversal_ids (App.bricks s) i) as (ids & E & Hi).
  rewrite E. exists ids.
  destruct (find (fun b => String.eqb (id b) i)
                 (filter (fun b => App.includes ids (id b)) (App.bricks s)))
    as [a|] eqn:Hf.
  - exists a. apply find_some in Hf. destruct Hf as (Ha & He).
    apply filter_In in Ha. apply String.eqb_eq in He. tauto.
  - exfalso. apply in_map_iff in Hin. destruct Hin as (b & <- & Hb).
    assert (Hg : In b (filter (fun b => App.includes ids (id b))
                              (App.bricks s))).
    { apply filter_In. split; [assumption|]. apply includes_In, Hi.
      now apply in_map. }
    apply (find_none _ _ Hf) in Hg. rewrite String.eqb_refl in Hg.
    discriminate.
Qed.








(* ===================================================================== *)
(** * Adding and removing single bricks *)
(* ===================================================================== *)

Lemma filter_all {A : Type} (f : A -> bool) (l : list A) :
  (forall a, In a l -> f a = true) -> filter f l = l.
Proof.
  induction l as [|a l IH]; intros H; simpl; [reflexivity|].
  rewrite H by now left. f_equal. apply IH. intros; apply H. now right.
Qed.

(** X16. Removing by id takes every brick with that id off the board
    and keeps the others in their order.  One history entry is
    committed in any case, also when no brick carries the id and the
    board stays as it is.  The held group is not touched.  Removing the
    brick just added, when its id was not on the board before, gives
    the board of before the addition. *)
Theorem remove_brick_by_id :
  forall (uuid : nat -> string) (s : App.State) (i : string),
    (forall b, In b (App.bricks (App.removeBrick s i)) <->
               In b (App.bricks s) /\ id b <> i)
    /\ App.currentHistoryIndex (App.removeBrick s i)
       = S (App.currentHistoryIndex s)
    /\ App.liftedGroup (App.removeBrick s i) = App.liftedGroup s
    /\ (~ In i (map id (App.bricks s)) ->
        App.bricks (App.removeBrick s i) = App.bricks s)
    /\ (forall cx cy cz,
           ~ In (uuid (App.uuidCalls s)) (map id (App.bricks s)) ->
           App.bricks (App.removeBrick (App.addBrick uuid s cx cy cz)
                                       (uuid (App.uuidCalls s)))
           = App.bricks s).
Proof.
  intros uuid s i.
  assert (Habs : forall (l : Board) (j : string),
             ~ In j (map id l) ->
             filter (fun b => negb (String.eqb (id b) j)) l = l).
  { intros l j Hn. apply filter_all. intros b Hb.
    apply negb_true_iff, String.eqb_neq. intros <-. apply Hn.
    now apply in_map. }
  split; [|split; [|split; [|split]]].
  - intros b. unfold App.removeBrick. simpl.
    rewrite filter_In, negb_true_iff, String.eqb_neq. tauto.
  - unfold App.removeBrick. simpl. lia.
  - reflexivity.
  - intros Hn. unfold App.removeBrick. simpl. now apply Habs.
  - intros cx cy cz Hn. unfold App.removeBrick, App.addBrick. simpl.
    rewrite filter_app. simpl. rewrite String.eqb_refl. simpl.
    rewrite app_nil_r. now apply Habs.
Qed.

Lemma remove_brick_by_id_witness :
  let uuid := fun n : nat => JS.numStr (Z.of_nat n) in
  App.bricks (App.removeBrick (App.addBrick uuid App.init 1 0 2) "0")
  = App.bricks App.init.
Proof.
  intros uuid.
  destruct (remove_brick_by_id uuid App.init "0") as (_ & _ & _ & _ & H).
  apply (H 1 0 2). simpl. tauto.
Defined.

(** X17. Adding a brick checks no occupancy: with a brick type of
    positive sizes selected, two additions at the same cell put two
    bricks with the ids of two consecutive draws on the board, and the
    two collide. *)
Theorem add_ignores_occupancy :
  forall (uuid : nat -> string) (s : App.State) (cx cy cz : Z),
    0 < tSizeX (App.selectedBrickType s) ->
    0 < tSizeZ (App.selectedBrickType s) ->
    let s' := App.addBrick uuid (App.addBrick uuid s cx cy cz) cx cy cz in
    exists a b,
      App.bricks s' = App.bricks s ++ [a; b]
      /\ id a = uuid (App.uuidCalls s)
      /\ id b = uuid (App.uuidCalls s + 1)%nat
      /\ collide a b
      /\ App.currentHistoryIndex s' = (App.currentHistoryIndex s + 2)%nat.
Proof.
  intros uuid s cx cy cz Hx Hz s'. subst s'.
  unfold App.addBrick. simpl. do 2 eexists.
  split; [now rewrite <- app_assoc|]. simpl.
  split; [reflexivity|]. split; [reflexivity|]. split; [|lia].
  split; [reflexivity|]. exists cx, cz. unfold footprint. simpl.
  destruct (App.rotated s); simpl;
    repeat match goal with
           | |- context [?n =? 0] => destruct (Z.eqb_spec n 0)
           end; lia.
Qed.

Lemma add_ignores_occupancy_witness :
  let uuid := fun n : nat => JS.numStr (Z.of_nat n) in
  exists a b,
    App.bricks (App.addBrick uuid (App.addBrick uuid App.init 0 0 0) 0 0 0)
    = [a; b]
    /\ collide a b.
Proof.
  intros uuid.
  destruct (add_ignores_occupancy uuid App.init 0 0 0)
    as (a & b & Hb & _ & _ & Hc & _).
  - reflexivity.
  - reflexivity.
  - exists a, b. split; [exact Hb | exact Hc].
Defined.

(* ===================================================================== *)
(** * Further properties of the packer *)
(* ===================================================================== *)

Lemma covers_spec (qx qy qz : Z) (qc : string) (b : BrickData) :
  covers qx qy qz qc b = true
  <-> y b = qy /\ color b = qc /\ footprint b qx qz.
Proof.
  unfold covers, footprint.
  rewrite !andb_true_iff, Z.eqb_eq, String.eqb_eq, !Z.leb_le, !Z.ltb_lt.
  tauto.
Qed.

Lemma coverCount_pos (bs : list BrickData) (qx qy qz : Z) (qc : string) :
  (0 < coverCount bs qx qy qz qc)%nat
  <-> exists b, In b bs /\ covers qx qy qz qc b = true.
Proof.
  unfold coverCount. split.
  - intros H. destruct (filter (covers qx qy qz qc) bs) as [|b l] eqn:E;
      [simpl in H; lia|].
    exists b. apply filter_In. rewrite E. now left.
  - intros (b & Hb & Hc).
    assert (Hin : In b (filter (covers qx qy qz qc) bs))
      by now apply filter_In.
    destruct (filter (covers qx qy qz qc) bs); [contradiction | simpl; lia].
Qed.

(** X18. For voxels whose coordinates are integers up to [2^52] in
    magnitude and whose colors have no comma, the packer partitions the
    voxels: every cell of a layer and color is covered by exactly one
    output brick when it is an input voxel and by none otherwise; so every
    voxel lies under an output brick of its layer and color, and every
    cell of an output brick is an input voxel of the brick's layer and
    color. *)
Theorem packing_partitions_voxels :
  forall (uuid : nat -> string) (first : nat) (raw : list RawBrick),
    (forall v, In v raw -> inRange v) ->
    (forall v, In v raw -> noComma (rcolor v) = true) ->
    let out := Packer.optimizeBricks uuid first raw in
    (forall qx qy qz qc,
        coverCount out qx qy qz qc = ind (isVoxel raw qx qy qz qc))
    /\ (forall v, In v raw ->
          exists b, In b out /\ y b = ry v /\ color b = rcolor v
                    /\ footprint b (rx v) (rz v))
    /\ (forall b cx cz, In b out -> footprint b cx cz ->
          In (mkRaw cx (y b) cz (color b)) raw).
Proof.
  intros uuid first raw _ Hplain out. subst out.
  pose proof (packing_coverage_plain uuid first raw Hplain) as Hc.
  split; [exact Hc|]. split.
  - intros [vx vy vz vc] Hv. simpl.
    assert (Hpos : (0 < coverCount (Packer.optimizeBricks uuid first raw)
                                   vx vy vz vc)%nat).
    { rewrite Hc. apply isVoxel_spec in Hv. rewrite Hv. simpl. lia. }
    apply coverCount_pos in Hpos. destruct Hpos as (b & Hb & Hcov).
    apply covers_spec in Hcov. exists b. tauto.
  - intros b cx cz Hb Hf. apply isVoxel_spec.
    assert (Hpos : (0 < coverCount (Packer.optimizeBricks uuid first raw)
                                   cx (y b) cz (color b))%nat).
    { apply coverCount_pos. exists b. split; [assumption|].
      apply covers_spec. auto. }
    rewrite Hc in Hpos.
    destruct (isVoxel raw cx (y b) cz (color b));
      [reflexivity | simpl in Hpos; lia].
Qed.

Lemma packing_partitions_voxels_witness :
  let uuid := fun n : nat => JS.numStr (Z.of_nat n) in
  let raw := [mkRaw 0 0 0 "red"; mkRaw 1 0 0 "red"; mkRaw 0 1 0 "blue"] in
  coverCount (Packer.optimizeBricks uuid 0 raw) 1 0 0 "red"
  = ind (isVoxel raw 1 0 0 "red").
Proof.
  intros uuid raw.
  destruct (packing_partitions_voxels uuid 0%nat raw) as (H & _).
  - intros v [<- | [<- | [<- | []]]]; unfold inRange, MAX_COORD; simpl; lia.
  - intros v [<- | [<- | [<- | []]]]; reflexivity.
  - exact (H 1 0 0 "red"%string).
Defined.

(** ** The shapes the packer emits *)

Lemma standardTypes_catalog (t : BrickType) :
  In t Packer.standardTypes -> In t BRICK_TYPES /\ tSpecialType t = None.
Proof.
  unfold Packer.standardTypes. rewrite sort_In, filter_In.
  intros (Hin & Hs). split; [assumption|].
  destruct (tSpecialType t); [discriminate | reflexivity].
Qed.

Lemma unit_standard : In (mkType "1x1" 1 1 None) Packer.standardTypes.
Proof.
  unfold Packer.standardTypes. rewrite sort_In, filter_In. simpl. auto.
Qed.

Lemma bestFit_complete (cs p : JS.StrSet) (cx cz : Z)
      (types : list BrickType) (t : BrickType) :
  In t types ->
  Packer.fits cs p cx cz (tSizeX t) (tSizeZ t) = true ->
  Packer.bestFit cs p cx cz types <> None.
Proof.
  induction types as [|u types IH]; simpl; [contradiction|].
  intros [-> | Hin] Hf.
  - rewrite Hf. discriminate.
  - destruct (Packer.fits cs p cx cz (tSizeX u) (tSizeZ u));
      [discriminate|].
    destruct (negb (tSizeX u =? tSizeZ u)
              && Packer.fits cs p cx cz (tSizeZ u) (tSizeX u));
      [discriminate | auto].
Qed.

Lemma bestFit_turned (cs p : JS.StrSet) (cx cz : Z)
      (types : list BrickType) (t : BrickType) :
  Packer.bestFit cs p cx cz types = Some (t, true) ->
  tSizeX t <> tSizeZ t.
Proof.
  induction types as [|u types IH]; simpl; [discriminate|].
  destruct (Packer.fits cs p cx cz (tSizeX u) (tSizeZ u));
    [discriminate|].
  destruct (negb (tSizeX u =? tSizeZ u)
            && Packer.fits cs p cx cz (tSizeZ u) (tSizeX u)) eqn:E;
    [|exact IH].
  intros H. injection H as <-. apply andb_true_iff in E.
  destruct E as (E & _). apply negb_true_iff in E. now apply Z.eqb_neq.
Qed.

(** On a cell of the group that is not yet processed some standard type
    fits, the unit brick at the least: the fallback after the loop over
    the types is never taken. *)
Lemma bestFit_found (cs p : JS.StrSet) (cx cz : Z) :
  In (Packer.coordKey cx cz) cs ->
  JS.has p (Packer.coordKey cx cz) = false ->
  Packer.bestFit cs p cx cz Packer.standardTypes <> None.
Proof.
  intros Hcs Hp.
  apply (bestFit_complete cs p cx cz _ _ unit_standard). simpl.
  apply fits_spec. intros k Hk. apply inRect_unit in Hk. subst k.
  split; [assumption | now apply has_false].
Qed.

Lemma place_catalog (uuid : nat -> string) (first : nat) (cy : Z)
      (col : string) (cs p : JS.StrSet) (acc : list BrickData) (c : Z * Z) :
  In (Packer.coordKey (fst c) (snd c)) cs ->
  Forall catalogBrick acc ->
  Forall catalogBrick (snd (Packer.place uuid first cy col cs (p, acc) c)).
Proof.
  destruct c as [cx cz]. cbn [fst snd]. intros Hcs Hacc.
  unfold Packer.place.
  destruct (JS.has p (Packer.coordKey cx cz)) eqn:Hp; [exact Hacc|].
  pose proof (bestFit_found cs p cx cz Hcs Hp) as Hfound.
  destruct (Packer.bestFit cs p cx cz Packer.standardTypes)
    as [[t rot]|] eqn:Hb; [|congruence].
  cbn [snd]. apply Forall_app. split; [assumption|].
  constructor; [|constructor].
  destruct (bestFit_sound _ _ _ _ _ _ _ Hb) as (Ht & _).
  destruct (standardTypes_catalog t Ht) as (Hin & Hs).
  exists t, rot. simpl. repeat split; auto.
  intros ->. now apply (bestFit_turned _ _ _ _ _ _ Hb).
Qed.

Lemma place_loop_catalog (uuid : nat -> string) (first : nat) (cy : Z)
      (col : string) (cs : JS.StrSet) (cells : list (Z * Z)) :
  forall (p : JS.StrSet) (acc : list BrickData),
    (forall c, In c cells -> In (Packer.coordKey (fst c) (snd c)) cs) ->
    Forall catalogBrick acc ->
    Forall catalogBrick
      (snd (fold_left (Packer.place uuid first cy col cs) cells (p, acc))).
Proof.
  induction cells as [|c cells IH]; intros p acc Hcells Hacc;
    cbn [fold_left]; [exact Hacc|].
  pose proof (place_catalog uuid first cy col cs p acc c
                (Hcells c (or_introl eq_refl)) Hacc) as H.
  destruct (Packer.place uuid first cy col cs (p, acc) c) as [p1 acc1].
  apply IH; [|exact H]. intros c' Hc'. apply Hcells. now right.
Qed.

Lemma cells_in_group (cs : JS.StrSet) :
  (forall c, In c cs -> isCoordKey c) ->
  forall c, In c (JS.sort Packer.cmpCoord (map Packer.parseCoord cs)) ->
            In (Packer.coordKey (fst c) (snd c)) cs.
Proof.
  intros Hcs c Hc. apply sort_In, in_map_iff in Hc.
  destruct Hc as (k & <- & Hk). destruct (Hcs k Hk) as (cx & cz & ->).
  now rewrite parseCoord_coordKey.
Qed.

Lemma grouped_coordKeys (raw : list RawBrick) (k : string) (cs : JS.StrSet) :
  In (k, cs) (Packer.bricksByLayerColor raw) ->
  forall c, In c cs -> isCoordKey c.
Proof.
  intros He c Hc.
  destruct (bricksByLayerColor_spec raw) as (_ & _ & Hh).
  assert (H : holds (Packer.bricksByLayerColor raw) k c)
    by (exists cs; auto).
  apply Hh in H. destruct H as (v & _ & _ & ->).
  now exists (rx v), (rz v).
Qed.

(** X19. Every brick the packer emits is a brick of the catalog: its
    sizes are those of a type of [BRICK_TYPES] that is not special, as
    listed with rotation 0 or, for a type that is not square, turned with
    rotation 90; it has no special type and no offsets.  In particular
    the unit-brick fallback after the loop over the types, which would
    set no rotation, is never taken. *)
Theorem packer_emits_catalog_bricks :
  forall (uuid : nat -> string) (first : nat) (raw : list RawBrick),
    Forall catalogBrick (Packer.optimizeBricks uuid first raw).
Proof.
  intros uuid first raw. unfold Packer.optimizeBricks.
  pose proof (grouped_coordKeys raw) as Hm.
  revert Hm. generalize (Packer.bricksByLayerColor raw). intros m Hm.
  assert (G : forall acc, Forall catalogBrick acc ->
    Forall catalogBrick (fold_left (Packer.packGroup uuid first) m acc)).
  { induction m as [|[k cs] m IH]; intros acc Hacc; cbn [fold_left];
      [exact Hacc|].
    apply IH; [intros k' cs' He; apply (Hm k' cs'); now right|].
    unfold Packer.packGroup. apply place_loop_catalog; [|exact Hacc].
    apply cells_in_group. apply (Hm k cs). now left. }
  apply G. constructor.
Qed.

(** ** How many bricks the packer emits *)

Lemma place_loop_length (uuid : nat -> string) (first : nat) (cy : Z)
      (col : string) (cs : JS.StrSet) (cells : list (Z * Z)) :
  forall (p : JS.StrSet) (acc : list BrickData),
    let out := snd (fold_left (Packer.place uuid first cy col cs) cells
                              (p, acc)) in
    (length acc <= length out <= length acc + length cells)%nat.
Proof.
  induction cells as [|c cells IH]; intros p acc; cbn [fold_left].
  - simpl. lia.
  - destruct (place_push uuid first cy col cs p acc c)
      as (p' & [E | (b & E & _ & _)]); rewrite E.
    + specialize (IH p' acc). simpl in *. lia.
    + specialize (IH p' (acc ++ [b])). rewrite length_app in IH.
      simpl in *. lia.
Qed.

Lemma packGroup_length (uuid : nat -> string) (first : nat)
      (acc : list BrickData) (k : string) (cs : JS.StrSet) :
  (length acc <= length (Packer.packGroup uuid first acc (k, cs))
   <= length acc + length cs)%nat
  /\ (cs <> [] ->
      (length acc < length (Packer.packGroup uuid first acc (k, cs)))%nat).
Proof.
  unfold Packer.packGroup.
  set (cells := JS.sort Packer.cmpCoord (map Packer.parseCoord cs)).
  assert (Hlen : length cells = length cs)
    by (unfold cells; now rewrite sort_length, length_map).
  split.
  - rewrite <- Hlen. apply place_loop_length.
  - intros Hne. destruct cells as [|[cx cz] cells'] eqn:E.
    { destruct cs; [congruence | discriminate]. }
    cbn [fold_left].
    assert (Hp : exists p' b,
      Packer.place uuid first
        (Packer.toNum (nth 0 (JS.split k) ""%string))
        (nth 1 (JS.split k) ""%string) cs ([], acc) (cx, cz)
      = (p', acc ++ [b])).
    { unfold Packer.place. change (JS.has [] (Packer.coordKey cx cz))
        with false. cbv iota.
      destruct (Packer.bestFit cs [] cx cz Packer.standardTypes)
        as [[t rot]|]; eauto. }
    destruct Hp as (p' & b & ->).
    pose proof (place_loop_length uuid first
                  (Packer.toNum (nth 0 (JS.split k) ""%string))
                  (nth 1 (JS.split k) ""%string) cs cells' p' (acc ++ [b]))
      as H.
    rewrite length_app in H. simpl in H. lia.
Qed.

Lemma optimize_length (uuid : nat -> string) (first : nat) (m : JS.StrMap) :
  forall acc : list BrickData,
    (length acc <= length (fold_left (Packer.packGroup uuid first) m acc)
     <= length acc + keyCount m)%nat
    /\ ((exists k cs, In (k, cs) m /\ cs <> []) ->
        (length acc
         < length (fold_left (Packer.packGroup uuid first) m acc))%nat).
Proof.
  induction m as [|[k cs] m IH]; intros acc; cbn [fold_left].
  - split; [simpl; lia|]. intros (k & cs & [] & _).
  - destruct (packGroup_length uuid first acc k cs) as (H1 & H2).
    destruct (IH (Packer.packGroup uuid first acc (k, cs))) as (I1 & I2).
    change (keyCount ((k, cs) :: m)) with (length cs + keyCount m)%nat.
    split; [lia|].
    intros (k' & cs' & [E | Hin] & Hne).
    + injection E as <- <-. specialize (H2 Hne). lia.
    + assert (He : exists k cs, In (k, cs) m /\ cs <> []) by eauto.
      specialize (I2 He). lia.
Qed.

Lemma add_length (s : JS.StrSet) (k : string) :
  (length (JS.add s k) <= length s + 1)%nat.
Proof.
  unfold JS.add. destruct (JS.has s k); [lia|].
  rewrite length_app. simpl. lia.
Qed.

Lemma madd_absent (m : JS.StrMap) (k c : string) :
  ~ In k (map fst m) -> JS.madd m k c = m.
Proof.
  intros Hn. unfold JS.madd. apply map_id_on. intros [k0 cs0] He.
  simpl. destruct (String.eqb_spec k k0) as [-> |]; [|reflexivity].
  exfalso. apply Hn. apply in_map_iff. now exists (k0, cs0).
Qed.

Lemma keyCount_madd (m : JS.StrMap) (k c : string) :
  NoDup (map fst m) ->
  (keyCount (JS.madd m k c) <= keyCount m + 1)%nat.
Proof.
  induction m as [|[k0 cs0] m IH]; intros Hnd; [simpl; lia|].
  inversion Hnd as [|? ? Hk Hnd']; subst.
  change (JS.madd ((k0, cs0) :: m) k c)
    with ((if String.eqb k k0 then (k0, JS.add cs0 c) else (k0, cs0))
          :: JS.madd m k c).
  destruct (String.eqb_spec k k0) as [-> | Hne].
  - rewrite madd_absent by assumption. simpl.
    pose proof (add_length cs0 c). lia.
  - specialize (IH Hnd'). simpl in *. lia.
Qed.

Lemma keyCount_new (m : JS.StrMap) (k : string) :
  keyCount (m ++ [(k, [])]) = keyCount m.
Proof.
  unfold keyCount. rewrite fold_right_app. reflexivity.
Qed.

Lemma keyCount_grouped (raw : list RawBrick) :
  (keyCount (Packer.bricksByLayerColor raw) <= length raw)%nat.
Proof.
  unfold Packer.bricksByLayerColor.
  assert (G : forall raw m, wfMap m ->
    (keyCount (fold_left Packer.groupVoxel raw m)
     <= keyCount m + length raw)%nat).
  { clear raw. induction raw as [|v raw IH]; intros m Hwf;
      cbn [fold_left]; [simpl; lia|].
    destruct (groupVoxel_spec m v Hwf) as (Hwf' & _).
    specialize (IH _ Hwf').
    assert (Hs : (keyCount (Packer.groupVoxel m v) <= keyCount m + 1)%nat).
    { unfold Packer.groupVoxel.
      destruct (JS.mhas m (Packer.groupKey (ry v) (rcolor v))) eqn:Hm.
      - apply keyCount_madd, Hwf.
      - unfold JS.mset. rewrite Hm.
        rewrite <- (keyCount_new m (Packer.groupKey (ry v) (rcolor v))).
        apply keyCount_madd. apply wfMap_new; [exact Hwf|].
        intros H. apply mhas_In in H. congruence. }
    simpl. lia. }
  apply (G raw []). split; [constructor | intros k cs []].
Qed.

(** X20. The packer draws one id per brick it emits, in order: the
    [k]-th brick of the output carries the [k]-th id drawn.  It never
    emits more bricks than there are voxels, and it emits no brick only
    for an empty voxel list. *)
Theorem packer_ids_and_count :
  forall (uuid : nat -> string) (first : nat) (raw : list RawBrick),
    let out := Packer.optimizeBricks uuid first raw in
    map id out = map uuid (seq first (length out))
    /\ (length out <= length raw)%nat
    /\ (out = [] <-> raw = []).
Proof.
  intros uuid first raw out. subst out.
  split; [apply optimizeBricks_ids|].
  unfold Packer.optimizeBricks.
  destruct (optimize_length uuid first (Packer.bricksByLayerColor raw) [])
    as (H1 & H2).
  pose proof (keyCount_grouped raw) as Hk. split; [simpl in H1; lia|].
  split.
  - intros E. destruct raw as [|v raw]; [reflexivity|]. exfalso.
    destruct (bricksByLayerColor_spec (v :: raw)) as (_ & _ & Hh).
    destruct (proj2 (Hh (Packer.groupKey (ry v) (rcolor v))
                        (Packer.coordKey (rx v) (rz v))))
      as (cs & He & Hc).
    { exists v. split; [now left | auto]. }
    assert (Hex : exists k cs,
               In (k, cs) (Packer.bricksByLayerColor (v :: raw))
               /\ cs <> []).
    { exists (Packer.groupKey (ry v) (rcolor v)), cs.
      split; [assumption|]. intros ->. contradiction. }
    specialize (H2 Hex). rewrite E in H2. simpl in H2. lia.
  - intros ->. reflexivity.
Qed.

(* ===================================================================== *)
(** * Generation *)
(* ===================================================================== *)

Lemma insert_byLayer (a : BrickData) (l : list BrickData) :
  Sorted byLayer l ->
  Sorted byLayer (JS.insert (fun a b => y a - y b) a l).
Proof.
  induction l as [|b l IH]; intros Hs; simpl.
  - repeat constructor.
  - destruct (Z.leb_spec (y a - y b) 0).
    + constructor; [assumption|]. constructor. unfold byLayer. lia.
    + inversion Hs as [|? ? Hs' Hhd]; subst. constructor; [now apply IH|].
      destruct l as [|c l]; simpl.
      * constructor. unfold byLayer. lia.
      * destruct (Z.leb_spec (y a - y c) 0); constructor.
        -- unfold byLayer. lia.
        -- now inversion Hhd.
Qed.

Lemma sort_byLayer (l : list BrickData) :
  StronglySorted byLayer (JS.sort (fun a b => y a - y b) l).
Proof.
  apply Sorted_StronglySorted.
  - intros a b c. unfold byLayer. lia.
  - induction l as [|a l IH]; simpl; [constructor|].
    now apply insert_byLayer.
Qed.

Lemma coverCount_perm (l l' : list BrickData) (qx qy qz : Z) (qc : string) :
  Permutation l l' ->
  coverCount l qx qy qz qc = coverCount l' qx qy qz qc.
Proof.
  intros P. unfold coverCount.
  induction P as [|a l l' P IH|a b l|l l' l'' P1 IH1 P2 IH2]; simpl.
  - reflexivity.
  - destruct (covers qx qy qz qc a); simpl; congruence.
  - destruct (covers qx qy qz qc a), (covers qx qy qz qc b); reflexivity.
  - congruence.
Qed.

(** X22. When a generation completes, the board becomes the packer's
    output for the voxels, an empty color replaced by the default one,
    reordered so that no brick comes before a brick of a lower layer.
    The id counter advances by the number of bricks, the board is
    committed as one history entry behind the snapshots up to the index
    captured when the generation started, and the index itself goes up by
    one from its current value. *)
Theorem generation_commits_sorted_packing :
  forall (uuid : nat -> string) (captured : nat) (s : App.State)
         (result : list RawBrick),
    let out := Packer.optimizeBricks uuid (App.uuidCalls s)
                                     (map defaultColor result) in
    let s' := App.generateDone uuid captured s result in
    Permutation (App.bricks s') out
    /\ StronglySorted byLayer (App.bricks s')
    /\ App.uuidCalls s' = (App.uuidCalls s + length out)%nat
    /\ App.history s'
       = firstn (captured + 1) (App.history s) ++ [App.bricks s']
    /\ App.currentHistoryIndex s' = (App.currentHistoryIndex s + 1)%nat
    /\ App.liftedGroup s' = App.liftedGroup s.
Proof.
  intros uuid captured s result out s'. subst out s'.
  unfold App.generateDone. cbv zeta.
  change (map (fun b => mkRaw (rx b) (ry b) (rz b)
                              (if String.eqb (rcolor b) "" then RED
                               else rcolor b)) result)
    with (map defaultColor result).
  cbn [App.bricks App.history App.currentHistoryIndex App.liftedGroup
       App.uuidCalls App.saveToHistoryFrom App.setBoard App.drawIds].
  split; [apply sort_perm|]. split; [apply sort_byLayer|].
  split; [now rewrite sort_length|]. auto.
Qed.

Lemma defaultColor_plain (result : list RawBrick) :
  (forall v, In v result -> noComma (rcolor v) = true) ->
  forall v, In v (map defaultColor result) -> noComma (rcolor v) = true.
Proof.
  intros H v Hv. apply in_map_iff in Hv. destruct Hv as (w & <- & Hw).
  unfold defaultColor. simpl.
  destruct (String.eqb (rcolor w) ""); [reflexivity | now apply H].
Qed.

(** X23. For voxels whose coordinates are integers up to [2^52] in
    magnitude and whose colors have no comma, the board a generation
    commits covers each cell of a layer and color exactly once when the
    cell is one of the voxels, the default color standing for an empty
    one, and not at all otherwise. *)
Theorem generated_board_covers_voxels :
  forall (uuid : nat -> string) (captured : nat) (s : App.State)
         (result : list RawBrick),
    (forall v, In v result -> inRange v) ->
    (forall v, In v result -> noComma (rcolor v) = true) ->
    forall qx qy qz qc,
      coverCount (App.bricks (App.generateDone uuid captured s result))
                 qx qy qz qc
      = ind (isVoxel (map defaultColor result) qx qy qz qc).
Proof.
  intros uuid captured s result _ Hplain qx qy qz qc.
  rewrite <- (packing_coverage_plain uuid (App.uuidCalls s)
                (map defaultColor result) (defaultColor_plain result Hplain)).
  apply coverCount_perm. unfold App.generateDone. cbv zeta.
  cbn [App.bricks App.saveToHistoryFrom App.setBoard].
  apply sort_perm.
Qed.

Lemma generated_board_covers_voxels_witness :
  let uuid := fun n : nat => JS.numStr (Z.of_nat n) in
  let result := [mkRaw 0 1 0 "blue"; mkRaw 0 0 0 ""; mkRaw 1 0 0 ""] in
  coverCount (App.bricks (App.generateDone uuid 0 App.init result))
             1 0 0 RED
  = 1%nat.
Proof.
  intros uuid result.
  rewrite (generated_board_covers_voxels uuid 0%nat App.init result).
  - reflexivity.
  - intros v [<- | [<- | [<- | []]]]; unfold inRange, MAX_COORD; simpl; lia.
  - intros v [<- | [<- | [<- | []]]]; reflexivity.
Defined.

(** X24. Undo after a generation.  From a state whose index is within
    bounds and whose board is the snapshot under it: when the generation
    completes with the index it captured still current, an undo gives
    back the board of before; when edits were committed in between, so
    that the captured index is behind, the index ends up beyond the end
    of the history and an undo leaves the generated board in place. *)
Theorem generation_and_undo :
  forall (uuid : nat -> string) (captured : nat) (s : App.State)
         (result : list RawBrick),
    UseHistory.wf (historyOf s) -> UseHistory.synced (historyOf s) ->
    let s' := App.generateDone uuid captured s result in
    (captured = App.currentHistoryIndex s -> undoGives s s')
    /\ ((captured < App.currentHistoryIndex s)%nat ->
        (length (App.history s') <= App.currentHistoryIndex s')%nat
        /\ App.bricks (App.undo s') = App.bricks s').
Proof.
  intros uuid captured s result Hwf Hs s'. split.
  - intros ->. eapply undo_after_commit; eauto; reflexivity.
  - intros Hlt. unfold UseHistory.wf in Hwf. simpl in Hwf.
    assert (Hlen : length (App.history s') = (captured + 2)%nat).
    { subst s'. unfold App.generateDone. cbv zeta.
      cbn [App.history App.saveToHistoryFrom App.setBoard App.drawIds].
      rewrite length_app, length_firstn. simpl. lia. }
    assert (Hidx : App.currentHistoryIndex s'
                   = (App.currentHistoryIndex s + 1)%nat) by reflexivity.
    assert (Hlast : nth_error (App.history s') (captured + 1)
                    = Some (App.bricks s')).
    { subst s'. unfold App.generateDone. cbv zeta.
      cbn [App.history App.bricks App.saveToHistoryFrom App.setBoard
           App.drawIds].
      rewrite nth_error_app2; rewrite length_firstn; [|lia].
      replace (captured + 1 - Nat.min (captured + 1)
                                      (length (App.history s)))%nat
        with 0%nat by lia.
      reflexivity. }
    clearbody s'. split; [lia|]. unfold App.undo. rewrite Hidx.
    replace (0 <? App.currentHistoryIndex s + 1)%nat
      with true by (symmetry; apply Nat.ltb_lt; lia).
    cbv zeta.
    destruct (nth_error (App.history s')
                        (App.currentHistoryIndex s + 1 - 1)) as [h|] eqn:E;
      [|reflexivity].
    assert (Hi : (App.currentHistoryIndex s + 1 - 1 < captured + 2)%nat).
    { rewrite <- Hlen. apply nth_error_Some. congruence. }
    replace (App.currentHistoryIndex s + 1 - 1)%nat
      with (captured + 1)%nat in E by lia.
    simpl. congruence.
Qed.

Lemma generation_and_undo_witness :
  let uuid := fun n : nat => JS.numStr (Z.of_nat n) in
  let s := App.addBrick uuid App.init 0 0 0 in
  let s' := App.generateDone uuid 0 s [mkRaw 5 0 5 "red"] in
  (length (App.history s') <= App.currentHistoryIndex s')%nat
  /\ App.bricks (App.undo s') = App.bricks s'.
Proof.
  intros uuid s s'.
  assert (Hwf : UseHistory.wf (historyOf s))
    by (unfold UseHistory.wf; simpl; lia).
  assert (Hs : UseHistory.synced (historyOf s)) by reflexivity.
  apply (proj2 (generation_and_undo uuid 0%nat s [mkRaw 5 0 5 "red"]
                                    Hwf Hs)).
  simpl. lia.
Defined.

(* ===================================================================== *)
(** * The history inside the application *)
(* ===================================================================== *)

Lemma commit_keeps (s t : App.State) :
  UseHistory.wf (historyOf s) ->
  App.history t
  = firstn (App.currentHistoryIndex s + 1) (App.history s)
    ++ [App.bricks t] ->
  App.currentHistoryIndex t = (App.currentHistoryIndex s + 1)%nat ->
  UseHistory.wf (historyOf t) /\ UseHistory.synced (historyOf t).
Proof.
  intros Hwf Hh Hi.
  assert (E : historyOf t
              = UseHistory.commit (historyOf s) (App.bricks t)).
  { unfold historyOf, UseHistory.commit, UseHistory.saveToHistory. simpl.
    now rewrite Hh, Hi. }
  rewrite E. split; [now apply save_wf | now apply save_synced].
Qed.

Lemma step_keeps_history (uuid : nat -> string) (s : App.State) (e : Event) :
  UseHistory.wf (historyOf s) /\ UseHistory.synced (historyOf s) ->
  timely s e ->
  UseHistory.wf (historyOf (step uuid s e))
  /\ UseHistory.synced (historyOf (step uuid s e)).
Proof.
  intros (Hwf & Hs) Ht. destruct e; simpl in *.
  - apply (commit_keeps s); auto.
  - destruct (in_dec string_dec brickId (map id (App.bricks s)))
      as [Hin | Hn].
    + destruct (handleLiftBrick_parts s brickId Hin)
        as (ids & a & _ & _ & ->).
      apply (commit_keeps s); auto.
    + rewrite handleLiftBrick_absent by assumption. auto.
  - unfold App.handleDropGroup. destruct (App.liftedGroup s); [|auto].
    destruct (negb _); [|auto]. apply (commit_keeps s); auto.
  - unfold App.rotateLiftedGroup. destruct (App.liftedGroup s); auto.
  - apply (commit_keeps s); auto.
  - apply (commit_keeps s); auto.
  - rewrite app_undo_agrees. now apply undo_keeps.
  - rewrite app_redo_agrees. now apply redo_keeps.
  - auto.
  - subst captured. apply (commit_keeps s); auto.
  - auto.
  - auto.
  - auto.
Qed.

(** X25. The history of the application stays consistent: after any
    sequence of events from the first render in which every generation
    completes with the index it captured still current, the history
    index is within the bounds of the history and the board is the
    snapshot under the index. *)
Theorem app_history_stays_consistent :
  forall (uuid : nat -> string) (es : list Event),
    timelyFrom uuid App.init es ->
    UseHistory.wf (historyOf (run uuid es))
    /\ UseHistory.synced (historyOf (run uuid es)).
Proof.
  intros uuid es. unfold run.
  assert (G : forall s,
    UseHistory.wf (historyOf s) /\ UseHistory.synced (historyOf s) ->
    timelyFrom uuid s es ->
    UseHistory.wf (historyOf (fold_left (step uuid) es s))
    /\ UseHistory.synced (historyOf (fold_left (step uuid) es s))).
  { induction es as [|e es IH]; intros s Hs Ht; cbn [fold_left]; auto.
    destruct Ht as (Ht & Hrest).
    apply IH; [|exact Hrest]. now apply step_keeps_history. }
  apply G. split; [unfold UseHistory.wf; simpl; lia | reflexivity].
Qed.

Lemma app_history_stays_consistent_witness :
  let uuid := fun n : nat => JS.numStr (Z.of_nat n) in
  let es := [AddBrick 0 0 0; AddBrick 0 1 0; LiftBrick "0"; Rotate;
             DropGroup 4 0 4; Undo; GenerateDone 3 [mkRaw 1 0 1 "red"];
             Undo; Redo] in
  UseHistory.synced (historyOf (run uuid es)).
Proof.
  intros uuid es. apply (app_history_stays_consistent uuid es).
  repeat split.
Defined.

(** X26. With an id oracle that never repeats, every state the
    application reaches is well formed: the bricks of the board and of
    the held group have distinct ids, each drawn from the oracle before;
    the bricks of the board carry no offsets; and the same holds of
    every snapshot in the history. *)
Theorem reachable_states_well_formed :
  forall (uuid : nat -> string) (es : list Event),
    (forall i j, uuid i = uuid j -> i = j) ->
    let s := run uuid es in
    NoDup (map id (App.bricks s ++ held s))
    /\ (forall b, In b (App.bricks s ++ held s) ->
          exists j, (j < App.uuidCalls s)%nat /\ id b = uuid j)
    /\ Forall placed (App.bricks s)
    /\ Forall (fun h => NoDup (map id h) /\ Forall placed h) (App.history s).
Proof.
  intros uuid es Hinj s.
  pose proof (machine_runTracked uuid Hinj es) as H.
  rewrite runTracked_run in H. fold s in H.
  destruct H as [(Hnd & Hiss) Hh Hp Hhp _].
  split; [exact Hnd|]. split; [|split; [exact Hp|]].
  - intros b Hb. apply Hiss. now apply in_map.
  - rewrite Forall_forall in Hh, Hhp. apply Forall_forall. intros h Hin.
    split; [apply (Hh h Hin) | apply (Hhp h Hin)].
Qed.

Lemma reachable_states_well_formed_witness :
  let uuid := fun n : nat => JS.numStr (Z.of_nat n) in
  let es := [AddBrick 0 0 0; AddBrick 0 1 0; LiftBrick "0"; Rotate;
             DropGroup 4 0 4; GenerateDone 0 [mkRaw 1 0 1 "red"]] in
  Forall placed (App.bricks (run uuid es)).
Proof.
  intros uuid es.
  apply (reachable_states_well_formed uuid es numStr_nat_inj).
Defined.

(* ===================================================================== *)
(** * Further properties of the pointer handlers *)
(* ===================================================================== *)

Lemma onBoard_test (px pz : Z) :
  (px <? - MAX_BOARD_SIZE / 2) || (px >? MAX_BOARD_SIZE / 2)
  || (pz <? - MAX_BOARD_SIZE / 2) || (pz >? MAX_BOARD_SIZE / 2) = false
  <-> onBoard px pz.
Proof.
  unfold onBoard.
  rewrite !orb_false_iff, !Z.ltb_ge, !Z.gtb_ltb, !Z.ltb_ge. tauto.
Qed.

(** X27. Placement through the ground plane is bounded.  In BUILD
    mode, a pointer move over the plane followed by a click adds exactly
    one brick, on the ground at the snapped position, when the position
    is on the board; when it is off the board the hover position is
    cleared and the click changes nothing. *)
Theorem ground_plane_placement_bounded :
  forall (uuid : nat -> string) (s : Scene.State) (px pz : Z),
    App.toolMode (Scene.app s) = BUILD ->
    let s' := Scene.handleClick uuid (Scene.handlePointerMove s px pz) in
    (onBoard px pz ->
     exists b,
       App.bricks (Scene.app s') = App.bricks (Scene.app s) ++ [b]
       /\ x b = px /\ y b = 0 /\ z b = pz
       /\ Scene.hoverPos s' = Some (px, 0, pz))
    /\ (~ onBoard px pz ->
        Scene.app s' = Scene.app s /\ Scene.hoverPos s' = None).
Proof.
  intros uuid s px pz Hm s'. subst s'. unfold Scene.handlePointerMove.
  rewrite Hm. cbn [Scene.isBuildOrMove negb].
  destruct ((px <? - MAX_BOARD_SIZE / 2) || (px >? MAX_BOARD_SIZE / 2)
            || (pz <? - MAX_BOARD_SIZE / 2) || (pz >? MAX_BOARD_SIZE / 2))
    eqn:E.
  - split.
    + intros Hon. apply onBoard_test in Hon. congruence.
    + intros _. unfold Scene.handleClick. simpl. rewrite Hm. auto.
  - split.
    + intros _. unfold Scene.handleClick. simpl. rewrite Hm. simpl.
      eexists. split; [reflexivity|]. simpl. auto.
    + intros Hoff. exfalso. apply Hoff. now apply onBoard_test.
Qed.

Lemma ground_plane_placement_bounded_witness :
  let uuid := fun n : nat => JS.numStr (Z.of_nat n) in
  let s := Scene.mkState (App.setToolMode App.init BUILD) None in
  Scene.app (Scene.handleClick uuid (Scene.handlePointerMove s 11 0))
  = Scene.app s.
Proof.
  intros uuid s.
  destruct (ground_plane_placement_bounded uuid s 11 0 eq_refl) as (_ & H).
  apply H. unfold onBoard. intros ((_ & Hx) & _).
  apply Hx. reflexivity.
Defined.

(** X28. Hovering never changes the application state, in any mode;
    and in VIEW mode nothing does: the ground click and the clicks and
    hovers on bricks leave the whole state as it is, and a pointer move
    over the plane only clears the hover position. *)
Theorem view_mode_is_read_only :
  forall (uuid : nat -> string) (s : Scene.State) (e : Scene.BrickEvent)
         (brick : BrickData) (px pz : Z),
    Scene.app (Scene.handlePointerMove s px pz) = Scene.app s
    /\ Scene.app (Scene.onBrickHover s e brick) = Scene.app s
    /\ (App.toolMode (Scene.app s) = VIEW ->
        Scene.handleClick uuid s = s
        /\ Scene.onBrickClick uuid s e brick = s
        /\ Scene.onBrickHover s e brick = s
        /\ Scene.hoverPos (Scene.handlePointerMove s px pz) = None).
Proof.
  intros uuid s e brick px pz. split; [|split].
  - unfold Scene.handlePointerMove.
    destruct (negb _); [reflexivity|]. destruct (_ || _); reflexivity.
  - unfold Scene.onBrickHover.
    destruct (App.toolMode (Scene.app s)), (App.liftedGroup (Scene.app s)),
      (Scene.face e); reflexivity.
  - intros Hm. unfold Scene.handleClick, Scene.onBrickClick,
      Scene.onBrickHover, Scene.handlePointerMove.
    rewrite Hm. simpl. auto.
Qed.

Lemma view_mode_is_read_only_witness :
  let uuid := fun n : nat => JS.numStr (Z.of_nat n) in
  let a := mkBrick "a" 0 0 0 RED (Some 1) (Some 1) (Some 0)
                   None None None None in
  let e := Scene.mkEvent 0 0 (Some (Scene.mkNormal true 0 1 0)) in
  Scene.onBrickClick uuid Scene.init e a = Scene.init.
Proof.
  intros uuid a e.
  destruct (view_mode_is_read_only uuid Scene.init e a 0 0) as (_ & _ & H).
  destruct (H eq_refl) as (_ & Hc & _). exact Hc.
Defined.


